(** * columbus_json: a shallow embedding of [json.h]

    The development follows the layout of the header: the [Error]
    enumeration, the [Node] class with its three payload slots and its tag,
    the private cursor helpers and productions of the recursive-descent
    parser, the public constructors, assignments, accessors and indexers,
    and the stream printer.  Theorems come after the definitions. *)

From Stdlib Require Import Bool Arith ZArith Lia List Ascii String.
From Stdlib Require Import Sorted DecimalString DecimalPos DecimalN DecimalZ.
From Stdlib Require Import SpecFloat.
Import ListNotations.

Local Open Scope string_scope.
Local Open Scope Z_scope.

(** ** Outcomes of running a piece of the C++ code

    [Ret] is a normal return.  [UB] marks executions that leave the defined
    behaviour of C++ (a read past the terminator of the input buffer, a
    signed overflow of [int], an out-of-range conversion to [int], an
    out-of-range subscript of a vector).  [OutOfFuel] is produced only by
    the fuel-indexed loops of the parser. *)

Inductive outcome (A : Type) : Type :=
| Ret (a : A)
| UB
| OutOfFuel.

Arguments Ret {A} a.
Arguments UB {A}.
Arguments OutOfFuel {A}.

Definition bind {A B : Type} (m : outcome A) (k : A -> outcome B) : outcome B :=
  match m with
  | Ret a => k a
  | UB => UB
  | OutOfFuel => OutOfFuel
  end.

Notation "'let*' x ':=' m 'in' k" := (bind m (fun x => k))
  (at level 10, x pattern, m at level 100, k at level 200).

(** ** Characters and the cursor

    The parser walks a [const char*] over the NUL-terminated buffer returned
    by [c_str()].  The cursor is modelled by the text that remains in front
    of it; [EmptyString] is the cursor standing on the terminator. *)

Definition NUL : ascii := "000"%char.
Definition LF : ascii := "010"%char.
Definition TAB : ascii := "009"%char.
Definition QUOT : ascii := "034"%char.

Definition endl : string := String LF EmptyString.

(** The character under the cursor. *)
Definition peek (Position : string) : ascii :=
  match Position with
  | EmptyString => NUL
  | String c _ => c
  end.

(** The cursor increment, applied while the cursor stands on a character
    of the text. *)
Definition advance (Position : string) : string :=
  match Position with
  | EmptyString => EmptyString
  | String _ rest => rest
  end.

(** [*Position += n], applied after [n] characters have been matched. *)
Definition advance_by (n : nat) (Position : string) : string :=
  Nat.iter n advance Position.

(** [std::isspace] in the C locale: space, and the controls 9 to 13. *)
Definition isspace (c : ascii) : bool :=
  let n := N_of_ascii c in
  (N.eqb n 32 || (N.leb 9 n && N.leb n 13))%bool.

(** [std::isdigit] *)
Definition isdigit (c : ascii) : bool :=
  let n := N_of_ascii c in
  (N.leb 48 n && N.leb n 57)%bool.

(** [c - '0'] *)
Definition digit_value (c : ascii) : Z := Z.of_N (N_of_ascii c) - 48.

(** ** The [int] type *)

Definition INT_MAX : Z := 2147483647.
Definition INT_MIN : Z := -2147483648.

Definition in_int (z : Z) : bool := (INT_MIN <=? z) && (z <=? INT_MAX).

(** Signed [int] arithmetic: a result outside the type is undefined. *)
Definition int_result (z : Z) : outcome Z :=
  if in_int z then Ret z else UB.

(** ** [double] and [float]

    IEEE-754 binary64 and binary32 values, with the operations of the
    specification of floating-point arithmetic of the standard library
    (round to nearest, ties to even). *)

Definition double : Type := spec_float.
Definition float : Type := spec_float.

Definition dprec : Z := 53.
Definition demax : Z := 1024.
Definition fprec : Z := 24.
Definition femax : Z := 128.

Definition dadd : double -> double -> double := SFadd dprec demax.
Definition dmul : double -> double -> double := SFmul dprec demax.
Definition deqb : double -> double -> bool := SFeqb.

(** Conversion of an [int] to [double] (always exact). *)
Definition double_of_int (z : Z) : double := binary_normalize dprec demax z 0 false.

(** The literals [0.0] and [0.1] of [ExtractDec]. *)
Definition d0_0 : double := S754_zero false.
Definition d0_1 : double := S754_finite false 7205759403792794 (-56).

(** [(float)Number]: rounding of a [double] to single precision. *)
Definition float_of_double (x : double) : float :=
  match x with
  | S754_finite s m e => binary_round fprec femax s m e
  | _ => x
  end.

(** Integer part of the magnitude [m * 2^e]. *)
Definition trunc_mag (m : positive) (e : Z) : Z :=
  if 0 <=? e then Z.pos m * 2 ^ e else Z.pos m / 2 ^ (- e).

(** [(int)Number]: truncation toward zero; undefined when the truncated
    value does not fit [int] (which includes infinities and NaN). *)
Definition int_of_double (x : double) : outcome Z :=
  match x with
  | S754_zero _ => Ret 0
  | S754_finite s m e =>
      int_result (if s then - trunc_mag m e else trunc_mag m e)
  | _ => UB
  end.

(** [round] of <cmath>: nearest integral value, halfway cases away from
    zero. *)
Definition round (x : double) : double :=
  match x with
  | S754_finite s m e =>
      if 0 <=? e then x
      else
        let q := Z.pos m / 2 ^ (- e) in
        let r := Z.pos m mod 2 ^ (- e) in
        let q' := if 2 ^ (- e) <=? 2 * r then q + 1 else q in
        binary_normalize dprec demax (if s then - q' else q') 0 s
  | _ => x
  end.

(** [pow(10, Exponent)], taken to be the correctly rounded power. *)
Definition pow10 (Exponent : Z) : double :=
  if 0 <=? Exponent then binary_normalize dprec demax (10 ^ Exponent) 0 false
  else
    let '(mz, ez, lz) := SFdiv_core_binary dprec demax 1 0 (10 ^ (- Exponent)) 0 in
    binary_round_aux dprec demax false mz ez lz.

(** ** The data model *)

(** [enum class Error] *)
Module Error.
Inductive t : Set :=
| None
| InvalidString
| InvalidNumber
| MissedColon
| MissedComma
| MissedQuot
| MissedBracket
| MissedBrace
| Undefined.

Definition eqb (a b : t) : bool :=
  match a, b with
  | None, None | InvalidString, InvalidString | InvalidNumber, InvalidNumber
  | MissedColon, MissedColon | MissedComma, MissedComma
  | MissedQuot, MissedQuot | MissedBracket, MissedBracket
  | MissedBrace, MissedBrace | Undefined, Undefined => true
  | _, _ => false
  end.
End Error.

(** [enum class ValueType] of [Node] *)
Module ValueType.
Inductive t : Set :=
| Variant
| Array
| Object.

Definition eqb (a b : t) : bool :=
  match a, b with
  | Variant, Variant | Array, Array | Object, Object => true
  | _, _ => false
  end.
End ValueType.

(** [std::variant<std::string, int, float, bool, std::nullptr_t>] *)
Inductive variant : Type :=
| v_string (V : string)
| v_int (V : Z)
| v_float (V : float)
| v_bool (V : bool)
| v_nullptr.

Unset Elimination Schemes.

(** [class Node]: the three payload members and the tag.  [Array_t] is a
    [std::vector<Node>]; [Object_t] is a [std::map<std::string, Node>],
    kept as the list of its entries in the order the map iterates them. *)
Inductive Node : Type :=
  mkNode (Variant : variant) (Array : list Node)
         (Object : list (string * Node)) (Type_ : ValueType.t).

Set Elimination Schemes.

Definition Array_t : Type := list Node.
Definition Object_t : Type := list (string * Node).

Definition Variant (n : Node) : variant := let '(mkNode v _ _ _) := n in v.
Definition Array (n : Node) : Array_t := let '(mkNode _ a _ _) := n in a.
Definition Object (n : Node) : Object_t := let '(mkNode _ _ o _) := n in o.
Definition Type_ (n : Node) : ValueType.t := let '(mkNode _ _ _ t) := n in t.

Definition set_Variant (v : variant) (n : Node) : Node :=
  mkNode v (Array n) (Object n) (Type_ n).
Definition set_Array (a : Array_t) (n : Node) : Node :=
  mkNode (Variant n) a (Object n) (Type_ n).
Definition set_Object (o : Object_t) (n : Node) : Node :=
  mkNode (Variant n) (Array n) o (Type_ n).
Definition set_Type (t : ValueType.t) (n : Node) : Node :=
  mkNode (Variant n) (Array n) (Object n) t.

(** [Node() : Type(ValueType::Object) {}]: the variant member is
    value-initialised to its first alternative, an empty [std::string]. *)
Definition Node_default : Node :=
  mkNode (v_string "") [] [] ValueType.Object.

(** *** [std::map<std::string, Node>]

    Keys are compared with [std::string::operator<], the lexicographic
    order on character codes. *)

Definition key_lt (a b : string) : Prop := String.compare a b = Lt.

(** [find]: the node stored under a key, if any. *)
Fixpoint map_find (Key : string) (m : Object_t) : option Node :=
  match m with
  | [] => None
  | (k, v) :: m' =>
      match String.compare Key k with
      | Eq => Some v
      | Lt => None
      | Gt => map_find Key m'
      end
  end.

(** [m[Key] = V]: the entry is created in key order when it is absent and
    overwritten when it is present. *)
Fixpoint map_assign (Key : string) (V : Node) (m : Object_t) : Object_t :=
  match m with
  | [] => [(Key, V)]
  | (k, v) :: m' =>
      match String.compare Key k with
      | Eq => (k, V) :: m'
      | Lt => (Key, V) :: (k, v) :: m'
      | Gt => (k, v) :: map_assign Key V m'
      end
  end.

(** [m[Key]] as an lvalue: a default node is inserted when the key is
    absent; the map after the access and the node referred to. *)
Definition map_subscript (Key : string) (m : Object_t) : Object_t * Node :=
  match map_find Key m with
  | Some v => (m, v)
  | None => (map_assign Key Node_default m, Node_default)
  end.

(** ** The parser: cursor helpers *)

(** [SkipSpace]: advance while the character under the cursor is a space. *)
Fixpoint SkipSpace (Position : string) : string :=
  match Position with
  | EmptyString => EmptyString
  | String c rest => if isspace c then SkipSpace rest else Position
  end.

(** [ExtractString]: collect characters up to the next double quote.  The
    loop tests for the quote only, so on a text without one it walks over
    the terminator and reads past the buffer. *)
Fixpoint ExtractString (Position : string) : outcome (string * string) :=
  match Position with
  | EmptyString => UB
  | String c rest =>
      if Ascii.eqb c QUOT then Ret (EmptyString, Position)
      else
        let* (Str, Position') := ExtractString rest in
        Ret (String c Str, Position')
  end.

(** [ExtractInt]: [N = N * 10 + digit] in [int], from [N = 0]. *)
Fixpoint ExtractInt_from (N : Z) (Position : string) : outcome (Z * string) :=
  match Position with
  | EmptyString => Ret (N, Position)
  | String c rest =>
      if isdigit c then
        let* N' := int_result (N * 10 + digit_value c) in
        ExtractInt_from N' rest
      else Ret (N, Position)
  end.

Definition ExtractInt (Position : string) : outcome (Z * string) :=
  ExtractInt_from 0 Position.

(** [ExtractDec]: [N = N + digit * F; F *= 0.1] in [double], from
    [N = 0.0, F = 0.1]. *)
Fixpoint ExtractDec_from (N F : double) (Position : string) : double * string :=
  match Position with
  | EmptyString => (N, Position)
  | String c rest =>
      if isdigit c then
        ExtractDec_from (dadd N (dmul (double_of_int (digit_value c)) F))
                        (dmul F d0_1) rest
      else (N, Position)
  end.

Definition ExtractDec (Position : string) : double * string :=
  ExtractDec_from d0_0 d0_1 Position.

(** ** The parser: productions

    Every production takes the cursor and the node it fills ([*this]) and
    returns its [Error], the cursor and the node as it leaves them. *)

Definition parsed : Type := Error.t * string * Node.

Definition ParseString (Position : string) (self : Node) : outcome parsed :=
  if Ascii.eqb (peek Position) QUOT then
    let Position := advance Position in
    let* (Str, Position) := ExtractString Position in
    let self := set_Variant (v_string Str) self in
    if negb (Ascii.eqb (peek Position) QUOT)
    then Ret (Error.MissedQuot, Position, self)
    else
      let Position := advance Position in
      Ret (Error.None, Position, set_Type ValueType.Variant self)
  else Ret (Error.Undefined, Position, self).

(** [std::equal] of the next characters with a literal: no literal
    contains a NUL, so on a text shorter than the literal the comparison
    fails at the terminator at the latest. *)
Definition ParseBool (Position : string) (self : Node) : outcome parsed :=
  let IsTrue := String.prefix "true" Position in
  let IsFalse := String.prefix "false" Position in
  if IsTrue || IsFalse then
    let self := set_Variant (v_bool IsTrue) self in
    let Position := advance_by (if IsTrue then 4 else 5) Position in
    Ret (Error.None, Position, set_Type ValueType.Variant self)
  else Ret (Error.Undefined, Position, self).

Definition ParseNull (Position : string) (self : Node) : outcome parsed :=
  if String.prefix "null" Position then
    let self := set_Variant v_nullptr self in
    let Position := advance_by 4 Position in
    Ret (Error.None, Position, set_Type ValueType.Variant self)
  else Ret (Error.Undefined, Position, self).

Definition is_digit_char (c : ascii) : bool :=
  (Ascii.leb "0" c && Ascii.leb c "9")%bool.

Definition ParseNumber (Position : string) (self : Node) : outcome parsed :=
  if Ascii.eqb (peek Position) "-" || is_digit_char (peek Position) then
    let Neg := Ascii.eqb (peek Position) "-" in
    let Position := if Neg then advance Position else Position in
    let* (Whole, Position) := ExtractInt Position in
    let Number := double_of_int Whole in
    (* the optional fraction *)
    let frac :=
      if Ascii.eqb (peek Position) "." then
        let Position := advance Position in
        if negb (is_digit_char (peek Position)) then inl Position
        else
          let '(D, Position) := ExtractDec Position in
          inr (dadd Number D, Position)
      else inr (Number, Position) in
    match frac with
    | inl Position => Ret (Error.InvalidNumber, Position, self)
    | inr (Number, Position) =>
        (* the optional exponent *)
        let* expo :=
          if Ascii.eqb (peek Position) "e" || Ascii.eqb (peek Position) "E" then
            let Position := advance Position in
            let ExpNeg := Ascii.eqb (peek Position) "-" in
            let Position := if ExpNeg then advance Position else Position in
            if negb (is_digit_char (peek Position)) then Ret (inl Position)
            else
              let* (Exponent, Position) := ExtractInt Position in
              let* Exponent := int_result (Exponent * (if ExpNeg then -1 else 1)) in
              Ret (inr (dmul Number (pow10 Exponent), Position))
          else Ret (inr (Number, Position)) in
        match expo with
        | inl Position => Ret (Error.InvalidNumber, Position, self)
        | inr (Number, Position) =>
            let Number := dmul Number (double_of_int (if Neg then -1 else 1)) in
            if deqb (round Number) Number then
              let self := set_Type ValueType.Variant self in
              let* Cast := int_of_double Number in
              Ret (Error.None, Position, set_Variant (v_int Cast) self)
            else
              let self := set_Type ValueType.Variant self in
              Ret (Error.None, Position,
                   set_Variant (v_float (float_of_double Number)) self)
        end
    end
  else Ret (Error.Undefined, Position, self).

(** ** The parser: [Parse], [ParseObject], [ParseArray]

    [Parse] declares

      [static auto Check = [&]() { return Err != Error::None && Err != Error::Undefined; };]

    The closure is a function-local static: it is built once, by the first
    activation of [Parse] that reaches the declaration, and its by-reference
    capture binds the [Err] of that activation.  Every later evaluation of
    [Check()], in whichever activation, reads that one object.  While the
    first activation is running, the activations nested in it (the members
    of an object, the elements of an array) therefore test the [Err] of the
    outermost activation and not their own.

    [cell] is the object [Check] reads: [None] in the activation that owns
    it, and [Some e] in a nested activation, where [e] is the value the
    owner's [Err] holds for the whole duration of the nested call. *)

Definition captured := option Error.t.

Definition Check (cell : captured) (Err : Error.t) : bool :=
  let e := match cell with Some e => e | None => Err end in
  negb (Error.eqb e Error.None) && negb (Error.eqb e Error.Undefined).

(** The cell seen by the activations called from an activation whose own
    [Err] currently holds [Err]. *)
Definition nested (cell : captured) (Err : Error.t) : captured :=
  match cell with
  | Some e => Some e
  | None => Some Err
  end.

Definition loop_body : Type := string -> Node -> outcome parsed.

(** [ParseObject], given its [while] loop. *)
Definition ParseObject_with (loop : loop_body) (Position : string) (self : Node)
  : outcome parsed :=
  if Ascii.eqb (peek Position) "{" then loop (advance Position) self
  else Ret (Error.Undefined, Position, self).

(** [ParseArray], given its [while] loop.  [reserve] changes the capacity
    of the vector only. *)
Definition ParseArray_with (loop : loop_body) (Position : string) (self : Node)
  : outcome parsed :=
  if Ascii.eqb (peek Position) "[" then loop (advance Position) self
  else Ret (Error.Undefined, Position, self).

Fixpoint Parse (fuel : nat) (cell : captured) (Position : string) (self : Node)
  {struct fuel} : outcome parsed :=
  match fuel with
  | O => OutOfFuel
  | S fuel =>
      let Position := SkipSpace Position in
      let* (Err, Position, self) := ParseString Position self in
      if Check cell Err then Ret (Err, Position, self) else
      let* (Err, Position, self) := ParseBool Position self in
      if Check cell Err then Ret (Err, Position, self) else
      let* (Err, Position, self) := ParseNull Position self in
      if Check cell Err then Ret (Err, Position, self) else
      let* (Err, Position, self) := ParseNumber Position self in
      if Check cell Err then Ret (Err, Position, self) else
      let* (Err, Position, self) :=
        ParseObject_with (ObjectLoop fuel (nested cell Err)) Position self in
      if Check cell Err then Ret (Err, Position, self) else
      let* (Err, Position, self) :=
        ParseArray_with (ArrayLoop fuel (nested cell Err)) Position self in
      if Check cell Err then Ret (Err, Position, self) else
      Ret (Error.None, Position, self)
  end

(** The [while] loop of [ParseObject]; leaving the loop falls through to
    [return Error::Undefined].  A character that is neither a closing brace
    nor a quote sends the loop round again without moving the cursor. *)
with ObjectLoop (fuel : nat) (cell : captured) (Position : string) (self : Node)
  {struct fuel} : outcome parsed :=
  match fuel with
  | O => OutOfFuel
  | S fuel =>
      if Ascii.eqb (peek Position) NUL then Ret (Error.Undefined, Position, self)
      else
        let Position := SkipSpace Position in
        if Ascii.eqb (peek Position) "}"
        then Ret (Error.None, Position, set_Type ValueType.Object self)
        else if Ascii.eqb (peek Position) QUOT then
          let Position := advance Position in
          let* (Name, Position) := ExtractString Position in
          if negb (Ascii.eqb (peek Position) QUOT)
          then Ret (Error.MissedQuot, Position, set_Object [] self) else
          let Position := SkipSpace (advance Position) in
          if negb (Ascii.eqb (peek Position) ":")
          then Ret (Error.MissedColon, Position, set_Object [] self) else
          let Position := SkipSpace (advance Position) in
          let* (Err, Position, New) := Parse fuel cell Position Node_default in
          if negb (Error.eqb Err Error.None)
          then Ret (Err, Position, set_Object [] self) else
          let self := set_Type ValueType.Object self in
          let self := set_Object (map_assign Name New (Object self)) self in
          let Position := SkipSpace Position in
          if Ascii.eqb (peek Position) "}"
          then Ret (Error.None, advance Position, self) else
          if negb (Ascii.eqb (peek Position) ",")
          then Ret (Error.MissedComma, Position, set_Object [] self) else
          ObjectLoop fuel cell (advance Position) self
        else ObjectLoop fuel cell Position self
  end

(** The [while] loop of [ParseArray].  In the branch for an empty array the
    source has the expression statement [Type == ValueType::Array;], a
    comparison whose value is dropped: the tag is left as it was. *)
with ArrayLoop (fuel : nat) (cell : captured) (Position : string) (self : Node)
  {struct fuel} : outcome parsed :=
  match fuel with
  | O => OutOfFuel
  | S fuel =>
      if Ascii.eqb (peek Position) NUL then Ret (Error.Undefined, Position, self)
      else
        let Position := SkipSpace Position in
        if (Nat.eqb (List.length (Array self)) 0 && Ascii.eqb (peek Position) "]")%bool
        then Ret (Error.None, Position, self)
        else
          let* (Err, Position, New) := Parse fuel cell Position Node_default in
          if negb (Error.eqb Err Error.None)
          then Ret (Err, Position, set_Array [] self) else
          let self := set_Type ValueType.Array self in
          let self := set_Array (Array self ++ [New])%list self in
          let Position := SkipSpace Position in
          if Ascii.eqb (peek Position) "]"
          then Ret (Error.None, advance Position, self) else
          if negb (Ascii.eqb (peek Position) ",")
          then Ret (Error.MissedComma, Position, set_Array [] self) else
          ArrayLoop fuel cell (advance Position) self
  end.

Definition ParseObject (fuel : nat) (cell : captured) : loop_body :=
  ParseObject_with (ObjectLoop fuel cell).

Definition ParseArray (fuel : nat) (cell : captured) : loop_body :=
  ParseArray_with (ArrayLoop fuel cell).

(** The activation of [Parse] that [operator>>] starts, the first of the
    program: it owns the object [Check] reads. *)
Definition Parse_top (fuel : nat) (Str : string) (Val : Node) : outcome parsed :=
  Parse fuel None Str Val.

(** What a stream extraction ends with: the node filled, or an error
    thrown (the node as the parser left it). *)
Inductive extracted : Type :=
| Filled (Val : Node)
| Thrown (E : Error.t) (Val : Node).

(** [operator>>(std::istream&, Node&)]: the whole stream is read into a
    string and parsed; an error other than [Error::None] is thrown. *)
Definition extract (fuel : nat) (Str : string) (Val : Node) : outcome extracted :=
  let* (E, _, Val) := Parse_top fuel Str Val in
  if negb (Error.eqb E Error.None) then Ret (Thrown E Val) else Ret (Filled Val).

(** ** The printer: scalars

    [Save] writes the active alternative of the variant with the stream's
    default formatting. *)

(** [Stream << V] for [int]: decimal digits, with a sign when negative. *)
Definition Save_int (V : Z) : string := NilZero.string_of_int (Z.to_int V).

(** [Stream << V] for [float]: the default [floatfield] with precision 6,
    the [%g] conversion of the exact value. *)

Definition digits_of (n : Z) : string := NilZero.string_of_uint (N.to_uint (Z.to_N n)).

Fixpoint strip_zeros_rev (l : list ascii) : list ascii :=
  match l with
  | c :: l' => if Ascii.eqb c "0" then strip_zeros_rev l' else l
  | [] => []
  end.

(** Removal of the trailing zeros of a run of fraction digits. *)
Definition strip_zeros (s : string) : string :=
  string_of_list_ascii (rev (strip_zeros_rev (rev (list_ascii_of_string s)))).

Definition with_point (whole frac : string) : string :=
  match strip_zeros frac with
  | EmptyString => whole
  | f => whole ++ "." ++ f
  end.

(** [10^X <= n / d], for positive [n] and [d]. *)
Definition pow10_le (X n d : Z) : bool :=
  if 0 <=? X then 10 ^ X * d <=? n else d <=? n * 10 ^ (- X).

(** The decimal exponent of [n / d], searched upward from [X]. *)
Fixpoint decimal_exponent (fuel : nat) (X n d : Z) : Z :=
  match fuel with
  | O => X
  | S fuel => if pow10_le (X + 1) n d then decimal_exponent fuel (X + 1) n d else X
  end.

(** Rounding of [a / b] to the nearest integer, ties to even. *)
Definition div_nearest_even (a b : Z) : Z :=
  let q := a / b in
  let r := a mod b in
  match 2 * r ?= b with
  | Lt => q
  | Gt => q + 1
  | Eq => if Z.even q then q else q + 1
  end.

Definition six_digits (X n d : Z) : Z :=
  if X <=? 5 then div_nearest_even (n * 10 ^ (5 - X)) d
  else div_nearest_even n (d * 10 ^ (X - 5)).

Definition two_digits (n : Z) : string :=
  if n <? 10 then "0" ++ digits_of n else digits_of n.

Definition format_g (n d : Z) : string :=
  let X0 := decimal_exponent 120 (-60) n d in
  let D0 := six_digits X0 n d in
  let '(X, D) := if D0 =? 1000000 then (X0 + 1, 100000) else (X0, D0) in
  let ds := digits_of D in
  if (X <? -4) || (6 <=? X) then
    with_point (String.substring 0 1 ds) (String.substring 1 5 ds)
      ++ "e" ++ (if X <? 0 then "-" else "+") ++ two_digits (Z.abs X)
  else if X <? 0 then
    with_point "0" (string_of_list_ascii (repeat "0"%char (Z.to_nat (- X - 1))) ++ ds)
  else
    with_point (String.substring 0 (Z.to_nat (X + 1)) ds)
               (String.substring (Z.to_nat (X + 1)) 6 ds).

Definition Save_float (V : float) : string :=
  match V with
  | S754_zero s => if s then "-0" else "0"
  | S754_infinity s => if s then "-inf" else "inf"
  | S754_nan => "nan"
  | S754_finite s m e =>
      (if s then "-" else "") ++
      (if 0 <=? e then format_g (Z.pos m * 2 ^ e) 1
       else format_g (Z.pos m) (2 ^ (- e)))
  end.

Definition quoted (V : string) : string := String QUOT (V ++ String QUOT "").

(** The overloads of [Save], selected by [std::visit]. *)
Definition Save (V : variant) : string :=
  match V with
  | v_string V => quoted V
  | v_int V => Save_int V
  | v_float V => Save_float V
  | v_bool V => if V then "true" else "false"
  | v_nullptr => "null"
  end.

(** ** The printer: [operator<<(std::ostream&, const Node&)]

    [Level] is the function's static indentation counter.  Every call
    leaves it as it found it, so it is passed down as an argument. *)

Definition Tabs (Level : nat) : string :=
  string_of_list_ascii (repeat TAB Level).

Definition at_level_zero (Level : nat) : string :=
  if Nat.eqb Level 0 then endl else "".

Fixpoint print (Level : nat) (Val : Node) {struct Val} : string :=
  let '(mkNode V Arr Obj Ty) := Val in
  match Ty with
  | ValueType.Object =>
      (if negb (Nat.eqb Level 0) then endl else "") ++
      Tabs Level ++ "{" ++ endl ++
      (fix members (Count : nat) (l : list (string * Node)) {struct l} : string :=
         match l with
         | [] => ""
         | N :: l' =>
             Tabs (S Level) ++
             String QUOT (fst N ++ String QUOT ": ") ++ print (S Level) (snd N) ++
             (if negb (Nat.eqb (S Count) (List.length Obj)) then "," else "") ++
             endl ++ members (S Count) l'
         end) O Obj ++
      Tabs Level ++ "}"
  | ValueType.Variant => Save V
  | ValueType.Array =>
      "[" ++
      (fix elements (Counter : nat) (l : list Node) {struct l} : string :=
         match l with
         | [] => ""
         | E :: l' =>
             print Level E ++
             (if Nat.eqb (S Counter) (List.length Arr) then "" else ", ") ++
             elements (S Counter) l'
         end) O Arr ++
      "]"
  end ++ at_level_zero Level.

(** ** The public interface of [Node] *)

(** *** Constructors *)

Definition Node_string (Val : string) : Node := mkNode (v_string Val) [] [] ValueType.Variant.
Definition Node_int (Val : Z) : Node := mkNode (v_int Val) [] [] ValueType.Variant.
Definition Node_float (Val : float) : Node := mkNode (v_float Val) [] [] ValueType.Variant.
Definition Node_bool (Val : bool) : Node := mkNode (v_bool Val) [] [] ValueType.Variant.
Definition Node_array (Arr : Array_t) : Node := mkNode (v_string "") Arr [] ValueType.Array.

(** *** Assignments: each writes one payload member and the tag, and
    leaves the other two payload members as they are. *)

Definition assign_string (Val : string) (self : Node) : Node :=
  set_Type ValueType.Variant (set_Variant (v_string Val) self).
Definition assign_int (Val : Z) (self : Node) : Node :=
  set_Type ValueType.Variant (set_Variant (v_int Val) self).
Definition assign_double (Val : double) (self : Node) : Node :=
  set_Type ValueType.Variant (set_Variant (v_float (float_of_double Val)) self).
Definition assign_bool (Val : bool) (self : Node) : Node :=
  set_Type ValueType.Variant (set_Variant (v_bool Val) self).
Definition assign_nullptr (self : Node) : Node :=
  set_Type ValueType.Variant (set_Variant v_nullptr self).
Definition assign_array (Arr : Array_t) (self : Node) : Node :=
  set_Type ValueType.Array (set_Array Arr self).

(** *** [Get<T>] and [Is<T>]

    [kind] enumerates the seven specialisations. *)

Inductive kind : Set :=
| k_string | k_int | k_float | k_bool | k_nullptr | k_Object | k_Array.

(** What a [Get<T>] hands back. *)
Inductive payload : Type :=
| p_string (V : string)
| p_int (V : Z)
| p_float (V : float)
| p_bool (V : bool)
| p_nullptr
| p_Object (V : Object_t)
| p_Array (V : Array_t).

(** [std::holds_alternative<T>(Variant)] *)
Definition holds_alternative (T : kind) (V : variant) : bool :=
  match T, V with
  | k_string, v_string _ | k_int, v_int _ | k_float, v_float _
  | k_bool, v_bool _ | k_nullptr, v_nullptr => true
  | _, _ => false
  end.

(** [Get<T>]: [std::get<T>(Variant)] for the five scalar kinds, which throws
    [std::bad_variant_access] ([None] here) when the variant holds another
    alternative; the [Object] or [Array] member itself for the two
    container kinds.  The tag is not consulted. *)
Definition Get (T : kind) (self : Node) : option payload :=
  match T, Variant self with
  | k_Object, _ => Some (p_Object (Object self))
  | k_Array, _ => Some (p_Array (Array self))
  | k_string, v_string V => Some (p_string V)
  | k_int, v_int V => Some (p_int V)
  | k_float, v_float V => Some (p_float V)
  | k_bool, v_bool V => Some (p_bool V)
  | k_nullptr, v_nullptr => Some p_nullptr
  | _, _ => None
  end.

(** [Is<T>] *)
Definition Is (T : kind) (self : Node) : bool :=
  match T with
  | k_Object => ValueType.eqb (Type_ self) ValueType.Object
  | k_Array => ValueType.eqb (Type_ self) ValueType.Array
  | _ => ValueType.eqb (Type_ self) ValueType.Variant && holds_alternative T (Variant self)
  end.

(** *** The indexers

    Both return a reference into the node.  The model returns the node as
    the access leaves it together with the place referred to. *)

(** [Index >= Array.size()], after the conversion of [Index] to [size_t]. *)
Definition SIZE_MAX : Z := 18446744073709551615.
Definition to_size_t (Index : Z) : Z := Index mod (SIZE_MAX + 1).

(** [operator[](int)]: the place is [None] when [Array[Index]] is a
    subscript outside the vector. *)
Definition index_int (Index : Z) (self : Node) : Node * option nat :=
  let self :=
    if negb (ValueType.eqb (Type_ self) ValueType.Array)
    then set_Type ValueType.Array (set_Object [] self)
    else self in
  let self :=
    if Z.of_nat (List.length (Array self)) <=? to_size_t Index
    then set_Array (Array self ++ [Node_default])%list self
    else self in
  (self,
   if to_size_t Index <? Z.of_nat (List.length (Array self))
   then Some (Z.to_nat (to_size_t Index)) else None).

(** [operator[]] on a key, for a C string and for a [std::string] alike *)
Definition index_key (Key : string) (self : Node) : Node * string :=
  let self :=
    if negb (ValueType.eqb (Type_ self) ValueType.Object)
    then set_Type ValueType.Object (set_Array [] self)
    else self in
  (set_Object (fst (map_subscript Key (Object self))) self, Key).

(** The node a place of [index_int] refers to. *)
Definition element_at (place : option nat) (self : Node) : outcome Node :=
  match place with
  | Some i =>
      match nth_error (Array self) i with
      | Some E => Ret E
      | None => UB
      end
  | None => UB
  end.

(** The node a place of [index_key] refers to. *)
Definition member_at (Key : string) (self : Node) : outcome Node :=
  match map_find Key (Object self) with
  | Some N => Ret N
  | None => UB
  end.

Fixpoint list_update {A : Type} (i : nat) (f : A -> A) (l : list A) : list A :=
  match l, i with
  | [], _ => []
  | x :: l', O => f x :: l'
  | x :: l', S i' => x :: list_update i' f l'
  end.

(** [self[Index] = ...]: an operation applied through the reference that
    [operator[](int)] returns. *)
Definition through_index (Index : Z) (op : Node -> Node) (self : Node) : outcome Node :=
  let '(self, place) := index_int Index self in
  match place with
  | Some i => Ret (set_Array (list_update i op (Array self)) self)
  | None => UB
  end.

(** [self[Key] = ...]: an operation applied through the reference that
    [operator[]] on a key returns. *)
Definition through_key (Key : string) (op : Node -> Node) (self : Node) : Node :=
  let '(self, _) := index_key Key self in
  match map_find Key (Object self) with
  | Some N => set_Object (map_assign Key (op N) (Object self)) self
  | None => self
  end.

(** ** The class [JSON]: a document, which owns its root node *)

Record JSON : Type := mkJSON { Root : Node }.

(** [JSON()] *)
Definition JSON_default : JSON := mkJSON Node_default.

(** What the construction of a document from a stream ends with: the
    document, or the error thrown by the extraction, which leaves the
    constructor. *)
Inductive constructed : Type :=
| Built (J : JSON)
| Failed (E : Error.t).

(** [JSON(std::istream&)]: the stream is extracted into the root of a new
    document. *)
Definition JSON_from_stream (fuel : nat) (Str : string) : outcome constructed :=
  let* x := extract fuel Str (Root JSON_default) in
  match x with
  | Filled Val => Ret (Built (mkJSON Val))
  | Thrown E _ => Ret (Failed E)
  end.

(** [operator[]] of the document, on a key: the indexer of the root. *)
Definition JSON_index (Key : string) (J : JSON) : JSON * string :=
  let '(R, place) := index_key Key (Root J) in (mkJSON R, place).

(** [J[Key] = ...]: an operation applied through the reference that the
    indexer of the document returns. *)
Definition JSON_through (Key : string) (op : Node -> Node) (J : JSON) : JSON :=
  mkJSON (through_key Key op (Root J)).

(** [operator<<(std::ostream&, const JSON&)] *)
Definition JSON_print (J : JSON) : string := print 0 (Root J).

(** [operator>>(std::istream&, JSON&)]: the extraction into the root the
    document has. *)
Definition JSON_extract (fuel : nat) (Str : string) (J : JSON) : outcome extracted :=
  extract fuel Str (Root J).

(** * The vocabulary of the statements

    Definitions the theorems are stated and proved with.  None of them is
    part of the header. *)

(** ** Texts, values and trees used as examples *)

(** The object text with the member a, cut before its closing brace; the
    object text with the key b before the key a; the string text abc with no
    closing quote. *)
Definition text_a_1_open : string := "{" ++ quoted "a" ++ ":1".
Definition text_b_1_a_2 : string := "{" ++ quoted "b" ++ ":1," ++ quoted "a" ++ ":2}".
Definition text_abc_open : string := String QUOT "abc".

(** The node the text with the keys b and a parses to. *)
Definition node_a_2_b_1 : Node :=
  mkNode (v_string "") [] [("a", Node_int 2); ("b", Node_int 1)] ValueType.Object.

(** The single-precision value 4.5. *)
Definition f4_5 : float := S754_finite false 9437184 (-21).


Definition text_a_empty_b_1 : string :=
  "{" ++ quoted "a" ++ ":{}," ++ quoted "b" ++ ":1}".

(** The text of an object with the member a and a comma before its closing
    brace. *)
Definition text_a_1_comma : string := "{" ++ quoted "a" ++ ":1,}".


(** ** Values *)

(** The object payload the integer indexer leaves behind. *)
Definition Object_after_index_int (self : Node) : Object_t :=
  if ValueType.eqb (Type_ self) ValueType.Array then Object self else [].

(** The two kinds that name a container member. *)
Definition is_container (T : kind) : bool :=
  match T with
  | k_Object | k_Array => true
  | _ => false
  end.

(** The value of the alternative the variant holds, as [std::get] hands it
    back. *)
Definition held (V : variant) : payload :=
  match V with
  | v_string V => p_string V
  | v_int V => p_int V
  | v_float V => p_float V
  | v_bool V => p_bool V
  | v_nullptr => p_nullptr
  end.

(** What a [Get<T>] that returns refers to: the object member, the array
    member, or the value the variant holds. *)
Definition referred (T : kind) (self : Node) : payload :=
  match T with
  | k_Object => p_Object (Object self)
  | k_Array => p_Array (Array self)
  | _ => held (Variant self)
  end.

(** The kind of a payload handed back by [Get]. *)
Definition kind_of (p : payload) : kind :=
  match p with
  | p_string _ => k_string
  | p_int _ => k_int
  | p_float _ => k_float
  | p_bool _ => k_bool
  | p_nullptr => k_nullptr
  | p_Object _ => k_Object
  | p_Array _ => k_Array
  end.

(** ** Maps *)

(** The keys of a map, in iteration order. *)
Definition keys (m : Object_t) : list string := List.map fst m.

(** Keys strictly increasing from each entry to the next. *)
Definition ordered (m : Object_t) : Prop := Sorted key_lt (keys m).

(** The map after a run of assignments [m[k] = v], in the order given. *)
Definition assign_all (kvs : list (string * Node)) (m : Object_t) : Object_t :=
  fold_left (fun m kv => map_assign (fst kv) (snd kv) m) kvs m.

(** ** The text of the printer, piece by piece *)

(** The text the printer emits for one member of an object printed at
    [Level], the member being number [Count] of [size]. *)
Definition member_text (Level size Count : nat) (N : string * Node) : string :=
  Tabs (S Level) ++
  String QUOT (fst N ++ String QUOT ": ") ++ print (S Level) (snd N) ++
  (if negb (Nat.eqb (S Count) size) then "," else "") ++ endl.

Fixpoint members_text (Level size Count : nat) (l : list (string * Node)) : string :=
  match l with
  | [] => ""
  | N :: l' => member_text Level size Count N ++ members_text Level size (S Count) l'
  end.

(** The text the printer emits for the elements of an array printed at
    [Level], from element number [Counter] of [size]. *)
Fixpoint elements_text (Level size Counter : nat) (l : list Node) : string :=
  match l with
  | [] => ""
  | E :: l' =>
      print Level E ++ (if Nat.eqb (S Counter) size then "" else ", ") ++
      elements_text Level size (S Counter) l'
  end.

(** ** Characters and runs of characters *)

(** A run of spaces. *)
Fixpoint allspace (s : string) : bool :=
  match s with
  | EmptyString => true
  | String c s' => isspace c && allspace s'
  end.

(** A text with no double quote in it. *)
Fixpoint quote_free (s : string) : bool :=
  match s with
  | EmptyString => true
  | String c s' => negb (Ascii.eqb c QUOT) && quote_free s'
  end.

(** A character that starts no production and continues no number. *)
Definition stops (c : ascii) : bool :=
  negb (Ascii.eqb c QUOT || Ascii.eqb c "t" || Ascii.eqb c "f" || Ascii.eqb c "n" ||
        Ascii.eqb c "-" || isdigit c || Ascii.eqb c "{" || Ascii.eqb c "[" ||
        Ascii.eqb c "." || Ascii.eqb c "e" || Ascii.eqb c "E").

(** A cursor on such a character. *)
Definition delim (P : string) : bool := stops (peek P).

(** A character that starts a production. *)
Definition starter (c : ascii) : bool :=
  Ascii.eqb c QUOT || Ascii.eqb c "t" || Ascii.eqb c "f" || Ascii.eqb c "n" ||
  Ascii.eqb c "-" || isdigit c || Ascii.eqb c "{" || Ascii.eqb c "[".

(** ** Numbers *)

(** The value [ParseNumber] assembles before it chooses a kind: [None] when
    the production does not apply, [Some (inl _)] when the number is
    malformed, [Some (inr (Number, Position))] otherwise. *)
Definition assembled (Position : string)
  : outcome (option (string + double * string)) :=
  if Ascii.eqb (peek Position) "-" || is_digit_char (peek Position) then
    let Neg := Ascii.eqb (peek Position) "-" in
    let Position := if Neg then advance Position else Position in
    let* (Whole, Position) := ExtractInt Position in
    let Number := double_of_int Whole in
    if Ascii.eqb (peek Position) "." && negb (is_digit_char (peek (advance Position)))
    then Ret (Some (inl (advance Position)))
    else
      let '(Number, Position) :=
        if Ascii.eqb (peek Position) "."
        then let '(D, Position) := ExtractDec (advance Position) in (dadd Number D, Position)
        else (Number, Position) in
      if Ascii.eqb (peek Position) "e" || Ascii.eqb (peek Position) "E" then
        let Position := advance Position in
        let ExpNeg := Ascii.eqb (peek Position) "-" in
        let Position := if ExpNeg then advance Position else Position in
        if negb (is_digit_char (peek Position)) then Ret (Some (inl Position))
        else
          let* (Exponent, Position) := ExtractInt Position in
          let* Exponent := int_result (Exponent * (if ExpNeg then -1 else 1)) in
          Ret (Some (inr (dmul (dmul Number (pow10 Exponent))
                               (double_of_int (if Neg then -1 else 1)), Position)))
      else Ret (Some (inr (dmul Number (double_of_int (if Neg then -1 else 1)), Position)))
  else Ret None.

(** [round(Number) == Number] *)
Definition integral (Number : double) : bool := deqb (round Number) Number.

(** The number [ParseNumber] assembles from a run of digits alone. *)
Definition plain_number (Neg : bool) (Whole : Z) : double :=
  dmul (double_of_int Whole) (double_of_int (if Neg then -1 else 1)).

(** The value [ExtractInt] accumulates over a run of decimal digits. *)
Fixpoint digits_value (d : Decimal.uint) (N : Z) : Z :=
  match d with
  | Decimal.Nil => N
  | Decimal.D0 d => digits_value d (N * 10 + 0)
  | Decimal.D1 d => digits_value d (N * 10 + 1)
  | Decimal.D2 d => digits_value d (N * 10 + 2)
  | Decimal.D3 d => digits_value d (N * 10 + 3)
  | Decimal.D4 d => digits_value d (N * 10 + 4)
  | Decimal.D5 d => digits_value d (N * 10 + 5)
  | Decimal.D6 d => digits_value d (N * 10 + 6)
  | Decimal.D7 d => digits_value d (N * 10 + 7)
  | Decimal.D8 d => digits_value d (N * 10 + 8)
  | Decimal.D9 d => digits_value d (N * 10 + 9)
  end.

(** An [int] whose negation is an [int] too. *)
Definition small_int (z : Z) : bool := (- INT_MAX <=? z) && (z <=? INT_MAX).

(** ** The body of [Parse], production by production

    [tailN] is what [Parse] does with the result of its production number
    [N]: the test of [Check], and the productions that follow. *)

(** Neither a fault nor the reason for one. *)
Definition calm (Err : Error.t) : Prop := Err = Error.None \/ Err = Error.Undefined.

(** A cell of [Check] that holds no fault. *)
Definition quiet (cell : captured) : Prop :=
  match cell with
  | None => True
  | Some e => e = Error.None \/ e = Error.Undefined
  end.

Definition tail6 (cell : captured) (r : parsed) : outcome parsed :=
  let '(Err, Position, self) := r in
  if Check cell Err then Ret (Err, Position, self) else Ret (Error.None, Position, self).

Definition tail5 (fuel : nat) (cell : captured) (r : parsed) : outcome parsed :=
  let '(Err, Position, self) := r in
  if Check cell Err then Ret (Err, Position, self) else
  let* r' := ParseArray_with (ArrayLoop fuel (nested cell Err)) Position self in
  tail6 cell r'.

Definition tail4 (fuel : nat) (cell : captured) (r : parsed) : outcome parsed :=
  let '(Err, Position, self) := r in
  if Check cell Err then Ret (Err, Position, self) else
  let* r' := ParseObject_with (ObjectLoop fuel (nested cell Err)) Position self in
  tail5 fuel cell r'.

Definition tail3 (fuel : nat) (cell : captured) (r : parsed) : outcome parsed :=
  let '(Err, Position, self) := r in
  if Check cell Err then Ret (Err, Position, self) else
  let* r' := ParseNumber Position self in
  tail4 fuel cell r'.

Definition tail2 (fuel : nat) (cell : captured) (r : parsed) : outcome parsed :=
  let '(Err, Position, self) := r in
  if Check cell Err then Ret (Err, Position, self) else
  let* r' := ParseNull Position self in
  tail3 fuel cell r'.

Definition tail1 (fuel : nat) (cell : captured) (r : parsed) : outcome parsed :=
  let '(Err, Position, self) := r in
  if Check cell Err then Ret (Err, Position, self) else
  let* r' := ParseBool Position self in
  tail2 fuel cell r'.

(** ** Trees that survive printing and parsing *)

Definition printable_scalar (V : variant) : bool :=
  match V with
  | v_string V => quote_free V
  | v_int V => small_int V
  | v_float _ => false
  | v_bool _ | v_nullptr => true
  end.

Fixpoint keys_increasing (l : list string) : bool :=
  match l with
  | a :: l' =>
      match l' with
      | b :: _ => String.ltb a b && keys_increasing l'
      | [] => true
      end
  | [] => true
  end.

Definition is_nil {A : Type} (l : list A) : bool :=
  match l with
  | [] => true
  | _ => false
  end.

Definition is_empty_string (V : variant) : bool :=
  match V with
  | v_string EmptyString => true
  | _ => false
  end.

(** Scalars as above in nodes with no other payload, arrays and objects
    with at least one child, object keys increasing and free of quotes. *)
Fixpoint printable (Val : Node) : bool :=
  let '(mkNode V Arr Obj Ty) := Val in
  match Ty with
  | ValueType.Variant => printable_scalar V && is_nil Arr && is_nil Obj
  | ValueType.Array =>
      is_empty_string V && is_nil Obj && negb (is_nil Arr) && forallb printable Arr
  | ValueType.Object =>
      is_empty_string V && is_nil Arr && negb (is_nil Obj) &&
      keys_increasing (List.map fst Obj) &&
      forallb (fun N => quote_free (fst N) && printable (snd N)) Obj
  end.

(** Fuel that is enough to parse the text of a tree. *)
Fixpoint need (Val : Node) : nat :=
  let '(mkNode V Arr Obj Ty) := Val in
  match Ty with
  | ValueType.Variant => 1
  | ValueType.Array => S (list_sum (List.map (fun E => S (need E)) Arr))
  | ValueType.Object => S (list_sum (List.map (fun N => S (need (snd N))) Obj))
  end.

(** The text of a tree, after any run of spaces and before any text that
    starts on a delimiter, parses into a fresh node as the tree itself. *)
Definition comes_back (Val : Node) : Prop :=
  forall Level fuel cell ws rest,
    quiet cell -> (need Val <= fuel)%nat -> allspace ws = true ->
    delim (at_level_zero Level ++ rest) = true ->
    Parse fuel cell (ws ++ print Level Val ++ rest) Node_default =
    Ret (Error.None, at_level_zero Level ++ rest, Val).

(** ** Key order at every depth *)

(** Every object of the tree, at any depth and under any tag, has its keys
    in increasing order. *)
Fixpoint well_ordered (Val : Node) : bool :=
  let '(mkNode V Arr Obj Ty) := Val in
  keys_increasing (List.map fst Obj) && forallb well_ordered Arr &&
  forallb (fun N => well_ordered (snd N)) Obj.

(** A run that, if it returns, returns a tree in key order. *)
Definition keeps_order (m : outcome parsed) : Prop :=
  forall r, m = Ret r -> well_ordered (snd r) = true.

(** A parsing function that takes trees in key order to trees in key order. *)
Definition loop_keeps (loop : loop_body) : Prop :=
  forall P self, well_ordered self = true -> keeps_order (loop P self).

(** ** Indexing by key, assignments, and filling an array *)

(** The object member after the key indexer has coerced the node. *)
Definition Object_after_index_key (Key : string) (self : Node) : Object_t :=
  fst (map_subscript Key (Object self)).

(** The right-hand sides of the assignment operators. *)
Inductive assigned : Type :=
| a_string (Val : string)
| a_int (Val : Z)
| a_double (Val : double)
| a_bool (Val : bool)
| a_nullptr
| a_array (Arr : Array_t).

(** [self = a] *)
Definition assign (a : assigned) (self : Node) : Node :=
  match a with
  | a_string Val => assign_string Val self
  | a_int Val => assign_int Val self
  | a_double Val => assign_double Val self
  | a_bool Val => assign_bool Val self
  | a_nullptr => assign_nullptr self
  | a_array Arr => assign_array Arr self
  end.

(** What the node holds after the assignment. *)
Definition payload_of (a : assigned) : payload :=
  match a with
  | a_string Val => p_string Val
  | a_int Val => p_int Val
  | a_double Val => p_float (float_of_double Val)
  | a_bool Val => p_bool Val
  | a_nullptr => p_nullptr
  | a_array Arr => p_Array Arr
  end.

(** [self[i] = x] for the elements of [xs] in turn, from index [i] on. *)
Fixpoint fill_from (i : nat) (xs : list Node) (self : Node) : outcome Node :=
  match xs with
  | [] => Ret self
  | x :: xs' =>
      let* self := through_index (Z.of_nat i) (fun _ => x) self in
      fill_from (S i) xs' self
  end.

(** ** Texts the parser stumbles on *)

(** A cursor on which no production applies. *)
Definition no_production (P : string) : bool :=
  negb (Ascii.eqb (peek P) QUOT) &&
  negb (String.prefix "true" P) && negb (String.prefix "false" P) &&
  negb (String.prefix "null" P) &&
  negb (Ascii.eqb (peek P) "-") && negb (is_digit_char (peek P)) &&
  negb (Ascii.eqb (peek P) "{") && negb (Ascii.eqb (peek P) "[").

(** The codes the first activation of [Parse] can return. *)
Definition reported (E : Error.t) : bool :=
  match E with
  | Error.None | Error.InvalidNumber | Error.MissedColon | Error.MissedComma => true
  | _ => false
  end.

(** The codes a loop of a container can return. *)
Definition loop_code (E : Error.t) : bool :=
  match E with
  | Error.None | Error.Undefined | Error.MissedColon | Error.MissedComma => true
  | _ => false
  end.

(** A character on which the loop of [ParseObject] goes round without
    moving the cursor. *)
Definition spins (c : ascii) : bool :=
  negb (Ascii.eqb c NUL) && negb (isspace c) &&
  negb (Ascii.eqb c "}") && negb (Ascii.eqb c QUOT).

(** The text of a run of decimal digits, with or without a sign. *)
Definition signed_digits (Neg : bool) (d : Decimal.uint) : string :=
  (if Neg then "-" else "") ++ NilEmpty.string_of_uint d.

(** The exponent marker, in either case. *)
Definition exponent_marker (upper : bool) : string := if upper then "E" else "e".

(** The node after [push_back] of a default-constructed element. *)
Definition pushed_default (self : Node) : Node :=
  set_Array (Array self ++ [Node_default])%list (set_Type ValueType.Array self).

(** ** The cursor *)

(** [P'] is what remains of the text [P] once some of it has been read. *)
Definition rest_of (P P' : string) : Prop := exists read, P = read ++ P'.

(** A run that, if it returns, leaves the cursor further on in the text. *)
Definition moves_forward (P : string) (m : outcome parsed) : Prop :=
  forall r, m = Ret r -> rest_of P (snd (fst r)).

(** ** Documents, and nodes that are parsed into *)

(** The document after [J[k] = v] for the pairs of [kvs], in the order
    given. *)
Definition JSON_build (kvs : list (string * Node)) (J : JSON) : JSON :=
  fold_left (fun J kv => JSON_through (fst kv) (fun _ => snd kv) J) kvs J.

(** The node after the members [kvs] have been assigned to it by the loop
    of [ParseObject], and after the elements [Es] have been pushed to it by
    the loop of [ParseArray]. *)
Definition with_members (kvs : Object_t) (self : Node) : Node :=
  set_Object (assign_all kvs (Object self)) (set_Type ValueType.Object self).

Definition with_elements (Es : Array_t) (self : Node) : Node :=
  set_Array (Array self ++ Es)%list (set_Type ValueType.Array self).

(** ** Scalars stored by a production, and the payloads a tag selects *)

(** The text of a bool literal. *)
Definition bool_text (b : bool) : string := if b then "true" else "false".

(** The node after the production for a scalar has stored [V]. *)
Definition with_scalar (V : variant) (self : Node) : Node :=
  set_Type ValueType.Variant (set_Variant V self).

(** The tree with the payloads the tags do not select taken out, at every
    depth. *)
Fixpoint active (Val : Node) : Node :=
  let '(mkNode V Arr Obj Ty) := Val in
  match Ty with
  | ValueType.Variant => mkNode V [] [] ValueType.Variant
  | ValueType.Array => mkNode (v_string "") (List.map active Arr) [] ValueType.Array
  | ValueType.Object =>
      mkNode (v_string "") []
             (List.map (fun N => (fst N, active (snd N))) Obj) ValueType.Object
  end.

(** ** Tactics *)

(** Evaluation of a closed run. *)
Ltac run := intros; vm_compute; reflexivity.

(** Case analysis on the eight bits of a character. *)
Ltac by_char c := destruct c as [[] [] [] [] [] [] [] []]; try discriminate; try reflexivity.

(** Comparisons of two literal characters. *)
Ltac char_tests :=
  repeat match goal with
         | |- context [Ascii.eqb (Ascii ?a0 ?a1 ?a2 ?a3 ?a4 ?a5 ?a6 ?a7)
                                 (Ascii ?b0 ?b1 ?b2 ?b3 ?b4 ?b5 ?b6 ?b7)] =>
             let t := constr:(Ascii.eqb (Ascii a0 a1 a2 a3 a4 a5 a6 a7)
                                        (Ascii b0 b1 b2 b3 b4 b5 b6 b7)) in
             let v := eval vm_compute in t in change t with v
         end.

(** * Properties

    The loops of the parser are indexed by fuel; a statement about a text
    is made for every amount of fuel from the amount the run needs. *)

(** ** Indexing by integer *)

(** The integer indexer in closed form. *)
Lemma index_int_eq (Index : Z) (self : Node) :
  index_int Index self =
  if Z.of_nat (List.length (Array self)) <=? to_size_t Index
  then (mkNode (Variant self) (Array self ++ [Node_default])
               (Object_after_index_int self) ValueType.Array,
        if to_size_t Index <? Z.of_nat (List.length (Array self)) + 1
        then Some (Z.to_nat (to_size_t Index)) else None)
  else (mkNode (Variant self) (Array self)
               (Object_after_index_int self) ValueType.Array,
        Some (Z.to_nat (to_size_t Index))).
Proof.
  destruct self as [V A O T]. unfold index_int, Object_after_index_int.
  destruct T; cbn [Type_ ValueType.eqb negb set_Type set_Object set_Array
                   Array Object Variant];
    destruct (Z.of_nat (List.length A) <=? to_size_t Index) eqn:E;
    cbn [Type_ ValueType.eqb negb set_Type set_Object set_Array
         Array Object Variant];
    rewrite ?length_app, ?Nat2Z.inj_add; cbn [List.length Z.of_nat Pos.of_succ_nat];
    try reflexivity;
    apply Z.leb_gt in E; apply Z.ltb_lt in E; rewrite E; reflexivity.
Qed.

Section IndexInt.

Variable self : Node.
Variable Index : Z.
Hypothesis Index_is_int : 0 <= Index <= INT_MAX.

Lemma to_size_t_int : to_size_t Index = Index.
Proof.
  unfold to_size_t, SIZE_MAX, INT_MAX in *. apply Z.mod_small. lia.
Qed.




End IndexInt.




(** ** Stale payloads *)

(** C5 (the code departs from it): a node built from a one-element array
    and then assigned the integer 5 is scalar-tagged, but its array member
    still holds the element.  [Get<Array_t>] returns it, and a later integer
    index finds the old element at position 0; printing the node then shows
    the old array.  In the same way an object payload survives the
    assignment of an array and reappears under a later key index.  In
    general a scalar assignment leaves the array and object members as they
    are, an array assignment leaves the object member as it is, and the
    integer indexer keeps every element the array member held. *)
Theorem C5_stale_payload_survives :
  (forall Val self,
     Array (assign_int Val self) = Array self /\
     Object (assign_int Val self) = Object self) /\
  (forall Arr self, Object (assign_array Arr self) = Object self) /\
  (forall Index self,
     Array (fst (index_int Index self)) = Array self \/
     Array (fst (index_int Index self)) = (Array self ++ [Node_default])%list) /\
  let n0 := Node_array [Node_int 1] in
  let n1 := assign_int 5 n0 in
  let n2 := fst (index_int 0 n1) in
  Type_ n1 = ValueType.Variant /\
  Array n1 = [Node_int 1] /\
  Get k_Array n1 = Some (p_Array [Node_int 1]) /\
  Type_ n2 = ValueType.Array /\
  element_at (snd (index_int 0 n1)) n2 = Ret (Node_int 1) /\
  print 0 n2 = "[1" ++ endl ++ "]" ++ endl /\
  let m0 := through_key "k" (assign_int 1) Node_default in
  let m1 := assign_array [] m0 in
  let m2 := fst (index_key "j" m1) in
  Type_ m1 = ValueType.Array /\
  Object m1 = [("k", Node_int 1)] /\
  member_at "k" m2 = Ret (Node_int 1).
Proof.
  split; [intros Val [V A O T]; split; reflexivity|].
  split; [intros Arr [V A O T]; reflexivity|].
  split; [|repeat split].
  intros Index self. rewrite index_int_eq.
  destruct (_ <=? _); [now right|now left].
Qed.

(** ** The typed accessor *)

(** C9 (as amended): [Get] does not look at the tag.  For a scalar kind it
    returns exactly when the variant member holds that alternative, and
    what it returns is the value the variant member holds; it signals the
    invalid-variant-access fault exactly when the variant member holds
    another alternative, whatever the tag.  For the object and array kinds
    it never faults: it returns the object or array member itself, whatever
    the tag.  Whatever [Get] returns is the member it refers to, of the
    kind asked for; and whenever [Is] answers yes for a kind, [Get] returns
    that member. *)
Theorem C9_get_ignores_tag (T : kind) (self : Node) :
  (is_container T = false ->
   (holds_alternative T (Variant self) = true <->
    exists p, Get T self = Some p /\ kind_of p = T) /\
   (holds_alternative T (Variant self) = true ->
    Get T self = Some (held (Variant self))) /\
   (holds_alternative T (Variant self) = false <-> Get T self = None)) /\
  (forall p, Get T self = Some p -> p = referred T self /\ kind_of p = T) /\
  Get k_Object self = Some (p_Object (Object self)) /\
  Get k_Array self = Some (p_Array (Array self)) /\
  (Is T self = true ->
   Get T self = Some (referred T self) /\ kind_of (referred T self) = T).
Proof.
  destruct self as [V A O Ty].
  split; [|split; [|split; [reflexivity|split; [reflexivity|]]]].
  - intros HT. split; [split|split; [|split]].
    + destruct T, V; simpl; try discriminate; intros _; eexists; split; reflexivity.
    + intros (p & Hp & _). destruct T, V; simpl in *; try discriminate; reflexivity.
    + destruct T, V; simpl in *; try discriminate; reflexivity.
    + destruct T, V; simpl in *; try discriminate; reflexivity.
    + destruct T, V; simpl in *; try discriminate; reflexivity.
  - intros p. destruct T, V; simpl; try discriminate; intros [= <-]; split; reflexivity.
  - destruct T, V, Ty; simpl; try discriminate; intros _; split; reflexivity.
Qed.

(** C9, witness: an integer node read as an integer, which gives the
    integer it holds, and as a string. *)
Lemma C9_get_ignores_tag_witness :
  Get k_int (Node_int 5) = Some (p_int 5) /\
  Get k_string (Node_int 5) = None.
Proof.
  split.
  - apply (proj1 (proj2 (proj1 (C9_get_ignores_tag k_int (Node_int 5)) eq_refl)) eq_refl).
  - apply (proj1 (proj2 (proj2 (proj1 (C9_get_ignores_tag k_string (Node_int 5)) eq_refl)))
             eq_refl).
Defined.

(** C9 (as stated) fails: on an integer node the tag does not match the
    array kind, and [Get<Array_t>] returns without a fault; on an array node
    the tag does not match the string kind, and [Get<std::string>] returns
    the empty string of the variant member. *)
Lemma C9_counterexample :
  Is k_Array (Node_int 5) = false /\
  Get k_Array (Node_int 5) = Some (p_Array []) /\
  Is k_string (Node_array [Node_int 1]) = false /\
  Get k_string (Node_array [Node_int 1]) = Some (p_string "").
Proof. repeat split. Qed.

(** ** Key order of objects *)

Module KeyOrder.

Lemma ascii_compare_refl (a : ascii) : Ascii.compare a a = Eq.
Proof. unfold Ascii.compare. apply N.compare_refl. Qed.

Lemma ascii_lt_trans (a b c : ascii) :
  Ascii.compare a b = Lt -> Ascii.compare b c = Lt -> Ascii.compare a c = Lt.
Proof.
  unfold Ascii.compare. rewrite !N.compare_lt_iff. lia.
Qed.

Lemma lt_trans (a b c : string) : key_lt a b -> key_lt b c -> key_lt a c.
Proof.
  unfold key_lt. revert b c.
  induction a as [|x a IH]; intros [|y b] [|z c]; simpl; try discriminate; auto.
  destruct (Ascii.compare x y) eqn:Exy; try discriminate.
  - apply Ascii.compare_eq_iff in Exy. subst y.
    destruct (Ascii.compare x z); auto. apply IH.
  - intros _.
    destruct (Ascii.compare y z) eqn:Eyz; try discriminate.
    + apply Ascii.compare_eq_iff in Eyz. subst z. now rewrite Exy.
    + now rewrite (ascii_lt_trans _ _ _ Exy Eyz).
Qed.

Lemma lt_irrefl (a : string) : ~ key_lt a a.
Proof.
  unfold key_lt. induction a as [|x a IH]; simpl; [discriminate|].
  now rewrite ascii_compare_refl.
Qed.

Lemma gt_lt (a b : string) : String.compare a b = Gt -> key_lt b a.
Proof.
  unfold key_lt. intros H. rewrite String.compare_antisym, H. reflexivity.
Qed.

Lemma HdRel_assign (k Key : string) (V : Node) (m : Object_t) :
  key_lt k Key -> HdRel key_lt k (keys m) -> HdRel key_lt k (keys (map_assign Key V m)).
Proof.
  intros Hk Hm. destruct m as [|[k' v'] m']; simpl.
  - now constructor.
  - destruct (String.compare Key k'); simpl; constructor; auto.
    all: now inversion Hm.
Qed.

Lemma assign_ordered (Key : string) (V : Node) (m : Object_t) :
  ordered m -> ordered (map_assign Key V m).
Proof.
  unfold ordered. induction m as [|[k v] m IH]; simpl; intros Hm.
  - repeat constructor.
  - inversion Hm as [|? ? Hs Hh]; subst.
    destruct (String.compare Key k) eqn:E; simpl.
    + now constructor.
    + constructor; [assumption|]. now constructor.
    + constructor; [now apply IH|].
      apply HdRel_assign; [now apply gt_lt|assumption].
Qed.

Lemma assign_keys (Key : string) (V : Node) (m : Object_t) (k : string) :
  In k (keys (map_assign Key V m)) <-> k = Key \/ In k (keys m).
Proof.
  induction m as [|[k' v'] m IH]; simpl.
  - intuition.
  - destruct (String.compare Key k') eqn:E; simpl.
    + apply String.compare_eq_iff in E. subst k'. intuition.
    + intuition.
    + rewrite IH. intuition.
Qed.

Lemma assign_all_ordered (kvs : list (string * Node)) (m : Object_t) :
  ordered m -> ordered (assign_all kvs m).
Proof.
  revert m. induction kvs as [|[k v] kvs IH]; simpl; intros m Hm; [assumption|].
  apply IH. now apply assign_ordered.
Qed.

Lemma assign_all_keys (kvs : list (string * Node)) (m : Object_t) (k : string) :
  In k (keys (assign_all kvs m)) <-> In k (List.map fst kvs) \/ In k (keys m).
Proof.
  revert m. induction kvs as [|[k' v'] kvs IH]; simpl; intros m.
  - intuition.
  - rewrite IH, assign_keys. simpl. intuition.
Qed.

Lemma ordered_strongly (m : Object_t) : ordered m -> StronglySorted key_lt (keys m).
Proof.
  apply Sorted_StronglySorted. exact lt_trans.
Qed.

End KeyOrder.

(** ** The text of an object *)

Lemma append_assoc (a b c : string) : (a ++ b) ++ c = a ++ (b ++ c).
Proof. induction a as [|x a IH]; simpl; [reflexivity|now rewrite IH]. Qed.

Lemma append_nil_r (a : string) : a ++ "" = a.
Proof. induction a as [|x a IH]; simpl; [reflexivity|now rewrite IH]. Qed.

Lemma print_Object (Level : nat) (V : variant) (Arr : Array_t) (Obj : Object_t) :
  print Level (mkNode V Arr Obj ValueType.Object) =
  (if negb (Nat.eqb Level 0) then endl else "") ++
  Tabs Level ++ "{" ++ endl ++
  members_text Level (List.length Obj) 0 Obj ++
  Tabs Level ++ "}" ++ at_level_zero Level.
Proof.
  cbn [print]. rewrite !append_assoc. do 4 f_equal.
  generalize (List.length Obj) as size. generalize 0%nat as Count.
  induction Obj as [|N l IH]; intros Count size; [reflexivity|].
  cbn [members_text]. unfold member_text. rewrite !append_assoc.
  rewrite <- IH. reflexivity.
Qed.

(** ** Facts about the parser *)

(** *** Whitespace *)

Lemma SkipSpace_app (ws s : string) :
  allspace ws = true -> SkipSpace (ws ++ s) = SkipSpace s.
Proof.
  induction ws as [|c ws IH]; simpl; [reflexivity|].
  intros H. apply andb_prop in H as [Hc Hw]. rewrite Hc. now apply IH.
Qed.

Lemma SkipSpace_stay (P : string) : isspace (peek P) = false -> SkipSpace P = P.
Proof.
  destruct P as [|c P]; simpl; [reflexivity|]. now intros ->.
Qed.

Lemma SkipSpace_peek (P : string) : isspace (peek (SkipSpace P)) = false.
Proof.
  induction P as [|c P IH]; simpl; [reflexivity|].
  destruct (isspace c) eqn:E; [assumption|]. simpl. assumption.
Qed.

Lemma SkipSpace_idem (P : string) : SkipSpace (SkipSpace P) = SkipSpace P.
Proof. apply SkipSpace_stay, SkipSpace_peek. Qed.

Lemma allspace_app (a b : string) :
  allspace a = true -> allspace b = true -> allspace (a ++ b) = true.
Proof.
  induction a as [|c a IH]; simpl; [auto|].
  intros H Hb. apply andb_prop in H as [Hc Ha]. rewrite Hc. now apply IH.
Qed.

Lemma allspace_Tabs (Level : nat) : allspace (Tabs Level) = true.
Proof. induction Level as [|n IH]; simpl; [reflexivity|assumption]. Qed.

(** *** Characters that start no production and continue no number *)

Lemma stops_facts (c : ascii) :
  stops c = true ->
  Ascii.eqb c QUOT = false /\ Ascii.eqb c "t" = false /\ Ascii.eqb c "f" = false /\
  Ascii.eqb c "n" = false /\ Ascii.eqb c "-" = false /\ isdigit c = false /\
  is_digit_char c = false /\
  Ascii.eqb c "{" = false /\ Ascii.eqb c "[" = false /\ Ascii.eqb c "." = false /\
  Ascii.eqb c "e" = false /\ Ascii.eqb c "E" = false.
Proof. by_char c; intros _; repeat split. Qed.

Lemma digit_facts (c : ascii) :
  isdigit c = true ->
  Ascii.eqb c QUOT = false /\ Ascii.eqb c "t" = false /\ Ascii.eqb c "f" = false /\
  Ascii.eqb c "n" = false /\ Ascii.eqb c "-" = false /\ is_digit_char c = true /\
  isspace c = false.
Proof. by_char c; intros _; repeat split. Qed.

(** *** Productions that do not apply *)

Lemma ParseString_skip (P : string) (self : Node) :
  Ascii.eqb (peek P) QUOT = false -> ParseString P self = Ret (Error.Undefined, P, self).
Proof. unfold ParseString. now intros ->. Qed.

Lemma prefix_head (c : ascii) (lit P : string) :
  Ascii.eqb (peek P) c = false -> String.prefix (String c lit) P = false.
Proof.
  destruct P as [|x P]; simpl; [reflexivity|].
  intros H. destruct (ascii_dec c x) as [->|Hn]; [|reflexivity].
  now rewrite Ascii.eqb_refl in H.
Qed.

Lemma ParseBool_skip (P : string) (self : Node) :
  Ascii.eqb (peek P) "t" = false -> Ascii.eqb (peek P) "f" = false ->
  ParseBool P self = Ret (Error.Undefined, P, self).
Proof.
  intros Ht Hf. unfold ParseBool.
  change "true" with (String "t" "rue"). change "false" with (String "f" "alse").
  now rewrite !prefix_head.
Qed.

Lemma ParseNull_skip (P : string) (self : Node) :
  Ascii.eqb (peek P) "n" = false -> ParseNull P self = Ret (Error.Undefined, P, self).
Proof.
  intros Hn. unfold ParseNull. change "null" with (String "n" "ull").
  now rewrite prefix_head.
Qed.

Lemma ParseNumber_skip (P : string) (self : Node) :
  Ascii.eqb (peek P) "-" = false -> is_digit_char (peek P) = false ->
  ParseNumber P self = Ret (Error.Undefined, P, self).
Proof. unfold ParseNumber. now intros -> ->. Qed.

Lemma ParseObject_skip (loop : loop_body) (P : string) (self : Node) :
  Ascii.eqb (peek P) "{" = false ->
  ParseObject_with loop P self = Ret (Error.Undefined, P, self).
Proof. unfold ParseObject_with. now intros ->. Qed.

Lemma ParseArray_skip (loop : loop_body) (P : string) (self : Node) :
  Ascii.eqb (peek P) "[" = false ->
  ParseArray_with loop P self = Ret (Error.Undefined, P, self).
Proof. unfold ParseArray_with. now intros ->. Qed.

(** *** The cell of [Check] in a run without faults *)

Lemma calm_None : calm Error.None.
Proof. now left. Qed.

Lemma calm_Undefined : calm Error.Undefined.
Proof. now right. Qed.

#[local] Hint Resolve calm_None calm_Undefined : core.

Lemma Check_quiet (cell : captured) (Err : Error.t) :
  quiet cell -> calm Err -> Check cell Err = false.
Proof.
  destruct cell as [e|]; simpl; unfold Check.
  - intros [->| ->] _; reflexivity.
  - intros _ [->| ->]; reflexivity.
Qed.

Lemma nested_quiet (cell : captured) (Err : Error.t) :
  quiet cell -> calm Err -> quiet (nested cell Err).
Proof.
  destruct cell as [e|]; simpl; auto.
Qed.

(** One unfolding of [Parse], and of the two loops. *)
Lemma Parse_S (fuel : nat) (cell : captured) (Position : string) (self : Node) :
  Parse (S fuel) cell Position self =
      let Position := SkipSpace Position in
      let* (Err, Position, self) := ParseString Position self in
      if Check cell Err then Ret (Err, Position, self) else
      let* (Err, Position, self) := ParseBool Position self in
      if Check cell Err then Ret (Err, Position, self) else
      let* (Err, Position, self) := ParseNull Position self in
      if Check cell Err then Ret (Err, Position, self) else
      let* (Err, Position, self) := ParseNumber Position self in
      if Check cell Err then Ret (Err, Position, self) else
      let* (Err, Position, self) :=
        ParseObject_with (ObjectLoop fuel (nested cell Err)) Position self in
      if Check cell Err then Ret (Err, Position, self) else
      let* (Err, Position, self) :=
        ParseArray_with (ArrayLoop fuel (nested cell Err)) Position self in
      if Check cell Err then Ret (Err, Position, self) else
      Ret (Error.None, Position, self).
Proof. reflexivity. Qed.

Lemma ObjectLoop_S (fuel : nat) (cell : captured) (Position : string) (self : Node) :
  ObjectLoop (S fuel) cell Position self =
      if Ascii.eqb (peek Position) NUL then Ret (Error.Undefined, Position, self)
      else
        let Position := SkipSpace Position in
        if Ascii.eqb (peek Position) "}"
        then Ret (Error.None, Position, set_Type ValueType.Object self)
        else if Ascii.eqb (peek Position) QUOT then
          let Position := advance Position in
          let* (Name, Position) := ExtractString Position in
          if negb (Ascii.eqb (peek Position) QUOT)
          then Ret (Error.MissedQuot, Position, set_Object [] self) else
          let Position := SkipSpace (advance Position) in
          if negb (Ascii.eqb (peek Position) ":")
          then Ret (Error.MissedColon, Position, set_Object [] self) else
          let Position := SkipSpace (advance Position) in
          let* (Err, Position, New) := Parse fuel cell Position Node_default in
          if negb (Error.eqb Err Error.None)
          then Ret (Err, Position, set_Object [] self) else
          let self := set_Type ValueType.Object self in
          let self := set_Object (map_assign Name New (Object self)) self in
          let Position := SkipSpace Position in
          if Ascii.eqb (peek Position) "}"
          then Ret (Error.None, advance Position, self) else
          if negb (Ascii.eqb (peek Position) ",")
          then Ret (Error.MissedComma, Position, set_Object [] self) else
          ObjectLoop fuel cell (advance Position) self
        else ObjectLoop fuel cell Position self.
Proof. reflexivity. Qed.

Lemma ArrayLoop_S (fuel : nat) (cell : captured) (Position : string) (self : Node) :
  ArrayLoop (S fuel) cell Position self =
      if Ascii.eqb (peek Position) NUL then Ret (Error.Undefined, Position, self)
      else
        let Position := SkipSpace Position in
        if (Nat.eqb (List.length (Array self)) 0 && Ascii.eqb (peek Position) "]")%bool
        then Ret (Error.None, Position, self)
        else
          let* (Err, Position, New) := Parse fuel cell Position Node_default in
          if negb (Error.eqb Err Error.None)
          then Ret (Err, Position, set_Array [] self) else
          let self := set_Type ValueType.Array self in
          let self := set_Array (Array self ++ [New])%list self in
          let Position := SkipSpace Position in
          if Ascii.eqb (peek Position) "]"
          then Ret (Error.None, advance Position, self) else
          if negb (Ascii.eqb (peek Position) ",")
          then Ret (Error.MissedComma, Position, set_Array [] self) else
          ArrayLoop fuel cell (advance Position) self.
Proof. reflexivity. Qed.

(** [Parse] starts by skipping spaces, so spaces skipped beforehand change
    nothing. *)
Lemma Parse_SkipSpace (fuel : nat) (cell : captured) (P : string) (self : Node) :
  Parse fuel cell (SkipSpace P) self = Parse fuel cell P self.
Proof.
  destruct fuel as [|fuel]; [reflexivity|].
  rewrite !Parse_S. cbv zeta. now rewrite SkipSpace_idem.
Qed.

(** An activation that passes [Check] holds no fault in its [Err]. *)
Lemma Check_own (Err : Error.t) : Check None Err = false -> calm Err.
Proof. destruct Err; try discriminate; intros _; [now left|now right]. Qed.

Lemma Check_nested (e Err : Error.t) : calm e -> Check (Some e) Err = false.
Proof. intros [->| ->]; reflexivity. Qed.

(** *** The body of [Parse], production by production *)

(** [Parse] is its string production followed by [tail1]. *)
Lemma Parse_tail (fuel : nat) (cell : captured) (Position : string) (self : Node) :
  Parse (S fuel) cell Position self =
  let* r := ParseString (SkipSpace Position) self in tail1 fuel cell r.
Proof.
  rewrite Parse_S. cbv zeta.
  destruct (ParseString _ _) as [[[e p] s]| |]; [|reflexivity|reflexivity].
  cbn [bind]. unfold tail1. destruct (Check cell e); [reflexivity|].
  destruct (ParseBool _ _) as [[[e1 p1] s1]| |]; [|reflexivity|reflexivity].
  cbn [bind]. unfold tail2. destruct (Check cell e1); [reflexivity|].
  destruct (ParseNull _ _) as [[[e2 p2] s2]| |]; [|reflexivity|reflexivity].
  cbn [bind]. unfold tail3. destruct (Check cell e2); [reflexivity|].
  destruct (ParseNumber _ _) as [[[e3 p3] s3]| |]; [|reflexivity|reflexivity].
  cbn [bind]. unfold tail4. destruct (Check cell e3); [reflexivity|].
  destruct (ParseObject_with _ _ _) as [[[e4 p4] s4]| |]; [|reflexivity|reflexivity].
  cbn [bind]. unfold tail5. destruct (Check cell e4); [reflexivity|].
  destruct (ParseArray_with _ _ _) as [[[e5 p5] s5]| |]; reflexivity.
Qed.

Section Tails.

Variable fuel : nat.
Variable cell : captured.
Hypothesis cell_quiet : quiet cell.

Lemma tail6_calm (Err : Error.t) (P : string) (self : Node) :
  calm Err -> tail6 cell (Err, P, self) = Ret (Error.None, P, self).
Proof. intros H. unfold tail6. now rewrite Check_quiet. Qed.

Lemma tail5_skip (Err : Error.t) (P : string) (self : Node) :
  calm Err -> Ascii.eqb (peek P) "[" = false ->
  tail5 fuel cell (Err, P, self) = Ret (Error.None, P, self).
Proof.
  intros H Hp. unfold tail5. rewrite Check_quiet, ParseArray_skip by assumption.
  cbn [bind]. apply tail6_calm. now right.
Qed.

Lemma tail4_skip (Err : Error.t) (P : string) (self : Node) :
  calm Err -> Ascii.eqb (peek P) "{" = false ->
  tail4 fuel cell (Err, P, self) = tail5 fuel cell (Error.Undefined, P, self).
Proof.
  intros H Hp. unfold tail4. now rewrite Check_quiet, ParseObject_skip by assumption.
Qed.

Lemma tail3_skip (Err : Error.t) (P : string) (self : Node) :
  calm Err -> Ascii.eqb (peek P) "-" = false -> is_digit_char (peek P) = false ->
  tail3 fuel cell (Err, P, self) = tail4 fuel cell (Error.Undefined, P, self).
Proof.
  intros H Hp Hd. unfold tail3. now rewrite Check_quiet, ParseNumber_skip by assumption.
Qed.

Lemma tail2_skip (Err : Error.t) (P : string) (self : Node) :
  calm Err -> Ascii.eqb (peek P) "n" = false ->
  tail2 fuel cell (Err, P, self) = tail3 fuel cell (Error.Undefined, P, self).
Proof.
  intros H Hp. unfold tail2. now rewrite Check_quiet, ParseNull_skip by assumption.
Qed.

Lemma tail1_skip (Err : Error.t) (P : string) (self : Node) :
  calm Err -> Ascii.eqb (peek P) "t" = false -> Ascii.eqb (peek P) "f" = false ->
  tail1 fuel cell (Err, P, self) = tail2 fuel cell (Error.Undefined, P, self).
Proof.
  intros H Ht Hf. unfold tail1. now rewrite Check_quiet, ParseBool_skip by assumption.
Qed.

(** From a cursor on a character that starts nothing, every remaining
    production is passed over. *)
Lemma tail5_delim (Err : Error.t) (P : string) (self : Node) :
  calm Err -> delim P = true -> tail5 fuel cell (Err, P, self) = Ret (Error.None, P, self).
Proof.
  intros H Hd. apply tail5_skip; [assumption|]. apply (stops_facts _ Hd).
Qed.

Lemma tail4_delim (Err : Error.t) (P : string) (self : Node) :
  calm Err -> delim P = true -> tail4 fuel cell (Err, P, self) = Ret (Error.None, P, self).
Proof.
  intros H Hd. rewrite tail4_skip; [|assumption|apply (stops_facts _ Hd)].
  apply tail5_delim; [now right|assumption].
Qed.

Lemma tail3_delim (Err : Error.t) (P : string) (self : Node) :
  calm Err -> delim P = true -> tail3 fuel cell (Err, P, self) = Ret (Error.None, P, self).
Proof.
  intros H Hd. rewrite tail3_skip; [|assumption|apply (stops_facts _ Hd)..].
  apply tail4_delim; [now right|assumption].
Qed.

Lemma tail2_delim (Err : Error.t) (P : string) (self : Node) :
  calm Err -> delim P = true -> tail2 fuel cell (Err, P, self) = Ret (Error.None, P, self).
Proof.
  intros H Hd. rewrite tail2_skip; [|assumption|apply (stops_facts _ Hd)].
  apply tail3_delim; [now right|assumption].
Qed.

Lemma tail1_delim (Err : Error.t) (P : string) (self : Node) :
  calm Err -> delim P = true -> tail1 fuel cell (Err, P, self) = Ret (Error.None, P, self).
Proof.
  intros H Hd. rewrite tail1_skip; [|assumption|apply (stops_facts _ Hd)..].
  apply tail2_delim; [now right|assumption].
Qed.

End Tails.

(** An activation nested in the first one returns the no-fault code
    whatever its productions return. *)
Lemma nested_Parse_no_fault (fuel : nat) (e : Error.t) (Position : string) (self : Node)
      (r : parsed) :
  calm e -> Parse fuel (Some e) Position self = Ret r -> fst (fst r) = Error.None.
Proof.
  intros He. destruct fuel as [|fuel]; [discriminate|].
  rewrite Parse_tail.
  destruct (ParseString _ _) as [[[e1 p1] s1]| |]; try discriminate.
  cbn [bind]. unfold tail1. rewrite Check_nested by assumption.
  destruct (ParseBool _ _) as [[[e2 p2] s2]| |]; try discriminate.
  cbn [bind]. unfold tail2. rewrite Check_nested by assumption.
  destruct (ParseNull _ _) as [[[e3 p3] s3]| |]; try discriminate.
  cbn [bind]. unfold tail3. rewrite Check_nested by assumption.
  destruct (ParseNumber _ _) as [[[e4 p4] s4]| |]; try discriminate.
  cbn [bind]. unfold tail4. rewrite Check_nested by assumption.
  destruct (ParseObject_with _ _ _) as [[[e5 p5] s5]| |]; try discriminate.
  cbn [bind]. unfold tail5. rewrite Check_nested by assumption.
  destruct (ParseArray_with _ _ _) as [[[e6 p6] s6]| |]; try discriminate.
  cbn [bind]. unfold tail6. rewrite Check_nested by assumption.
  now intros [= <-].
Qed.

(** *** Strings *)

Lemma ExtractString_quote_free (s rest : string) :
  quote_free s = true ->
  ExtractString (s ++ String QUOT rest) = Ret (s, String QUOT rest).
Proof.
  induction s as [|c s IH]; simpl; [reflexivity|].
  intros H. apply andb_prop in H as [Hc Hs].
  apply negb_true_iff in Hc. rewrite Hc, IH by assumption. reflexivity.
Qed.

Lemma quoted_app (s rest : string) :
  quoted s ++ rest = String QUOT (s ++ String QUOT rest).
Proof. unfold quoted. simpl. now rewrite append_assoc. Qed.

Lemma ParseString_quoted (s rest : string) (self : Node) :
  quote_free s = true ->
  ParseString (quoted s ++ rest) self =
  Ret (Error.None, rest, set_Type ValueType.Variant (set_Variant (v_string s) self)).
Proof.
  intros H. rewrite quoted_app. unfold ParseString. cbn [peek advance].
  rewrite Ascii.eqb_refl, ExtractString_quote_free by assumption.
  cbn [bind peek advance]. now rewrite Ascii.eqb_refl.
Qed.

(** *** Literals *)

Lemma ParseBool_literal (b : bool) (rest : string) (self : Node) :
  ParseBool ((if b then "true" else "false") ++ rest) self =
  Ret (Error.None, rest, set_Type ValueType.Variant (set_Variant (v_bool b) self)).
Proof. destruct b, rest; reflexivity. Qed.

Lemma ParseNull_literal (rest : string) (self : Node) :
  ParseNull ("null" ++ rest) self =
  Ret (Error.None, rest, set_Type ValueType.Variant (set_Variant v_nullptr self)).
Proof. destruct rest; reflexivity. Qed.

(** *** Numbers *)

(** [ParseNumber] is [assembled] followed by the choice of a kind. *)
Lemma ParseNumber_assembled (Position : string) (self : Node) :
  ParseNumber Position self =
  let* a := assembled Position in
  match a with
  | None => Ret (Error.Undefined, Position, self)
  | Some (inl Position') => Ret (Error.InvalidNumber, Position', self)
  | Some (inr (Number, Position')) =>
      if integral Number then
        let* Cast := int_of_double Number in
        Ret (Error.None, Position',
             set_Variant (v_int Cast) (set_Type ValueType.Variant self))
      else
        Ret (Error.None, Position',
             set_Variant (v_float (float_of_double Number))
                         (set_Type ValueType.Variant self))
  end.
Proof.
  unfold ParseNumber, assembled, integral.
  destruct (Ascii.eqb (peek Position) "-" || is_digit_char (peek Position)); [|reflexivity].
  destruct (ExtractInt _) as [[Whole P1]| |]; simpl; try reflexivity.
  destruct (Ascii.eqb (peek P1) "."); simpl.
  - destruct (is_digit_char (peek (advance P1))); simpl; [|reflexivity].
    destruct (ExtractDec (advance P1)) as [D P2].
    destruct (Ascii.eqb (peek P2) "e" || Ascii.eqb (peek P2) "E"); simpl; [|reflexivity].
    destruct (is_digit_char _); simpl; [|reflexivity].
    destruct (ExtractInt _) as [[Ex P3]| |]; simpl; try reflexivity.
    destruct (int_result _); reflexivity.
  - destruct (Ascii.eqb (peek P1) "e" || Ascii.eqb (peek P1) "E"); simpl; [|reflexivity].
    destruct (is_digit_char _); simpl; [|reflexivity].
    destruct (ExtractInt _) as [[Ex P3]| |]; simpl; try reflexivity.
    destruct (int_result _); reflexivity.
Qed.

(** *** Integers in binary64 *)

(** Shifting a mantissa left adds to its number of bits and multiplies its
    value by a power of two. *)
Lemma digits2_iter (p k : positive) :
  digits2_pos (Pos.iter xO p k) = (digits2_pos p + k)%positive.
Proof.
  induction k using Pos.peano_ind.
  - simpl. lia.
  - rewrite Pos.iter_succ. simpl. rewrite IHk. lia.
Qed.

Lemma Zpos_iter (p k : positive) :
  Z.pos (Pos.iter xO p k) = Z.pos p * 2 ^ Z.pos k.
Proof.
  induction k using Pos.peano_ind.
  - simpl. lia.
  - rewrite Pos.iter_succ, Pos2Z.inj_xO, IHk, Pos2Z.inj_succ, Z.pow_succ_r by lia. lia.
Qed.

Lemma digits2_bound (p : positive) : 2 ^ (Z.pos (digits2_pos p) - 1) <= Z.pos p < 2 ^ Z.pos (digits2_pos p).
Proof.
  induction p; simpl digits2_pos.
  - rewrite Pos2Z.inj_succ. replace (Z.succ (Z.pos (digits2_pos p)) - 1) with (Z.succ (Z.pos (digits2_pos p) - 1)) by lia.
    rewrite !Z.pow_succ_r by lia. lia.
  - rewrite Pos2Z.inj_succ. replace (Z.succ (Z.pos (digits2_pos p)) - 1) with (Z.succ (Z.pos (digits2_pos p) - 1)) by lia.
    rewrite !Z.pow_succ_r by lia. lia.
  - simpl. lia.
Qed.

(** The conversion of an integer of fewer than 53 bits is exact. *)
Lemma double_of_pos (s : bool) (p : positive) :
  (Z.pos (digits2_pos p) < 53) ->
  binary_round dprec demax s p 0 =
  S754_finite s (Pos.iter xO p (Z.to_pos (53 - Z.pos (digits2_pos p)))) (Z.pos (digits2_pos p) - 53).
Proof.
  intros Hd. unfold binary_round.
  set (d := Z.pos (digits2_pos p)) in *.
  assert (Hf : fexp dprec demax (d + 0) = d - 53).
  { unfold fexp, emin, dprec, demax. lia. }
  rewrite Hf. unfold shl_align.
  destruct (d - 53 - 0) eqn:E; try lia.
  assert (Hp0 : p0 = Z.to_pos (53 - d)) by lia. subst p0.
  unfold binary_round_aux, shr_fexp. cbn [Zdigits2].
  rewrite digits2_iter.
  fold d.
  assert (Hf2 : fexp dprec demax (Z.pos (digits2_pos p + Z.to_pos (53 - d)) + (d - 53)) = d - 53).
  { unfold fexp, emin, dprec, demax. rewrite Pos2Z.inj_add. fold d. rewrite Z2Pos.id by lia. lia. }
  rewrite Hf2, Z.sub_diag. cbn [shr shr_record_of_loc loc_of_shr_record shr_m round_nearest_even Zdigits2].
  rewrite digits2_iter. fold d. rewrite Hf2, Z.sub_diag. cbn [shr shr_m].
  replace (d - 53 <=? demax - dprec) with true; [reflexivity|].
  symmetry. apply Z.leb_le. unfold demax, dprec. lia.
Qed.

(** Multiplying by plus or minus one: the product of the mantissas is
    shifted back by the 52 bits the mantissa of one adds. *)
Lemma shr_52 (M : positive) :
  iter_pos shr_1 52 (Build_shr_record (Z.pos (Pos.iter xO M 52)) false false) =
  Build_shr_record (Z.pos M) false false.
Proof. reflexivity. Qed.

Lemma dmul_unit (s b : bool) (M : positive) (E : Z) :
  Z.pos (digits2_pos M) = 53 -> -1022 <= E <= 971 ->
  dmul (S754_finite s M E) (double_of_int (if b then -1 else 1)) =
  S754_finite (xorb s b) M E.
Proof.
  intros HM HE.
  assert (Hone : double_of_int (if b then -1 else 1) = S754_finite b 4503599627370496 (-52))
    by (destruct b; reflexivity).
  rewrite Hone. unfold dmul, SFmul.
  assert (Hm : (M * 4503599627370496)%positive = Pos.iter xO M 52)
    by (rewrite Pos.mul_comm; reflexivity).
  rewrite Hm. unfold binary_round_aux, shr_fexp. cbn [Zdigits2].
  rewrite digits2_iter, Pos2Z.inj_add, HM.
  assert (Hf : fexp dprec demax (53 + 52 + (E + -52)) - (E + -52) = 52).
  { unfold fexp, emin, dprec, demax. lia. }
  rewrite Hf. cbn [shr shr_record_of_loc].
  rewrite shr_52. cbn [loc_of_shr_record shr_m round_nearest_even Zdigits2].
  rewrite HM.
  assert (Hf2 : fexp dprec demax (53 + (E + -52 + 52)) - (E + -52 + 52) = 0).
  { unfold fexp, emin, dprec, demax. lia. }
  rewrite Hf2. cbn [shr shr_m].
  replace (E + -52 + 52) with E by lia.
  replace (E <=? demax - dprec) with true; [reflexivity|].
  symmetry. apply Z.leb_le. unfold demax, dprec. lia.
Qed.

Lemma int_result_in (z : Z) : INT_MIN <= z <= INT_MAX -> int_result z = Ret z.
Proof.
  intros [H0 H1]. unfold int_result, in_int.
  apply Z.leb_le in H0. apply Z.leb_le in H1. now rewrite H0, H1.
Qed.

Lemma deqb_refl_finite (s : bool) (m : positive) (e : Z) :
  deqb (S754_finite s m e) (S754_finite s m e) = true.
Proof.
  unfold deqb, SFeqb, SFcompare. rewrite Z.compare_refl, Pos.compare_cont_refl.
  destruct s; reflexivity.
Qed.

Lemma digits2_int (p : positive) : Z.pos p <= INT_MAX -> Z.pos (digits2_pos p) <= 31.
Proof.
  intros H. pose proof (digits2_bound p) as [Hl _].
  destruct (Z_le_gt_dec (Z.pos (digits2_pos p)) 31) as [|Hgt]; [assumption|exfalso].
  assert (2 ^ 31 <= 2 ^ (Z.pos (digits2_pos p) - 1)) by (apply Z.pow_le_mono_r; lia).
  unfold INT_MAX in H. change (2 ^ 31) with 2147483648 in *. lia.
Qed.

Lemma plain_number_pos (Neg : bool) (p : positive) :
  Z.pos p <= INT_MAX ->
  plain_number Neg (Z.pos p) =
  S754_finite Neg (Pos.iter xO p (Z.to_pos (53 - Z.pos (digits2_pos p))))
              (Z.pos (digits2_pos p) - 53).
Proof.
  intros H. pose proof (digits2_int p H) as Hd.
  unfold plain_number, double_of_int at 1. cbn [binary_normalize].
  rewrite double_of_pos by lia.
  rewrite dmul_unit; [reflexivity| |lia].
  rewrite digits2_iter, Pos2Z.inj_add, Z2Pos.id by lia. lia.
Qed.

(** A run of digits worth an [int] assembles to an integral [double] that
    converts back to that [int], negated under a minus sign. *)
Lemma plain_number_integral (Neg : bool) (Whole : Z) :
  0 <= Whole <= INT_MAX ->
  integral (plain_number Neg Whole) = true /\
  int_of_double (plain_number Neg Whole) = Ret (if Neg then - Whole else Whole).
Proof.
  intros [H0 H1]. destruct Whole as [|p|p]; [|clear H0|lia].
  - destruct Neg; split; reflexivity.
  - pose proof (digits2_int p H1) as Hd.
    rewrite plain_number_pos by assumption.
    set (d := Z.pos (digits2_pos p)) in *.
    set (k := Z.to_pos (53 - d)).
    assert (Hk : Z.pos k = 53 - d) by (unfold k; rewrite Z2Pos.id; lia).
    assert (Hpow : 0 < 2 ^ Z.pos k) by (apply Z.pow_pos_nonneg; lia).
    assert (HM : Z.pos (Pos.iter xO p k) = Z.pos p * 2 ^ Z.pos k) by apply Zpos_iter.
    assert (Hq : Z.pos (Pos.iter xO p k) / 2 ^ (- (d - 53)) = Z.pos p).
    { replace (- (d - 53)) with (Z.pos k) by lia. rewrite HM. apply Z.div_mul. lia. }
    assert (Hr : Z.pos (Pos.iter xO p k) mod 2 ^ (- (d - 53)) = 0).
    { replace (- (d - 53)) with (Z.pos k) by lia. rewrite HM. apply Z.mod_mul. lia. }
    split.
    + unfold integral, round.
      replace (0 <=? d - 53) with false by (symmetry; apply Z.leb_gt; lia).
      cbv zeta. rewrite Hq, Hr.
      replace (2 ^ (- (d - 53)) <=? 2 * 0) with false
        by (symmetry; apply Z.leb_gt; replace (- (d - 53)) with (Z.pos k) by lia; lia).
      assert (Hn : binary_normalize dprec demax (if Neg then - Z.pos p else Z.pos p) 0 Neg =
                   S754_finite Neg (Pos.iter xO p k) (d - 53)).
      { destruct Neg; cbn [binary_normalize Z.opp]; apply double_of_pos; fold d; lia. }
      rewrite Hn. apply deqb_refl_finite.
    + unfold int_of_double, trunc_mag.
      replace (0 <=? d - 53) with false by (symmetry; apply Z.leb_gt; lia).
      rewrite Hq. unfold INT_MAX in H1.
      destruct Neg; apply int_result_in; unfold INT_MIN, INT_MAX; lia.
Qed.

(** *** Integers in decimal *)

Lemma digits_value_mono (d : Decimal.uint) (N : Z) : 0 <= N -> N <= digits_value d N.
Proof.
  revert N. induction d; intros N HN; cbn [digits_value]; [lia|..];
    match goal with |- _ <= digits_value _ ?M => specialize (IHd M) end; lia.
Qed.

Lemma digits_value_pos (d : Decimal.uint) (acc : positive) :
  digits_value d (Z.pos acc) = Z.pos (Pos.of_uint_acc d acc).
Proof.
  revert acc. induction d; intros acc; cbn [digits_value Pos.of_uint_acc]; [reflexivity|..];
    rewrite <- IHd; f_equal; lia.
Qed.

Lemma digits_value_0 (d : Decimal.uint) : digits_value d 0 = Z.of_N (Pos.of_uint d).
Proof.
  induction d; cbn [digits_value Pos.of_uint]; [reflexivity|assumption|..];
    apply digits_value_pos.
Qed.

Lemma ExtractInt_stop (N : Z) (P : string) :
  isdigit (peek P) = false -> ExtractInt_from N P = Ret (N, P).
Proof. destruct P as [|c P]; simpl; [reflexivity|]. now intros ->. Qed.

(** [ExtractInt] over the decimal digits of a number that fits [int]. *)
Lemma ExtractInt_digits (d : Decimal.uint) (N : Z) (P : string) :
  0 <= N -> digits_value d N <= INT_MAX -> isdigit (peek P) = false ->
  ExtractInt_from N (NilEmpty.string_of_uint d ++ P) = Ret (digits_value d N, P).
Proof.
  revert N. induction d; intros N HN Hmax HP; cbn [NilEmpty.string_of_uint append digits_value];
    [now apply ExtractInt_stop|..];
    cbn [ExtractInt_from];
    match goal with |- context [isdigit ?c] => change (isdigit c) with true; cbv iota end;
    match goal with |- context [digit_value ?c] =>
      let v := eval vm_compute in (digit_value c) in change (digit_value c) with v end;
    (rewrite int_result_in;
     [cbn [bind]; apply IHd; [lia|assumption|assumption]
     |split; [unfold INT_MIN; lia|];
      etransitivity; [apply digits_value_mono; lia|eassumption]]).
Qed.

Lemma string_of_pos (p : positive) :
  NilZero.string_of_uint (Pos.to_uint p) = NilEmpty.string_of_uint (Pos.to_uint p).
Proof.
  pose proof (DecimalPos.Unsigned.to_uint_nonnil p) as H.
  destruct (Pos.to_uint p); [now destruct H|reflexivity..].
Qed.

Lemma ExtractInt_pos (p : positive) (P : string) :
  Z.pos p <= INT_MAX -> isdigit (peek P) = false ->
  ExtractInt (NilZero.string_of_uint (Pos.to_uint p) ++ P) = Ret (Z.pos p, P).
Proof.
  intros Hp HP. unfold ExtractInt. rewrite string_of_pos.
  assert (Hv : digits_value (Pos.to_uint p) 0 = Z.pos p).
  { rewrite digits_value_0, DecimalPos.Unsigned.of_to. reflexivity. }
  rewrite ExtractInt_digits; rewrite ?Hv; auto. lia.
Qed.

Lemma digits_head (p : positive) :
  exists c s, NilZero.string_of_uint (Pos.to_uint p) = String c s /\ isdigit c = true.
Proof.
  rewrite string_of_pos. pose proof (DecimalPos.Unsigned.to_uint_nonnil p) as H.
  destruct (Pos.to_uint p); [now destruct H|..]; simpl; eauto.
Qed.

Lemma assembled_digits (Neg : bool) (c : ascii) (s rest : string) (n : Z) :
  isdigit c = true ->
  ExtractInt (String c s ++ rest) = Ret (n, rest) ->
  delim rest = true ->
  assembled ((if Neg then "-" else "") ++ String c s ++ rest) =
  Ret (Some (inr (plain_number Neg n, rest))).
Proof.
  intros Hc He Hd. unfold assembled.
  pose proof (digit_facts c Hc) as Fc. decompose [and] Fc. clear Fc.
  pose proof (stops_facts _ Hd) as Fd. decompose [and] Fd. clear Fd.
  destruct Neg; cbn [append peek advance].
  - change (Ascii.eqb "-" "-") with true. cbn [orb].
    change (String c (s ++ rest)) with (String c s ++ rest). rewrite He. cbn [bind].
    repeat match goal with H : _ = false |- _ => rewrite H end. reflexivity.
  - repeat match goal with H : Ascii.eqb c _ = false |- _ => rewrite H end.
    match goal with H : is_digit_char c = true |- _ => rewrite H end. cbn [orb].
    change (String c (s ++ rest)) with (String c s ++ rest). rewrite He. cbn [bind].
    repeat match goal with H : _ = false |- _ => rewrite H end. reflexivity.
Qed.

Lemma ParseNumber_digits (Neg : bool) (c : ascii) (s rest : string) (n : Z) (self : Node) :
  isdigit c = true ->
  ExtractInt (String c s ++ rest) = Ret (n, rest) ->
  0 <= n <= INT_MAX ->
  delim rest = true ->
  ParseNumber ((if Neg then "-" else "") ++ String c s ++ rest) self =
  Ret (Error.None, rest,
       set_Variant (v_int (if Neg then - n else n)) (set_Type ValueType.Variant self)).
Proof.
  intros Hc He Hn Hd.
  rewrite ParseNumber_assembled, (assembled_digits Neg c s rest n) by assumption.
  cbn [bind]. destruct (plain_number_integral Neg n Hn) as [Hi Hc'].
  rewrite Hi, Hc'. reflexivity.
Qed.

(** The number production on a printed [int], before a delimiter. *)
Lemma ParseNumber_Save_int (z : Z) (rest : string) (self : Node) :
  small_int z = true -> delim rest = true ->
  ParseNumber (Save_int z ++ rest) self =
  Ret (Error.None, rest, set_Variant (v_int z) (set_Type ValueType.Variant self)).
Proof.
  intros Hz Hd. unfold small_int in Hz. apply andb_prop in Hz as [Hl Hh].
  apply Z.leb_le in Hl. apply Z.leb_le in Hh.
  pose proof (stops_facts _ Hd) as Fd. decompose [and] Fd. clear Fd.
  destruct z as [|p|p]; unfold Save_int; cbn [Z.to_int NilZero.string_of_int].
  - apply (ParseNumber_digits false "0" "" rest 0);
      [reflexivity| |unfold INT_MAX; lia|assumption].
    unfold ExtractInt. cbn [append ExtractInt_from].
    change (isdigit "0") with true. cbv iota.
    change (int_result (0 * 10 + digit_value "0")) with (@Ret Z 0). cbn [bind].
    now apply ExtractInt_stop.
  - destruct (digits_head p) as (c & s & Hs & Hc). rewrite Hs.
    apply (ParseNumber_digits false c s rest (Z.pos p));
      [assumption| |lia|assumption].
    rewrite <- Hs. now apply ExtractInt_pos.
  - destruct (digits_head p) as (c & s & Hs & Hc). rewrite Hs.
    apply (ParseNumber_digits true c s rest (Z.pos p));
      [assumption| |lia|assumption].
    rewrite <- Hs. apply ExtractInt_pos; [lia|assumption].
Qed.

Lemma Save_int_head (z : Z) :
  exists c s, Save_int z = String c s /\ (isdigit c = true \/ c = "-"%char).
Proof.
  destruct z as [|p|p]; unfold Save_int; cbn [Z.to_int NilZero.string_of_int].
  - exists "0"%char, "". auto.
  - destruct (digits_head p) as (c & s & Hs & Hc). eauto.
  - eexists _, _. split; [reflexivity|now right].
Qed.

(** *** Key order through the parser and the indexer *)

Lemma keys_increasing_ordered (m : Object_t) :
  keys_increasing (keys m) = true <-> ordered m.
Proof.
  unfold ordered. generalize (keys m) as l. clear m.
  induction l as [|a l IH]; [split; [constructor|reflexivity]|].
  cbn [keys_increasing]. destruct l as [|b l].
  - split; [repeat constructor|reflexivity].
  - rewrite andb_true_iff, IH. unfold String.ltb. split.
    + intros [Hab Hl]. constructor; [assumption|]. constructor. unfold key_lt.
      destruct (String.compare a b); try discriminate. reflexivity.
    + intros H. inversion H as [|? ? Hs Hh]; subst. split; [|assumption].
      inversion Hh as [|? ? Hab]; subst. unfold key_lt in Hab. now rewrite Hab.
Qed.

Lemma forallb_assign (f : Node -> bool) (Key : string) (V : Node) (m : Object_t) :
  forallb (fun N => f (snd N)) m = true -> f V = true ->
  forallb (fun N => f (snd N)) (map_assign Key V m) = true.
Proof.
  intros Hm HV. induction m as [|[k v] m IH]; cbn [map_assign forallb snd] in *.
  - now rewrite HV.
  - apply andb_prop in Hm as [Hv Hm].
    destruct (String.compare Key k); cbn [forallb snd]; rewrite ?HV, ?Hv, ?Hm; auto.
Qed.

Lemma well_ordered_eq (a b : Node) :
  Array a = Array b -> Object a = Object b -> well_ordered a = well_ordered b.
Proof. destruct a, b; simpl; now intros -> ->. Qed.

Lemma well_ordered_assign (Key : string) (New self : Node) :
  well_ordered self = true -> well_ordered New = true ->
  well_ordered (set_Object (map_assign Key New (Object (set_Type ValueType.Object self)))
                           (set_Type ValueType.Object self)) = true.
Proof.
  destruct self as [V A O T]. cbn [well_ordered set_Object set_Type Object Array Variant Type_].
  intros H HN. apply andb_prop in H as [H HO]. apply andb_prop in H as [HK HA].
  rewrite HA, andb_true_r. apply andb_true_intro. split.
  - apply (keys_increasing_ordered (map_assign Key New O)), KeyOrder.assign_ordered.
    now apply keys_increasing_ordered.
  - now apply (forallb_assign well_ordered).
Qed.

Lemma well_ordered_clear_Object (self : Node) :
  well_ordered self = true -> well_ordered (set_Object [] self) = true.
Proof.
  destruct self as [V A O T]. cbn [well_ordered set_Object Object Array Variant Type_].
  intros H. apply andb_prop in H as [H HO]. apply andb_prop in H as [HK HA].
  now rewrite HA.
Qed.

Lemma well_ordered_clear_Array (self : Node) :
  well_ordered self = true -> well_ordered (set_Array [] self) = true.
Proof.
  destruct self as [V A O T]. cbn [well_ordered set_Array Object Array Variant Type_].
  intros H. apply andb_prop in H as [H HO]. apply andb_prop in H as [HK HA].
  now rewrite HK, HO.
Qed.

Lemma well_ordered_push (New self : Node) :
  well_ordered self = true -> well_ordered New = true ->
  well_ordered (set_Array (Array (set_Type ValueType.Array self) ++ [New])%list
                          (set_Type ValueType.Array self)) = true.
Proof.
  destruct self as [V A O T]. cbn [well_ordered set_Array set_Type Object Array Variant Type_].
  intros H HN. apply andb_prop in H as [H HO]. apply andb_prop in H as [HK HA].
  rewrite HK, HO, forallb_app, HA. cbn [forallb]. now rewrite HN.
Qed.

Lemma well_ordered_set_Type (t : ValueType.t) (self : Node) :
  well_ordered (set_Type t self) = well_ordered self.
Proof. now destruct self. Qed.

Lemma well_ordered_set_Variant (v : variant) (self : Node) :
  well_ordered (set_Variant v self) = well_ordered self.
Proof. now destruct self. Qed.

Lemma ParseString_keeps (P : string) (self : Node) :
  well_ordered self = true -> keeps_order (ParseString P self).
Proof.
  intros H r. unfold ParseString.
  destruct (Ascii.eqb (peek P) QUOT); [|intros [= <-]; exact H].
  destruct (ExtractString _) as [[s p]| |]; try discriminate. cbn [bind].
  destruct (negb _); intros [= <-]; cbn [snd];
    now rewrite ?well_ordered_set_Type, well_ordered_set_Variant.
Qed.

Lemma ParseBool_keeps (P : string) (self : Node) :
  well_ordered self = true -> keeps_order (ParseBool P self).
Proof.
  intros H r. unfold ParseBool.
  destruct (_ || _); intros [= <-]; cbn [snd]; [|exact H].
  now rewrite well_ordered_set_Type, well_ordered_set_Variant.
Qed.

Lemma ParseNull_keeps (P : string) (self : Node) :
  well_ordered self = true -> keeps_order (ParseNull P self).
Proof.
  intros H r. unfold ParseNull.
  destruct (String.prefix _ _); intros [= <-]; cbn [snd]; [|exact H].
  now rewrite well_ordered_set_Type, well_ordered_set_Variant.
Qed.

Lemma ParseNumber_keeps (P : string) (self : Node) :
  well_ordered self = true -> keeps_order (ParseNumber P self).
Proof.
  intros H r. rewrite ParseNumber_assembled.
  destruct (assembled P) as [[[p|[n p]]|]| |]; try discriminate; cbn [bind].
  - intros [= <-]. exact H.
  - destruct (integral n).
    + destruct (int_of_double n); try discriminate. cbn [bind]. intros [= <-]. cbn [snd].
      now rewrite well_ordered_set_Variant, well_ordered_set_Type.
    + intros [= <-]. cbn [snd].
      now rewrite well_ordered_set_Variant, well_ordered_set_Type.
  - intros [= <-]. exact H.
Qed.

Lemma bind_keeps (m : outcome parsed) (k : parsed -> outcome parsed) :
  keeps_order m ->
  (forall r, well_ordered (snd r) = true -> keeps_order (k r)) ->
  keeps_order (bind m k).
Proof.
  intros Hm Hk r. destruct m as [a| |]; try discriminate. cbn [bind].
  apply Hk. now apply Hm.
Qed.

Lemma Ret_keeps (Err : Error.t) (P : string) (self : Node) :
  well_ordered self = true -> keeps_order (Ret (Err, P, self)).
Proof. intros H r [= <-]. exact H. Qed.

Section Step.

Variable fuel : nat.
Hypothesis Parse_keeps : forall cell, loop_keeps (Parse fuel cell).
Hypothesis ObjectLoop_keeps : forall cell, loop_keeps (ObjectLoop fuel cell).
Hypothesis ArrayLoop_keeps : forall cell, loop_keeps (ArrayLoop fuel cell).

Lemma tail6_keeps (cell : captured) (r : parsed) :
  well_ordered (snd r) = true -> keeps_order (tail6 cell r).
Proof.
  destruct r as [[e P] s]. cbn [snd]. intros H. unfold tail6.
  destruct (Check cell e); now apply Ret_keeps.
Qed.

Lemma tail5_keeps (cell : captured) (r : parsed) :
  well_ordered (snd r) = true -> keeps_order (tail5 fuel cell r).
Proof.
  destruct r as [[e P] s]. cbn [snd]. intros H. unfold tail5.
  destruct (Check cell e); [now apply Ret_keeps|].
  apply bind_keeps; [|intros; now apply tail6_keeps].
  unfold ParseArray_with. destruct (Ascii.eqb _ _); [now apply ArrayLoop_keeps|now apply Ret_keeps].
Qed.

Lemma tail4_keeps (cell : captured) (r : parsed) :
  well_ordered (snd r) = true -> keeps_order (tail4 fuel cell r).
Proof.
  destruct r as [[e P] s]. cbn [snd]. intros H. unfold tail4.
  destruct (Check cell e); [now apply Ret_keeps|].
  apply bind_keeps; [|intros; now apply tail5_keeps].
  unfold ParseObject_with. destruct (Ascii.eqb _ _); [now apply ObjectLoop_keeps|now apply Ret_keeps].
Qed.

Lemma tail3_keeps (cell : captured) (r : parsed) :
  well_ordered (snd r) = true -> keeps_order (tail3 fuel cell r).
Proof.
  destruct r as [[e P] s]. cbn [snd]. intros H. unfold tail3.
  destruct (Check cell e); [now apply Ret_keeps|].
  apply bind_keeps; [now apply ParseNumber_keeps|intros; now apply tail4_keeps].
Qed.

Lemma tail2_keeps (cell : captured) (r : parsed) :
  well_ordered (snd r) = true -> keeps_order (tail2 fuel cell r).
Proof.
  destruct r as [[e P] s]. cbn [snd]. intros H. unfold tail2.
  destruct (Check cell e); [now apply Ret_keeps|].
  apply bind_keeps; [now apply ParseNull_keeps|intros; now apply tail3_keeps].
Qed.

Lemma tail1_keeps (cell : captured) (r : parsed) :
  well_ordered (snd r) = true -> keeps_order (tail1 fuel cell r).
Proof.
  destruct r as [[e P] s]. cbn [snd]. intros H. unfold tail1.
  destruct (Check cell e); [now apply Ret_keeps|].
  apply bind_keeps; [now apply ParseBool_keeps|intros; now apply tail2_keeps].
Qed.

Lemma Parse_step_keeps (cell : captured) : loop_keeps (Parse (S fuel) cell).
Proof.
  intros P self H. rewrite Parse_tail.
  apply bind_keeps; [now apply ParseString_keeps|intros; now apply tail1_keeps].
Qed.

Lemma ObjectLoop_step_keeps (cell : captured) : loop_keeps (ObjectLoop (S fuel) cell).
Proof.
  intros P self H. rewrite ObjectLoop_S. cbv zeta.
  destruct (Ascii.eqb (peek P) NUL); [now apply Ret_keeps|].
  destruct (Ascii.eqb (peek (SkipSpace P)) "}");
    [apply Ret_keeps; now rewrite well_ordered_set_Type|].
  destruct (Ascii.eqb (peek (SkipSpace P)) QUOT); [|now apply ObjectLoop_keeps].
  destruct (ExtractString _) as [[Name P1]| |]; [|intros r; discriminate..].
  cbn [bind].
  destruct (negb (Ascii.eqb (peek P1) QUOT));
    [apply Ret_keeps; now apply well_ordered_clear_Object|].
  destruct (negb (Ascii.eqb (peek (SkipSpace (advance P1))) ":"));
    [apply Ret_keeps; now apply well_ordered_clear_Object|].
  apply bind_keeps; [now apply Parse_keeps|].
  intros [[Err P2] New] HN. cbn [snd] in HN.
  destruct (negb (Error.eqb Err Error.None));
    [apply Ret_keeps; now apply well_ordered_clear_Object|].
  pose proof (well_ordered_assign Name New self H HN) as H'.
  destruct (Ascii.eqb (peek (SkipSpace P2)) "}"); [now apply Ret_keeps|].
  destruct (negb (Ascii.eqb (peek (SkipSpace P2)) ","));
    [apply Ret_keeps; now apply well_ordered_clear_Object|].
  now apply ObjectLoop_keeps.
Qed.

Lemma ArrayLoop_step_keeps (cell : captured) : loop_keeps (ArrayLoop (S fuel) cell).
Proof.
  intros P self H. rewrite ArrayLoop_S. cbv zeta.
  destruct (Ascii.eqb (peek P) NUL); [now apply Ret_keeps|].
  destruct (_ && _)%bool; [now apply Ret_keeps|].
  apply bind_keeps; [now apply Parse_keeps|].
  intros [[Err P2] New] HN. cbn [snd] in HN.
  destruct (negb (Error.eqb Err Error.None));
    [apply Ret_keeps; now apply well_ordered_clear_Array|].
  pose proof (well_ordered_push New self H HN) as H'.
  destruct (Ascii.eqb (peek (SkipSpace P2)) "]"); [now apply Ret_keeps|].
  destruct (negb (Ascii.eqb (peek (SkipSpace P2)) ","));
    [apply Ret_keeps; now apply well_ordered_clear_Array|].
  now apply ArrayLoop_keeps.
Qed.

End Step.

(** [Parse] and its two loops keep key order, by induction on the fuel. *)
Lemma parser_keeps_order (fuel : nat) :
  (forall cell, loop_keeps (Parse fuel cell)) /\
  (forall cell, loop_keeps (ObjectLoop fuel cell)) /\
  (forall cell, loop_keeps (ArrayLoop fuel cell)).
Proof.
  induction fuel as [|fuel (HP & HO & HA)].
  - repeat split; intros cell P self _ r; discriminate.
  - split; [|split]; intros cell.
    + now apply Parse_step_keeps.
    + now apply ObjectLoop_step_keeps.
    + now apply ArrayLoop_step_keeps.
Qed.

(** Whatever the text, a parse into a fresh node that returns leaves every
    object of the tree in key order. *)
Lemma Parse_well_ordered (fuel : nat) (Str : string) (r : parsed) :
  Parse_top fuel Str Node_default = Ret r -> well_ordered (snd r) = true.
Proof.
  apply (proj1 (parser_keeps_order fuel) None Str Node_default). reflexivity.
Qed.

Lemma well_ordered_Object (V : variant) (Arr : Array_t) (Obj : Object_t) (Ty : ValueType.t) :
  well_ordered (mkNode V Arr Obj Ty) = true -> StronglySorted key_lt (keys Obj).
Proof.
  cbn [well_ordered]. intros H. apply andb_prop in H as [H _]. apply andb_prop in H as [H _].
  now apply KeyOrder.ordered_strongly, keys_increasing_ordered.
Qed.

Lemma map_find_well_ordered (Key : string) (m : Object_t) (N : Node) :
  forallb (fun N => well_ordered (snd N)) m = true ->
  map_find Key m = Some N -> well_ordered N = true.
Proof.
  induction m as [|[k v] m IH]; cbn [map_find forallb snd]; [discriminate|].
  intros H. apply andb_prop in H as [Hv Hm].
  destruct (String.compare Key k); [now intros [= <-]|discriminate|now apply IH].
Qed.

Lemma index_key_keeps (Key : string) (self : Node) :
  well_ordered self = true -> well_ordered (fst (index_key Key self)) = true.
Proof.
  intros H. unfold index_key. cbn [fst].
  set (self' := if negb (ValueType.eqb (Type_ self) ValueType.Object)
                then set_Type ValueType.Object (set_Array [] self) else self).
  assert (H' : well_ordered self' = true).
  { unfold self'. destruct (negb _); [|assumption].
    rewrite well_ordered_set_Type. now apply well_ordered_clear_Array. }
  clearbody self'. destruct self' as [V A O T].
  cbn [well_ordered set_Object Object Array Variant Type_] in *.
  apply andb_prop in H' as [H' HO]. apply andb_prop in H' as [HK HA].
  unfold map_subscript. destruct (map_find Key O); cbn [fst].
  - now rewrite HK, HA, HO.
  - rewrite HA, andb_true_r. apply andb_true_intro. split.
    + apply (keys_increasing_ordered (map_assign Key Node_default O)), KeyOrder.assign_ordered.
      now apply keys_increasing_ordered.
    + now apply (forallb_assign well_ordered).
Qed.

Lemma through_key_keeps (Key : string) (op : Node -> Node) (self : Node) :
  (forall N, well_ordered N = true -> well_ordered (op N) = true) ->
  well_ordered self = true -> well_ordered (through_key Key op self) = true.
Proof.
  intros Hop H. unfold through_key.
  pose proof (index_key_keeps Key self H) as H'.
  destruct (index_key Key self) as [self' k]. cbn [fst] in H'.
  destruct (map_find Key (Object self')) as [N|] eqn:E; [|assumption].
  destruct self' as [V A O T].
  cbn [well_ordered set_Object Object Array Variant Type_] in *.
  apply andb_prop in H' as [H' HO]. apply andb_prop in H' as [HK HA].
  rewrite HA, andb_true_r. apply andb_true_intro. split.
  - apply (keys_increasing_ordered (map_assign Key (op N) O)), KeyOrder.assign_ordered.
    now apply keys_increasing_ordered.
  - apply (forallb_assign well_ordered); [assumption|].
    apply Hop. now apply (map_find_well_ordered Key O).
Qed.

(** ** Key order of objects, as printed *)

(** C8: whatever the order in which members are assigned to an object, the
    map holds them in strictly increasing key order, with exactly the keys
    assigned.  Every parse into a fresh node that returns, and every member
    assignment through the key indexer, leaves every object of the tree in
    key order, and the printer emits the members of an object in the order
    the map holds them.  The text with the key b before the key a parses to
    the object with a before b and prints with a first. *)
Theorem C8_members_in_key_order :
  (forall kvs : list (string * Node),
     StronglySorted key_lt (keys (assign_all kvs [])) /\
     (forall k, In k (keys (assign_all kvs [])) <-> In k (List.map fst kvs))) /\
  (forall fuel Str r,
     Parse_top fuel Str Node_default = Ret r -> well_ordered (snd r) = true) /\
  (forall Key op self,
     (forall N, well_ordered N = true -> well_ordered (op N) = true) ->
     well_ordered self = true -> well_ordered (through_key Key op self) = true) /\
  (forall V Arr Obj Ty,
     well_ordered (mkNode V Arr Obj Ty) = true -> StronglySorted key_lt (keys Obj)) /\
  (forall Level V Arr Obj,
     print Level (mkNode V Arr Obj ValueType.Object) =
       (if negb (Nat.eqb Level 0) then endl else "") ++
       Tabs Level ++ "{" ++ endl ++
       members_text Level (List.length Obj) 0 Obj ++
       Tabs Level ++ "}" ++ at_level_zero Level) /\
  (forall fuel,
     Parse_top (4 + fuel) text_b_1_a_2 Node_default = Ret (Error.None, "", node_a_2_b_1)) /\
  print 0 node_a_2_b_1 =
    "{" ++ endl ++
    String TAB (quoted "a") ++ ": 2," ++ endl ++
    String TAB (quoted "b") ++ ": 1" ++ endl ++
    "}" ++ endl.
Proof.
  split; [|split; [|split; [|split; [|split; [|split]]]]].
  - intros kvs. split.
    + apply KeyOrder.ordered_strongly, KeyOrder.assign_all_ordered. constructor.
    + intros k. rewrite KeyOrder.assign_all_keys. simpl. intuition.
  - exact Parse_well_ordered.
  - exact through_key_keeps.
  - exact well_ordered_Object.
  - intros. apply print_Object.
  - run.
  - reflexivity.
Qed.

(** C8, witness: the tree parsed from the text with b before a is in key
    order, and so are the keys of its object. *)
Lemma C8_members_in_key_order_witness :
  well_ordered node_a_2_b_1 = true /\ StronglySorted key_lt ["a"; "b"].
Proof.
  split.
  - exact (proj1 (proj2 C8_members_in_key_order) 4%nat text_b_1_a_2 (Error.None, "", node_a_2_b_1) eq_refl).
  - exact (proj1 (proj2 (proj2 (proj2 C8_members_in_key_order))) (v_string "") []
             [("a", Node_int 2); ("b", Node_int 1)] ValueType.Object eq_refl).
Defined.

(** ** Number kind inference *)

(** C4 (as amended): the kind of a parsed number follows from its value.
    On the texts 42 and 42.0 [ParseNumber] stores the integer 42, on the
    text 4e1 the integer 40 and on the text 4.5 the single-precision 4.5,
    and the entry point, as the first activation of [Parse] in the program,
    returns the same nodes.  In general, when [ParseNumber] has assembled
    [Number], it stores [(float)Number] if [round(Number) == Number] does
    not hold, and otherwise converts [Number] to [int] and stores the
    result; the conversion of a value outside [int] is undefined, as on the
    text 1e10. *)
Theorem C4_kind_follows_value :
  ParseNumber "42" Node_default = Ret (Error.None, "", Node_int 42) /\
  ParseNumber "42.0" Node_default = Ret (Error.None, "", Node_int 42) /\
  ParseNumber "4e1" Node_default = Ret (Error.None, "", Node_int 40) /\
  ParseNumber "4.5" Node_default = Ret (Error.None, "", Node_float f4_5) /\
  ParseNumber "1e10" Node_default = UB /\
  (forall fuel, Parse_top (1 + fuel) "42" Node_default = Ret (Error.None, "", Node_int 42)) /\
  (forall fuel, Parse_top (1 + fuel) "42.0" Node_default = Ret (Error.None, "", Node_int 42)) /\
  (forall fuel, Parse_top (1 + fuel) "4e1" Node_default = Ret (Error.None, "", Node_int 40)) /\
  (forall fuel, Parse_top (1 + fuel) "4.5" Node_default = Ret (Error.None, "", Node_float f4_5)) /\
  (forall Position self Number Position',
     assembled Position = Ret (Some (inr (Number, Position'))) ->
     (integral Number = true ->
      ParseNumber Position self =
      let* Cast := int_of_double Number in
      Ret (Error.None, Position', set_Variant (v_int Cast) (set_Type ValueType.Variant self))) /\
     (integral Number = false ->
      ParseNumber Position self =
      Ret (Error.None, Position',
           set_Variant (v_float (float_of_double Number)) (set_Type ValueType.Variant self)))).
Proof.
  do 5 (split; [vm_compute; reflexivity|]).
  split; [run|]. split; [run|]. split; [run|]. split; [run|].
  intros Position self Number Position' H.
  split; intros Hi; rewrite ParseNumber_assembled, H; unfold bind; now rewrite Hi.
Qed.

(** C4, witness: the general rule at the texts 40 and 4.5. *)
Lemma C4_kind_follows_value_witness :
  ParseNumber "40" Node_default = Ret (Error.None, "", Node_int 40) /\
  ParseNumber "4.5" Node_default = Ret (Error.None, "", Node_float f4_5).
Proof.
  split.
  - apply (proj1 (proj2 (proj2 (proj2 (proj2 (proj2 (proj2 (proj2 (proj2 (proj2
                     C4_kind_follows_value))))))))
                   "40" Node_default (S754_finite false 5629499534213120 (-47)) ""
                   ltac:(vm_compute; reflexivity)) ltac:(vm_compute; reflexivity)).
  - apply (proj2 (proj2 (proj2 (proj2 (proj2 (proj2 (proj2 (proj2 (proj2 (proj2
                     C4_kind_follows_value))))))))
                   "4.5" Node_default (S754_finite false 5066549580791808 (-50)) ""
                   ltac:(vm_compute; reflexivity)) ltac:(vm_compute; reflexivity)).
Defined.

(** C4 (as stated) fails: the text 42.0 does not come back as the float
    kind; its value is integral and the node holds the integer 42.  The
    entry point is the first activation of [Parse] in the program. *)
Lemma C4_counterexample :
  ~ (exists fuel Position V,
       Parse_top fuel "42.0" Node_default = Ret (Error.None, Position, Node_float V)).
Proof.
  intros (fuel & Position & V & H).
  destruct fuel as [|fuel]; [discriminate|].
  vm_compute in H. discriminate.
Qed.

(** ** Empty containers *)

(** C6 (the code departs from it): the text of an empty object gives an
    object-tagged node with no member, which prints as an opening and a
    closing brace.  The text of an empty array leaves the tag of the node as
    it was, because the branch compares the tag where it means to assign
    it: a fresh node stays object-tagged and prints as an empty object. *)
Theorem C6_empty_array_keeps_object_tag :
  (forall fuel, Parse_top (2 + fuel) "{}" Node_default = Ret (Error.None, "}", Node_default)) /\
  (forall fuel, Parse_top (2 + fuel) "[]" Node_default = Ret (Error.None, "]", Node_default)) /\
  Type_ Node_default = ValueType.Object /\
  Object Node_default = [] /\
  Is k_Array Node_default = false /\
  print 0 Node_default = "{" ++ endl ++ "}" ++ endl /\
  print 0 (Node_array []) = "[]" ++ endl.
Proof. repeat split; run. Qed.

(** ** Faults on truncated input *)

(** C7 (as amended): parsed by the first activation of [Parse] in the
    program, into a fresh node, an object and an array cut off after a
    complete member or element both fault with the missing-comma code, and
    the node is left with its container emptied. *)
Theorem C7_truncated_container_is_missed_comma :
  (forall fuel,
     Parse_top (3 + fuel) text_a_1_open Node_default =
     Ret (Error.MissedComma, "", Node_default)) /\
  (forall fuel,
     Parse_top (4 + fuel) "[1,2" Node_default =
     Ret (Error.MissedComma, "", Node_array [])).
Proof. split; run. Qed.

(** C7 (as stated) fails: in the first activation of [Parse] in the
    program, the fault for the object without its closing brace is neither
    the missing-brace code nor the undefined code. *)
Lemma C7_counterexample :
  ~ (exists fuel Position Val E,
       Parse_top fuel text_a_1_open Node_default = Ret (E, Position, Val) /\
       (E = Error.MissedBrace \/ E = Error.MissedBracket \/ E = Error.Undefined)).
Proof.
  intros (fuel & Position & Val & E & H & HE).
  do 3 (destruct fuel as [|fuel]; [vm_compute in H; discriminate|]).
  vm_compute in H. injection H as <- _ _.
  destruct HE as [HE|[HE|HE]]; discriminate.
Qed.

(** The string production on a text with no closing quote: [ExtractString]
    runs over the terminator. *)
Lemma ParseString_unterminated :
  ParseString text_abc_open Node_default = UB.
Proof. reflexivity. Qed.

(** ** The cursor after an empty container *)

(** C10 (the code departs from it): on the two-character text of an empty
    object the object production returns the no-fault code with the cursor
    on the closing brace, as the claim says.  It is not the only success
    that stops short of its match.  The array production on the text of an
    empty array returns with the cursor on the closing bracket, and the
    object production returns on the closing brace also when it meets it
    after a comma.  The exits taken after a member or an element do move
    the cursor past the closing character, as do the string production on
    a quoted text with no quote inside, the bool and null productions, and
    the number production on a decimal integer followed by a delimiter.
    An enclosing object takes the brace an empty member object leaves for
    its own: in the first activation of [Parse] in the program, the text
    of an object whose first member is an empty object and whose second
    member is the integer 1 gives the no-fault code and an object with the
    first member only, the cursor left on the comma. *)
Theorem C10_cursor_after_empty_container :
  (forall fuel self,
     ParseObject (1 + fuel) None "{}" self =
     Ret (Error.None, "}", set_Type ValueType.Object self)) /\
  (forall fuel self,
     Array self = [] ->
     ParseArray (1 + fuel) None "[]" self = Ret (Error.None, "]", self)) /\
  (forall s rest self,
     quote_free s = true ->
     ParseString (quoted s ++ rest) self =
     Ret (Error.None, rest, set_Type ValueType.Variant (set_Variant (v_string s) self))) /\
  (forall (b : bool) rest self,
     ParseBool ((if b then "true" else "false") ++ rest) self =
     Ret (Error.None, rest, set_Type ValueType.Variant (set_Variant (v_bool b) self))) /\
  (forall rest self,
     ParseNull ("null" ++ rest) self =
     Ret (Error.None, rest, set_Type ValueType.Variant (set_Variant v_nullptr self))) /\
  (forall z rest self,
     small_int z = true -> delim rest = true ->
     ParseNumber (Save_int z ++ rest) self =
     Ret (Error.None, rest, set_Variant (v_int z) (set_Type ValueType.Variant self))) /\
  (forall fuel,
     ParseObject (3 + fuel) None ("{" ++ quoted "a" ++ ":1}") Node_default =
     Ret (Error.None, "", mkNode (v_string "") [] [("a", Node_int 1)] ValueType.Object)) /\
  (forall fuel,
     ParseArray (3 + fuel) None "[1]" Node_default =
     Ret (Error.None, "", Node_array [Node_int 1])) /\
  (forall fuel,
     ParseObject (3 + fuel) None text_a_1_comma Node_default =
     Ret (Error.None, "}", mkNode (v_string "") [] [("a", Node_int 1)] ValueType.Object)) /\
  (forall fuel,
     Parse_top (4 + fuel) text_a_empty_b_1 Node_default =
     Ret (Error.None, "," ++ quoted "b" ++ ":1}",
          mkNode (v_string "") [] [("a", Node_default)] ValueType.Object)).
Proof.
  split; [intros; reflexivity|].
  split; [intros fuel self H; unfold ParseArray, ParseArray_with; simpl; now rewrite H|].
  split; [exact ParseString_quoted|].
  split; [exact ParseBool_literal|].
  split; [exact ParseNull_literal|].
  split; [exact ParseNumber_Save_int|].
  split; [run|]. split; [run|]. split; run.
Qed.

(** C10, witness: the array production on the text of an empty array, from
    a fresh node; the string production on the text abc in quotes; the
    number production on the text -17 before a comma. *)
Lemma C10_cursor_after_empty_container_witness :
  ParseArray 1 None "[]" Node_default = Ret (Error.None, "]", Node_default) /\
  ParseString (quoted "abc" ++ ",") Node_default = Ret (Error.None, ",", Node_string "abc") /\
  ParseNumber (Save_int (-17) ++ ",") Node_default = Ret (Error.None, ",", Node_int (-17)).
Proof.
  split; [|split].
  - exact (proj1 (proj2 C10_cursor_after_empty_container) 0%nat Node_default eq_refl).
  - exact (proj1 (proj2 (proj2 C10_cursor_after_empty_container))
             "abc" "," Node_default eq_refl).
  - exact (proj1 (proj2 (proj2 (proj2 (proj2 (proj2 C10_cursor_after_empty_container)))))
             (-17) "," Node_default eq_refl eq_refl).
Defined.

(** The array production succeeds on the two-character text of an empty
    array and never leaves the cursor past the closing bracket. *)
Lemma ParseArray_empty_stops_short :
  ~ (exists fuel self,
       ParseArray fuel None "[]" Node_default = Ret (Error.None, "", self)).
Proof.
  intros (fuel & self & H).
  destruct fuel as [|fuel]; vm_compute in H; discriminate.
Qed.

(** ** Propagation of faults *)

(** C2 (the code departs from it): on the text of an array whose only
    element is a number with a point and no digit after it, the number
    production faults with the malformed-number code; the element's
    [Parse] tests the [Err] of the outermost activation and returns the
    no-fault code; the array keeps the empty default node as its element
    and the entry point returns the no-fault code with that array.  In
    general the [Err] of an activation that passed [Check] holds no fault,
    and an activation that reads such a cell returns the no-fault code
    whatever its productions found. *)
Theorem C2_member_fault_is_swallowed :
  ParseNumber "1.]" Node_default = Ret (Error.InvalidNumber, "]", Node_default) /\
  (forall fuel,
     Parse (1 + fuel) (Some Error.Undefined) "1.]" Node_default =
     Ret (Error.None, "]", Node_default)) /\
  (forall fuel,
     Parse_top (3 + fuel) "[1.]" Node_default =
     Ret (Error.None, "", Node_array [Node_default])) /\
  (forall fuel,
     extract (3 + fuel) "[1.]" Node_default = Ret (Filled (Node_array [Node_default]))) /\
  (forall Err, Check None Err = false -> calm Err) /\
  (forall fuel e Position self r,
     calm e -> Parse fuel (Some e) Position self = Ret r -> fst (fst r) = Error.None).
Proof.
  split; [reflexivity|]. split; [run|]. split; [run|]. split; [run|].
  split; [exact Check_own|exact nested_Parse_no_fault].
Qed.

(** C2, witness: the general statement at the element of the array above. *)
Lemma C2_member_fault_is_swallowed_witness :
  fst (fst (Error.None, "]", Node_default)) = Error.None.
Proof.
  exact (proj2 (proj2 (proj2 (proj2 (proj2 C2_member_fault_is_swallowed))))
           1%nat Error.Undefined "1.]" Node_default (Error.None, "]", Node_default)
           calm_Undefined eq_refl).
Defined.

(** ** Round trip through the printer and the parser *)

(** *** Induction on trees *)

(** Induction on a tree with the hypothesis for every element and every
    member. *)
Lemma Node_ind (P : Node -> Prop) :
  (forall V Arr Obj Ty,
      Forall P Arr -> Forall (fun N => P (snd N)) Obj -> P (mkNode V Arr Obj Ty)) ->
  forall Val, P Val.
Proof.
  intros step.
  fix IH 1. intros [V Arr Obj Ty]. apply step.
  - induction Arr as [|E Arr IHArr]; constructor; [apply IH|assumption].
  - induction Obj as [|N Obj IHObj]; constructor; [apply IH|assumption].
Qed.

(** *** The text of an array and of a scalar *)

Lemma print_Array (Level : nat) (V : variant) (Arr : Array_t) (Obj : Object_t) :
  print Level (mkNode V Arr Obj ValueType.Array) =
  "[" ++ elements_text Level (List.length Arr) 0 Arr ++ "]" ++ at_level_zero Level.
Proof.
  cbn [print append]. f_equal. rewrite !append_assoc. f_equal.
  generalize (List.length Arr) as size. generalize 0%nat as Counter.
  induction Arr as [|E l IH]; intros Counter size; [reflexivity|].
  cbn [elements_text]. rewrite <- IH. reflexivity.
Qed.

Lemma print_Variant (Level : nat) (V : variant) (Arr : Array_t) (Obj : Object_t) :
  print Level (mkNode V Arr Obj ValueType.Variant) = Save V ++ at_level_zero Level.
Proof. reflexivity. Qed.

(** *** The first character of a printed value *)

Lemma starter_facts (c : ascii) :
  starter c = true ->
  isspace c = false /\ Ascii.eqb c NUL = false /\ Ascii.eqb c "]" = false /\
  Ascii.eqb c "}" = false.
Proof. by_char c; intros _; repeat split. Qed.

Lemma isspace_not_NUL (c : ascii) : isspace c = true -> Ascii.eqb c NUL = false.
Proof. by_char c. Qed.

(** A printed tree is a run of spaces followed by a character that starts a
    production. *)
Lemma print_head (Level : nat) (Val : Node) :
  printable Val = true ->
  exists lead c s,
    print Level Val = lead ++ String c s /\ allspace lead = true /\ starter c = true.
Proof.
  destruct Val as [V Arr Obj Ty]. destruct Ty; cbn [printable]; intros H.
  - rewrite print_Variant.
    apply andb_prop in H as [H _]. apply andb_prop in H as [H _].
    destruct V as [s|z|f|b|]; cbn [Save printable_scalar] in *.
    + exists "", QUOT. eexists. repeat split.
    + destruct (Save_int_head z) as (c & s & -> & Hc).
      exists "", c. eexists. split; [reflexivity|]. split; [reflexivity|].
      destruct Hc as [Hc| ->]; [|reflexivity].
      unfold starter. rewrite Hc. now rewrite !orb_true_r.
    + discriminate.
    + destruct b; [exists "", "t"%char|exists "", "f"%char]; eexists; repeat split.
    + exists "", "n"%char. eexists. repeat split.
  - rewrite print_Array. exists "", "["%char. eexists. repeat split.
  - rewrite print_Object.
    exists ((if negb (Nat.eqb Level 0) then endl else "") ++ Tabs Level), "{"%char.
    eexists. split; [now rewrite !append_assoc|]. split; [|reflexivity].
    apply allspace_app; [now destruct (Nat.eqb Level 0)|apply allspace_Tabs].
Qed.

Lemma SkipSpace_lead (ws : string) (c : ascii) (s : string) :
  allspace ws = true -> isspace c = false -> SkipSpace (ws ++ String c s) = String c s.
Proof.
  intros Hw Hc. rewrite SkipSpace_app by assumption. simpl. now rewrite Hc.
Qed.

Lemma peek_lead (ws : string) (c : ascii) (s : string) :
  allspace ws = true -> Ascii.eqb c NUL = false ->
  Ascii.eqb (peek (ws ++ String c s)) NUL = false.
Proof.
  destruct ws as [|x ws]; simpl; [auto|].
  intros H _. apply andb_prop in H as [Hx _]. now apply isspace_not_NUL.
Qed.

Lemma value_text_head (ws : string) (Level : nat) (Val : Node) (r : string) :
  printable Val = true -> allspace ws = true ->
  Ascii.eqb (peek (ws ++ print Level Val ++ r)) NUL = false /\
  exists c s, SkipSpace (ws ++ print Level Val ++ r) = String c s /\ starter c = true.
Proof.
  intros Hp Hw. destruct (print_head Level Val Hp) as (lead & c & s & -> & Hl & Hc).
  destruct (starter_facts c Hc) as (Hs & Hn & _).
  rewrite append_assoc. cbn [append]. rewrite <- append_assoc. split.
  - apply peek_lead; [now apply allspace_app|assumption].
  - exists c, (s ++ r). split; [|assumption].
    apply SkipSpace_lead; [now apply allspace_app|assumption].
Qed.

(** *** Parsing the text of a tree *)

Lemma minus_facts :
  Ascii.eqb "-" QUOT = false /\ Ascii.eqb "-" "t" = false /\ Ascii.eqb "-" "f" = false /\
  Ascii.eqb "-" "n" = false /\ isspace "-" = false.
Proof. repeat split. Qed.

(** Scalars. *)
Lemma scalar_comes_back (V : variant) :
  printable_scalar V = true -> comes_back (mkNode V [] [] ValueType.Variant).
Proof.
  intros HV Level fuel cell ws rest Hq Hfuel Hws Hd.
  destruct fuel as [|fuel]; [simpl in Hfuel; lia|].
  rewrite Parse_tail, print_Variant, append_assoc.
  set (X := at_level_zero Level ++ rest) in *.
  rewrite SkipSpace_app by assumption.
  destruct V as [s|z|f|b|]; cbn [Save printable_scalar] in *.
  - change (SkipSpace (quoted s ++ X)) with (quoted s ++ X).
    rewrite ParseString_quoted by assumption. cbn [bind].
    now apply tail1_delim.
  - destruct (Save_int_head z) as (c & s & Hs & Hc).
    assert (F : Ascii.eqb c QUOT = false /\ Ascii.eqb c "t" = false /\
                Ascii.eqb c "f" = false /\ Ascii.eqb c "n" = false /\ isspace c = false).
    { destruct Hc as [Hc| ->]; [|exact minus_facts].
      pose proof (digit_facts c Hc). tauto. }
    destruct F as (F1 & F2 & F3 & F4 & F5).
    assert (Hpeek : peek (Save_int z ++ X) = c) by now rewrite Hs.
    rewrite SkipSpace_stay by now rewrite Hpeek.
    rewrite ParseString_skip by now rewrite Hpeek. cbn [bind].
    rewrite tail1_skip by (auto; now rewrite Hpeek).
    rewrite tail2_skip by (auto; now rewrite Hpeek).
    unfold tail3. rewrite Check_quiet by auto.
    rewrite ParseNumber_Save_int by assumption. cbn [bind].
    now apply tail4_delim.
  - discriminate.
  - assert (Hpeek : Ascii.eqb (peek ((if b then "true" else "false") ++ X)) QUOT = false)
      by now destruct b.
    rewrite SkipSpace_stay by now destruct b.
    rewrite ParseString_skip by assumption. cbn [bind].
    unfold tail1. rewrite Check_quiet by auto.
    rewrite ParseBool_literal. cbn [bind].
    now apply tail2_delim.
  - change (SkipSpace ("null" ++ X)) with ("null" ++ X).
    rewrite ParseString_skip by reflexivity. cbn [bind].
    rewrite tail1_skip by (auto; reflexivity).
    unfold tail2. rewrite Check_quiet by auto.
    rewrite ParseNull_literal. cbn [bind].
    now apply tail3_delim.
Qed.

Lemma allspace_at_level_zero (Level : nat) : allspace (at_level_zero Level) = true.
Proof. unfold at_level_zero. now destruct (Nat.eqb Level 0). Qed.

Lemma delim_after_level (Level : nat) (R : string) :
  delim R = true -> delim (at_level_zero Level ++ R) = true.
Proof. unfold at_level_zero. now destruct (Nat.eqb Level 0). Qed.

Lemma SkipSpace_after_level (Level : nat) (R : string) :
  isspace (peek R) = false -> SkipSpace (at_level_zero Level ++ R) = R.
Proof.
  intros H. rewrite SkipSpace_app by apply allspace_at_level_zero.
  now apply SkipSpace_stay.
Qed.

Section ArrayLoop.

Variable Level size : nat.
Variable cell : captured.
Variable tail : string.
Hypothesis cell_quiet : quiet cell.

(** The loop of [ParseArray] over the text of the elements still to come,
    [done] being the elements already pushed. *)
Lemma ArrayLoop_elements (todo : list Node) :
  Forall comes_back todo -> forallb printable todo = true -> todo <> [] ->
  forall (done : list Node) (fuel : nat) (ws : string) (Ty : ValueType.t),
    (list_sum (List.map (fun E => S (need E)) todo) <= fuel)%nat ->
    allspace ws = true ->
    size = (List.length done + List.length todo)%nat ->
    ArrayLoop fuel cell
      (ws ++ elements_text Level size (List.length done) todo ++ "]" ++ tail)
      (mkNode (v_string "") done [] Ty) =
    Ret (Error.None, tail, mkNode (v_string "") (done ++ todo) [] ValueType.Array).
Proof.
  induction todo as [|E l IH]; intros Hcb Hpr Hne done fuel ws Ty Hfuel Hws Hsize;
    [now destruct Hne|clear Hne].
  inversion Hcb as [|? ? HE Hl]; subst.
  cbn [forallb] in Hpr. apply andb_prop in Hpr as [HpE Hpl].
  change (S (need E) + list_sum (List.map (fun E => S (need E)) l) <= fuel)%nat in Hfuel.
  destruct fuel as [|fuel]; [lia|].
  cbn [elements_text]. rewrite !append_assoc.
  set (sep := if Nat.eqb (S (List.length done)) (List.length done + List.length (E :: l))
              then "" else ", ").
  set (R := sep ++ elements_text Level (List.length done + List.length (E :: l))
                     (S (List.length done)) l ++ "]" ++ tail).
  destruct (value_text_head ws Level E R HpE Hws) as (Hnul & c & s & Hskip & Hc).
  destruct (starter_facts c Hc) as (_ & _ & Hbr & _).
  assert (HR : (l = [] /\ R = "]" ++ tail) \/
               (l <> [] /\ R = ", " ++ elements_text Level
                   (List.length done + List.length (E :: l)) (S (List.length done)) l
                   ++ "]" ++ tail)).
  { unfold R, sep. destruct l as [|E' l'].
    - left. split; [reflexivity|]. cbn [List.length].
      replace (S (List.length done) =? List.length done + 1)%nat with true
        by (symmetry; apply Nat.eqb_eq; lia). reflexivity.
    - right. split; [discriminate|]. cbn [List.length].
      replace (S (List.length done) =? List.length done + S (S (List.length l')))%nat
        with false by (symmetry; apply Nat.eqb_neq; lia). reflexivity. }
  assert (HdR : delim R = true) by (destruct HR as [[_ ->]|[_ ->]]; reflexivity).
  assert (HsR : isspace (peek R) = false) by (destruct HR as [[_ ->]|[_ ->]]; reflexivity).
  rewrite ArrayLoop_S, Hnul. cbv zeta. rewrite Hskip. cbn [peek]. rewrite Hbr, andb_false_r.
  rewrite <- Hskip, Parse_SkipSpace.
  rewrite (HE Level fuel cell ws R cell_quiet ltac:(lia) Hws (delim_after_level _ _ HdR)).
  cbn [bind Error.eqb negb].
  rewrite SkipSpace_after_level by assumption.
  cbn [set_Type set_Array Array Variant Object Type_].
  destruct HR as [[-> HR]|[Hl' HR]].
  - rewrite HR. reflexivity.
  - rewrite HR. cbn [append peek advance].
    change (Ascii.eqb "," "]") with false. change (Ascii.eqb "," ",") with true.
    cbn [negb].
    change (String " " ?x) with (" " ++ x).
    replace (S (List.length done)) with (List.length (done ++ [E]))
      by (rewrite length_app; simpl; lia).
    replace (done ++ E :: l)%list with ((done ++ [E]) ++ l)%list
      by now rewrite <- app_assoc.
    apply (IH Hl Hpl Hl' (done ++ [E])%list fuel " " ValueType.Array);
      [lia|reflexivity|].
    rewrite length_app. simpl. lia.
Qed.

End ArrayLoop.

(** Arrays. *)
Lemma array_comes_back (Arr : Array_t) :
  Arr <> [] -> Forall comes_back Arr -> forallb printable Arr = true ->
  comes_back (mkNode (v_string "") Arr [] ValueType.Array).
Proof.
  intros Hne Hcb Hpr Level fuel cell ws rest Hq Hfuel Hws Hd.
  cbn [need] in Hfuel.
  destruct fuel as [|fuel]; [lia|].
  rewrite Parse_tail, print_Array, !append_assoc.
  rewrite SkipSpace_app by assumption.
  set (T := "[" ++ _).
  change (SkipSpace T) with T.
  rewrite ParseString_skip by reflexivity. cbn [bind].
  rewrite tail1_skip by (auto; reflexivity).
  rewrite tail2_skip by (auto; reflexivity).
  rewrite tail3_skip by (auto; reflexivity).
  rewrite tail4_skip by (auto; reflexivity).
  unfold tail5. rewrite Check_quiet by auto.
  unfold ParseArray_with, T. cbn [append peek advance].
  change (Ascii.eqb "[" "[") with true. cbv iota.
  change (elements_text Level (Datatypes.length Arr) 0 Arr ++ String "]" (at_level_zero Level ++ rest))
    with ("" ++ elements_text Level (Datatypes.length Arr) (List.length (@nil Node)) Arr
             ++ "]" ++ at_level_zero Level ++ rest).
  change Node_default with (mkNode (v_string "") [] [] ValueType.Object).
  rewrite (ArrayLoop_elements Level (List.length Arr) (nested cell Error.Undefined)
             (at_level_zero Level ++ rest) (nested_quiet _ _ Hq calm_Undefined)
             Arr Hcb Hpr Hne [] fuel "" ValueType.Object);
    [|lia|reflexivity|reflexivity].
  cbn [bind app]. now apply tail6_calm.
Qed.

(** *** Objects *)

(** Assigning a key above every key of the map appends the entry. *)
Lemma map_assign_last (done : Object_t) (Key : string) (V : Node) :
  Forall (fun N => key_lt (fst N) Key) done ->
  map_assign Key V done = (done ++ [(Key, V)])%list.
Proof.
  induction done as [|[k v] done IH]; intros H; [reflexivity|].
  inversion H as [|? ? Hk Hd]; subst. cbn [map_assign app].
  unfold key_lt in Hk. simpl in Hk.
  rewrite String.compare_antisym, Hk. cbn [CompOpp]. now rewrite IH.
Qed.

Lemma StronglySorted_before {A : Type} (R : A -> A -> Prop) (l1 : list A) (x : A) (l2 : list A) :
  StronglySorted R (l1 ++ x :: l2) -> Forall (fun y => R y x) l1.
Proof.
  induction l1 as [|y l1 IH]; cbn [app]; intros H; [constructor|].
  inversion H as [|? ? Hs Hf]; subst. constructor; [|now apply IH].
  rewrite Forall_forall in Hf. apply Hf. apply in_or_app. right. now left.
Qed.

Lemma keys_increasing_sorted (l : list string) :
  keys_increasing l = true -> StronglySorted key_lt l.
Proof.
  intros H. apply Sorted_StronglySorted; [exact KeyOrder.lt_trans|].
  induction l as [|a l IH]; [constructor|].
  cbn [keys_increasing] in H. destruct l as [|b l]; [repeat constructor|].
  apply andb_prop in H as [Hab Hl]. constructor; [now apply IH|].
  constructor. unfold String.ltb in Hab. unfold key_lt.
  destruct (String.compare a b); try discriminate. reflexivity.
Qed.

Section ObjectLoop.

Variable Level size : nat.
Variable cell : captured.
Variable tail : string.
Hypothesis cell_quiet : quiet cell.

(** The loop of [ParseObject] over the text of the members still to come,
    [done] being the members already assigned. *)
Lemma ObjectLoop_members (todo : Object_t) :
  Forall (fun N => comes_back (snd N)) todo ->
  forallb (fun N => quote_free (fst N) && printable (snd N)) todo = true ->
  todo <> [] ->
  forall (done : Object_t) (fuel : nat) (Ty : ValueType.t),
    StronglySorted key_lt (List.map fst (done ++ todo)) ->
    (list_sum (List.map (fun N => S (need (snd N))) todo) <= fuel)%nat ->
    size = (List.length done + List.length todo)%nat ->
    ObjectLoop fuel cell
      (endl ++ members_text Level size (List.length done) todo ++ Tabs Level ++ "}" ++ tail)
      (mkNode (v_string "") [] done Ty) =
    Ret (Error.None, tail, mkNode (v_string "") [] (done ++ todo) ValueType.Object).
Proof.
  induction todo as [|[k v] l IH]; intros Hcb Hpr Hne done fuel Ty Hsorted Hfuel Hsize;
    [now destruct Hne|clear Hne].
  inversion Hcb as [|? ? Hv Hl]; subst. cbn [snd] in Hv.
  cbn [forallb fst snd] in Hpr. apply andb_prop in Hpr as [Hkv Hpl].
  apply andb_prop in Hkv as [Hk Hpv].
  change (S (need v) + list_sum (List.map (fun N => S (need (snd N))) l) <= fuel)%nat in Hfuel.
  destruct fuel as [|fuel]; [lia|].
  set (size := (List.length done + List.length ((k, v) :: l))%nat).
  set (sep := if negb (Nat.eqb (S (List.length done)) size) then "," else "").
  set (R := sep ++ endl ++ members_text Level size (S (List.length done)) l
              ++ Tabs Level ++ "}" ++ tail).
  assert (HT : endl ++ members_text Level size (List.length done) ((k, v) :: l)
                 ++ Tabs Level ++ "}" ++ tail =
               (endl ++ Tabs (S Level)) ++
               String QUOT (k ++ String QUOT (": " ++ print (S Level) v ++ R))).
  { cbn [members_text]. unfold member_text. cbn [fst snd]. fold sep.
    unfold R. rewrite !append_assoc. cbn [append]. rewrite !append_assoc.
    cbn [append]. reflexivity. }
  rewrite HT.
  assert (HR : (l = [] /\ R = (endl ++ Tabs Level) ++ String "}" tail) \/
               (l <> [] /\ R = "," ++ endl ++ members_text Level size (S (List.length done)) l
                                 ++ Tabs Level ++ "}" ++ tail)).
  { unfold R, sep, size. destruct l as [|N' l'].
    - left. split; [reflexivity|]. cbn [List.length].
      replace (S (List.length done) =? List.length done + 1)%nat with true
        by (symmetry; apply Nat.eqb_eq; lia).
      cbn [negb members_text append]. now rewrite append_assoc.
    - right. split; [discriminate|]. cbn [List.length].
      replace (S (List.length done) =? List.length done + S (S (List.length l')))%nat
        with false by (symmetry; apply Nat.eqb_neq; lia). reflexivity. }
  assert (HdR : delim R = true) by (destruct HR as [[_ ->]|[_ ->]]; reflexivity).
  assert (Hdone : map_assign k v done = (done ++ [(k, v)])%list).
  { apply map_assign_last.
    rewrite map_app in Hsorted. cbn [List.map fst] in Hsorted.
    apply StronglySorted_before in Hsorted.
    rewrite Forall_map in Hsorted. exact Hsorted. }
  rewrite ObjectLoop_S.
  change (Ascii.eqb (peek ((endl ++ Tabs (S Level)) ++ _)) NUL) with false. cbv iota zeta.
  rewrite SkipSpace_lead;
    [|apply (allspace_app endl); [reflexivity|apply allspace_Tabs]|reflexivity].
  cbn [peek advance].
  change (Ascii.eqb QUOT "}") with false. change (Ascii.eqb QUOT QUOT) with true.
  cbv iota.
  rewrite ExtractString_quote_free by assumption. cbn [bind peek advance].
  change (Ascii.eqb QUOT QUOT) with true. cbn [negb append].
  change (SkipSpace (String ":" ?x)) with (String ":" x). cbn [peek advance].
  change (Ascii.eqb ":" ":") with true. cbn [negb].
  rewrite Parse_SkipSpace.
  change (String " " (print (S Level) v ++ R)) with (" " ++ print (S Level) v ++ R).
  rewrite (Hv (S Level) fuel cell " " R cell_quiet ltac:(lia) eq_refl HdR).
  cbn [bind Error.eqb negb at_level_zero Nat.eqb append].
  cbn [set_Type set_Object Object Array Variant Type_].
  rewrite Hdone.
  destruct HR as [[-> HR]|[Hl' HR]]; rewrite HR.
  - rewrite SkipSpace_lead;
      [|apply (allspace_app endl); [reflexivity|apply allspace_Tabs]|reflexivity].
    reflexivity.
  - cbn [append]. change (SkipSpace (String "," ?x)) with (String "," x).
    cbn [peek advance].
    change (Ascii.eqb "," "}") with false. change (Ascii.eqb "," ",") with true.
    cbn [negb].
    replace (done ++ (k, v) :: l)%list with ((done ++ [(k, v)]) ++ l)%list
      by now rewrite <- app_assoc.
    replace (S (List.length done)) with (List.length (done ++ [(k, v)]))
      by (rewrite length_app; simpl; lia).
    apply (IH Hl Hpl Hl' (done ++ [(k, v)])%list fuel ValueType.Object).
    + now rewrite <- app_assoc.
    + lia.
    + unfold size. rewrite length_app. simpl. lia.
Qed.

End ObjectLoop.

(** Objects. *)
Lemma object_comes_back (Obj : Object_t) :
  Obj <> [] ->
  Forall (fun N => comes_back (snd N)) Obj ->
  forallb (fun N => quote_free (fst N) && printable (snd N)) Obj = true ->
  keys_increasing (List.map fst Obj) = true ->
  comes_back (mkNode (v_string "") [] Obj ValueType.Object).
Proof.
  intros Hne Hcb Hpr Hkeys Level fuel cell ws rest Hq Hfuel Hws Hd.
  cbn [need] in Hfuel.
  destruct fuel as [|fuel]; [lia|].
  rewrite Parse_tail, print_Object, !append_assoc.
  rewrite <- (append_assoc ws), <- (append_assoc (ws ++ _)).
  cbn [append].
  rewrite SkipSpace_lead;
    [|apply allspace_app; [apply allspace_app; [assumption|now destruct (Nat.eqb Level 0)]
                          |apply allspace_Tabs]
     |reflexivity].
  rewrite ParseString_skip by reflexivity. cbn [bind].
  rewrite tail1_skip by (auto; reflexivity).
  rewrite tail2_skip by (auto; reflexivity).
  rewrite tail3_skip by (auto; reflexivity).
  unfold tail4. rewrite Check_quiet by auto.
  unfold ParseObject_with. cbn [peek advance].
  change (Ascii.eqb "{" "{") with true. cbv iota.
  match goal with
  | |- context [ObjectLoop ?f ?c ?P ?s] =>
      assert (Hloop : ObjectLoop f c P s =
                      Ret (Error.None, at_level_zero Level ++ rest,
                           mkNode (v_string "") [] ([] ++ Obj) ValueType.Object))
  end.
  { apply (ObjectLoop_members Level (List.length Obj) (nested cell Error.Undefined)
             (at_level_zero Level ++ rest) (nested_quiet _ _ Hq calm_Undefined)
             Obj Hcb Hpr Hne [] fuel ValueType.Object);
      [now apply keys_increasing_sorted|lia|reflexivity]. }
  rewrite Hloop.
  cbn [bind app]. now apply tail5_delim.
Qed.

Lemma forallb_Forall_impl {A : Type} (f : A -> bool) (P : A -> Prop) (l : list A) :
  Forall (fun x => f x = true -> P x) l -> forallb f l = true -> Forall P l.
Proof.
  induction 1 as [|x l Hx Hl IH]; cbn [forallb]; intros H; constructor;
    apply andb_prop in H as [H1 H2]; auto.
Qed.

(** Every printable tree, by induction on the tree. *)
Lemma printable_comes_back (Val : Node) : printable Val = true -> comes_back Val.
Proof.
  induction Val as [V Arr Obj Ty IHArr IHObj] using Node_ind.
  destruct Ty; cbn [printable]; intros H.
  - apply andb_prop in H as [H HO]. apply andb_prop in H as [HV HA].
    destruct Arr; [|discriminate]. destruct Obj; [|discriminate].
    now apply scalar_comes_back.
  - apply andb_prop in H as [H Hall]. apply andb_prop in H as [H Hne].
    apply andb_prop in H as [HV HO].
    destruct V as [[|? ?]| | | |]; try discriminate.
    destruct Obj; [|discriminate].
    apply array_comes_back; [now destruct Arr| |assumption].
    now apply (forallb_Forall_impl printable).
  - apply andb_prop in H as [H Hall]. apply andb_prop in H as [H Hkeys].
    apply andb_prop in H as [H Hne]. apply andb_prop in H as [HV HA].
    destruct V as [[|? ?]| | | |]; try discriminate.
    destruct Arr; [|discriminate].
    apply object_comes_back; [now destruct Obj| |assumption|assumption].
    apply (forallb_Forall_impl (fun N => quote_free (fst N) && printable (snd N)));
      [|assumption].
    eapply Forall_impl; [|exact IHObj].
    intros N HN HqN. apply HN. now apply andb_prop in HqN as [_ ?].
Qed.

(** The round trip from the entry point. *)
Lemma round_trip (Val : Node) (fuel : nat) :
  printable Val = true -> (need Val <= fuel)%nat ->
  Parse_top fuel (print 0 Val) Node_default = Ret (Error.None, endl, Val).
Proof.
  intros Hp Hfuel.
  pose proof (printable_comes_back Val Hp 0%nat fuel None "" "" I Hfuel eq_refl eq_refl) as H.
  cbn [append] in H. rewrite append_nil_r in H. exact H.
Qed.




(** ** Writing and reading through a key *)

Lemma compare_refl (a : string) : String.compare a a = Eq.
Proof.
  induction a as [|x a IH]; simpl; [reflexivity|].
  now rewrite KeyOrder.ascii_compare_refl.
Qed.

Lemma map_find_assign_same (Key : string) (V : Node) (m : Object_t) :
  map_find Key (map_assign Key V m) = Some V.
Proof.
  induction m as [|[k v] m IH]; cbn [map_assign map_find].
  - now rewrite compare_refl.
  - destruct (String.compare Key k) eqn:E; cbn [map_find].
    + now rewrite E.
    + now rewrite compare_refl.
    + now rewrite E.
Qed.

Lemma map_find_assign_other (Key Key' : string) (V : Node) (m : Object_t) :
  Key' <> Key -> map_find Key' (map_assign Key V m) = map_find Key' m.
Proof.
  intros Hne.
  assert (Hc : String.compare Key' Key <> Eq).
  { intros H. apply Hne. now apply String.compare_eq_iff. }
  induction m as [|[k v] m IH]; cbn [map_assign map_find].
  - destruct (String.compare Key' Key); [now destruct Hc|reflexivity|reflexivity].
  - destruct (String.compare Key k) eqn:E; cbn [map_find].
    + apply String.compare_eq_iff in E. subst k.
      destruct (String.compare Key' Key); [now destruct Hc|reflexivity|reflexivity].
    + destruct (String.compare Key' Key) eqn:E'; [now destruct Hc| |reflexivity].
      assert (H : key_lt Key' k) by (eapply KeyOrder.lt_trans; eassumption).
      unfold key_lt in H. now rewrite H.
    + destruct (String.compare Key' k); [reflexivity|reflexivity|assumption].
Qed.

Lemma map_assign_twice (Key : string) (V1 V2 : Node) (m : Object_t) :
  map_assign Key V2 (map_assign Key V1 m) = map_assign Key V2 m.
Proof.
  induction m as [|[k v] m IH]; cbn [map_assign].
  - now rewrite compare_refl.
  - destruct (String.compare Key k) eqn:E; cbn [map_assign].
    + now rewrite E.
    + now rewrite compare_refl.
    + now rewrite E, IH.
Qed.

Lemma map_find_subscript (Key : string) (m : Object_t) :
  map_find Key (fst (map_subscript Key m)) = Some (snd (map_subscript Key m)).
Proof.
  unfold map_subscript. destruct (map_find Key m) eqn:E; cbn [fst snd].
  - assumption.
  - apply map_find_assign_same.
Qed.

Lemma map_subscript_assign (Key : string) (V : Node) (m : Object_t) :
  map_subscript Key (map_assign Key V m) = (map_assign Key V m, V).
Proof. unfold map_subscript. now rewrite map_find_assign_same. Qed.

Lemma map_subscript_twice (Key : string) (m : Object_t) :
  fst (map_subscript Key (fst (map_subscript Key m))) = fst (map_subscript Key m).
Proof.
  unfold map_subscript. destruct (map_find Key m) eqn:E; cbn [fst].
  - now rewrite E.
  - now rewrite map_find_assign_same.
Qed.

Lemma index_key_eq (Key : string) (self : Node) :
  fst (index_key Key self) =
  mkNode (Variant self)
         (if ValueType.eqb (Type_ self) ValueType.Object then Array self else [])
         (Object_after_index_key Key self) ValueType.Object.
Proof.
  destruct self as [V A O T]. unfold index_key, Object_after_index_key.
  destruct T; reflexivity.
Qed.

Lemma through_key_eq (Key : string) (op : Node -> Node) (self : Node) :
  through_key Key op self =
  mkNode (Variant self)
         (if ValueType.eqb (Type_ self) ValueType.Object then Array self else [])
         (map_assign Key (op (snd (map_subscript Key (Object self))))
                     (Object_after_index_key Key self))
         ValueType.Object.
Proof.
  unfold through_key.
  pose proof (index_key_eq Key self) as H.
  destruct (index_key Key self) as [self' k]. cbn [fst] in H. subst self'.
  cbn [Object]. unfold Object_after_index_key. rewrite map_find_subscript.
  reflexivity.
Qed.

(** X1: writing through the key indexer and reading back.  After an
    operation has been applied through the reference the indexer returns
    for [Key], the member under [Key] is the result of the operation on the
    member that was there, or on a default-constructed node when there was
    none; the member under every other key is as it was; a second operation
    through the same key works on the result of the first; and the node is
    object-tagged. *)
Theorem X1_key_write_read (Key : string) (op : Node -> Node) (self : Node) :
  member_at Key (through_key Key op self) =
    Ret (op (snd (map_subscript Key (Object self)))) /\
  (forall Key', Key' <> Key ->
     map_find Key' (Object (through_key Key op self)) = map_find Key' (Object self)) /\
  (forall op', through_key Key op' (through_key Key op self) =
               through_key Key (fun N => op' (op N)) self) /\
  Type_ (through_key Key op self) = ValueType.Object.
Proof.
  rewrite !through_key_eq. unfold member_at. cbn [Object Type_].
  split; [now rewrite map_find_assign_same|].
  split; [|split; [|reflexivity]].
  - intros Key' Hne. rewrite map_find_assign_other by assumption.
    unfold Object_after_index_key, map_subscript.
    destruct (map_find Key (Object self)); cbn [fst]; [reflexivity|].
    now apply map_find_assign_other.
  - intros op'. rewrite !through_key_eq. cbn [Object Type_ Variant Array ValueType.eqb].
    match goal with
    | |- context [Object_after_index_key Key (mkNode ?a ?b ?c ?d)] =>
        replace (Object_after_index_key Key (mkNode a b c d)) with c
          by (unfold Object_after_index_key; cbn [Object];
              now rewrite map_subscript_assign)
    end.
    cbn [Object]. rewrite ?map_subscript_assign. cbn [fst snd].
    now rewrite map_assign_twice.
Qed.

(** X1, witness: a write under one key of a two-member object leaves the
    other member alone. *)
Lemma X1_key_write_read_witness :
  map_find "b" (Object (through_key "a" (assign_int 7) node_a_2_b_1)) =
  map_find "b" (Object node_a_2_b_1).
Proof.
  apply (proj1 (proj2 (X1_key_write_read "a" (assign_int 7) node_a_2_b_1))).
  discriminate.
Defined.

(** X2: the two indexers on one node.  Indexing by a key a second time
    changes nothing.  An integer index on a node that has been written
    through a key discards every member, so that an access through the key
    afterwards finds a default-constructed node; an index by key on a node
    that has been indexed by integer discards every element. *)
Theorem X2_indexers_switch (Key : string) (Index : Z) (op : Node -> Node) (self : Node) :
  index_key Key (fst (index_key Key self)) = index_key Key self /\
  Object (fst (index_int Index (through_key Key op self))) = [] /\
  member_at Key (fst (index_key Key (fst (index_int Index (through_key Key op self))))) =
    Ret Node_default /\
  Array (fst (index_key Key (fst (index_int Index self)))) = [].
Proof.
  split; [|split; [|split]].
  - change (index_key Key (fst (index_key Key self)))
      with (fst (index_key Key (fst (index_key Key self))), Key).
    change (index_key Key self) with (fst (index_key Key self), Key) at 2.
    f_equal. rewrite !index_key_eq.
    cbn [Variant Array Object Type_ ValueType.eqb]. f_equal.
    unfold Object_after_index_key. cbn [Object]. apply map_subscript_twice.
  - rewrite index_int_eq, through_key_eq.
    destruct (_ <=? _); reflexivity.
  - rewrite index_key_eq. unfold member_at. cbn [Object].
    rewrite index_int_eq, through_key_eq.
    unfold Object_after_index_key.
    destruct (_ <=? _);
      cbn [fst Object Object_after_index_int Type_ ValueType.eqb];
      rewrite map_find_subscript; reflexivity.
  - rewrite index_key_eq, index_int_eq.
    destruct (_ <=? _); reflexivity.
Qed.

(** ** Type tests and assignments *)

(** X3: on every node exactly one of the seven type tests answers yes. *)
Theorem X3_is_one_kind (self : Node) :
  exists T, Is T self = true /\ forall T', Is T' self = true -> T' = T.
Proof.
  destruct self as [V A O []]; cbn [Is Type_ Variant ValueType.eqb andb].
  - destruct V; [exists k_string|exists k_int|exists k_float|exists k_bool|exists k_nullptr];
      (split; [reflexivity|intros []; cbn; congruence]).
  - exists k_Array. split; [reflexivity|intros []; cbn; congruence].
  - exists k_Object. split; [reflexivity|intros []; cbn; congruence].
Qed.

(** X4: an assignment, then the type test and the accessor.  The type test
    answers yes for the kind assigned and for no other kind; the accessor of
    that kind returns the value assigned, a double as the float it narrows
    to; and an assignment on top of an assignment of the same sort (a scalar
    on a scalar, an array on an array) leaves the node the second
    assignment alone would leave. *)
Theorem X4_assign_then_test (a : assigned) (self : Node) :
  Is (kind_of (payload_of a)) (assign a self) = true /\
  Get (kind_of (payload_of a)) (assign a self) = Some (payload_of a) /\
  (forall T, Is T (assign a self) = true -> T = kind_of (payload_of a)) /\
  (forall b, is_container (kind_of (payload_of a)) = is_container (kind_of (payload_of b)) ->
             assign a (assign b self) = assign a self).
Proof.
  destruct self as [V A O Ty].
  split; [now destruct a|]. split; [now destruct a|]. split.
  - intros T. destruct a, T; cbn -[float_of_double]; intros H;
      first [reflexivity|discriminate H].
  - intros b. destruct a, b; cbn -[float_of_double]; intros H;
      first [reflexivity|discriminate H].
Qed.

(** X4, witness: an int assigned to a node that holds a string. *)
Lemma X4_assign_then_test_witness :
  assign (a_int 5) (assign (a_string "x") Node_default) = assign (a_int 5) Node_default.
Proof.
  apply (proj2 (proj2 (proj2 (X4_assign_then_test (a_int 5) Node_default))) (a_string "x")).
  reflexivity.
Defined.

(** ** Writing through an integer index *)

Lemma through_index_inside (Index : Z) (op : Node -> Node) (self : Node) :
  0 <= Index < Z.of_nat (List.length (Array self)) -> Index <= INT_MAX ->
  through_index Index op self =
  Ret (mkNode (Variant self) (list_update (Z.to_nat Index) op (Array self))
              (Object_after_index_int self) ValueType.Array).
Proof.
  intros H1 H2. unfold through_index. rewrite index_int_eq.
  rewrite (to_size_t_int Index) by (unfold INT_MAX in *; lia).
  destruct (Z.leb_spec (Z.of_nat (List.length (Array self))) Index); [lia|].
  reflexivity.
Qed.

Lemma list_update_last {A : Type} (f : A -> A) (l : list A) (x : A) :
  list_update (List.length l) f (l ++ [x]) = (l ++ [f x])%list.
Proof. induction l as [|y l IH]; cbn; [reflexivity|now rewrite IH]. Qed.

Lemma through_index_at_end (Index : Z) (op : Node -> Node) (self : Node) :
  Index = Z.of_nat (List.length (Array self)) -> Index <= INT_MAX ->
  through_index Index op self =
  Ret (mkNode (Variant self) (Array self ++ [op Node_default])
              (Object_after_index_int self) ValueType.Array).
Proof.
  intros H1 H2. unfold through_index. rewrite index_int_eq.
  rewrite (to_size_t_int Index) by (unfold INT_MAX in *; lia).
  destruct (Z.leb_spec (Z.of_nat (List.length (Array self))) Index); [|lia].
  destruct (Z.ltb_spec Index (Z.of_nat (List.length (Array self)) + 1)); [|lia].
  cbn [Array set_Array]. subst Index. rewrite Nat2Z.id, list_update_last. reflexivity.
Qed.

Lemma nth_error_list_update_same {A : Type} (f : A -> A) (l : list A) (i : nat) (d : A) :
  (i < List.length l)%nat -> nth_error (list_update i f l) i = Some (f (nth i l d)).
Proof.
  revert i. induction l as [|x l IH]; intros [|i] H; cbn in *; try lia; [reflexivity|].
  apply IH. lia.
Qed.

Lemma nth_error_list_update_other {A : Type} (f : A -> A) (l : list A) (i j : nat) :
  j <> i -> nth_error (list_update i f l) j = nth_error l j.
Proof.
  revert i j. induction l as [|x l IH]; intros [|i] [|j] H; cbn; try reflexivity;
    [congruence|]. apply IH. congruence.
Qed.

Lemma length_list_update {A : Type} (f : A -> A) (l : list A) (i : nat) :
  List.length (list_update i f l) = List.length l.
Proof.
  revert i. induction l as [|x l IH]; intros [|i]; cbn; try reflexivity. now rewrite IH.
Qed.

(** X5: writing through an integer index and reading back.  For an index
    from 0 to the length of the array, the write succeeds; the node is
    array-tagged and keeps its scalar slot; the element at the index is the
    result of the operation on the element that was there, or on a
    default-constructed node when the index is the length; every other
    element is as it was; and the array has grown by one exactly when the
    index was its length. *)
Theorem X5_index_write_read (Index : Z) (op : Node -> Node) (self : Node) :
  0 <= Index <= Z.of_nat (List.length (Array self)) -> Index <= INT_MAX ->
  exists self',
    through_index Index op self = Ret self' /\
    Type_ self' = ValueType.Array /\
    Variant self' = Variant self /\
    nth_error (Array self') (Z.to_nat Index) =
      Some (op (nth (Z.to_nat Index) (Array self) Node_default)) /\
    (forall j, j <> Z.to_nat Index ->
       nth_error (Array self') j = nth_error (Array self) j) /\
    List.length (Array self') = Nat.max (List.length (Array self)) (S (Z.to_nat Index)).
Proof.
  intros H1 H2.
  destruct (Z.eq_dec Index (Z.of_nat (List.length (Array self)))) as [He|Hne].
  - eexists. split; [now apply through_index_at_end|].
    cbn [Type_ Variant Array]. subst Index. rewrite Nat2Z.id.
    split; [reflexivity|]. split; [reflexivity|]. split; [|split].
    + rewrite nth_error_app2, Nat.sub_diag by lia.
      now rewrite nth_overflow by lia.
    + intros j Hj. destruct (Nat.lt_ge_cases j (List.length (Array self))).
      * now rewrite nth_error_app1.
      * rewrite (proj2 (nth_error_None (Array self) j)) by lia.
        apply nth_error_None. rewrite length_app. cbn. lia.
    + rewrite length_app. cbn. lia.
  - eexists. split; [apply through_index_inside; lia|].
    cbn [Type_ Variant Array].
    split; [reflexivity|]. split; [reflexivity|]. split; [|split].
    + apply nth_error_list_update_same. lia.
    + intros j Hj. now apply nth_error_list_update_other.
    + rewrite length_list_update. lia.
Qed.

(** X5, witness: the second element of a two-element array. *)
Lemma X5_index_write_read_witness :
  exists self',
    through_index 1 (assign_int 7) (Node_array [Node_int 1; Node_int 2]) = Ret self' /\
    Array self' = [Node_int 1; Node_int 7].
Proof.
  destruct (X5_index_write_read 1 (assign_int 7) (Node_array [Node_int 1; Node_int 2]))
    as (self' & H & _); [cbn; lia|unfold INT_MAX; lia|].
  exists self'. split; [exact H|].
  vm_compute in H. now injection H as <-.
Defined.

(** X6: assigning the nodes of a list to the indices that follow the end of
    the array, one after the other, appends the list to the array; the
    members of a node that was not array-tagged are discarded and its scalar
    slot stays. *)
Theorem X6_fill_builds_array (xs : list Node) (self : Node) :
  xs <> [] -> Z.of_nat (List.length (Array self) + List.length xs) <= INT_MAX + 1 ->
  fill_from (List.length (Array self)) xs self =
  Ret (mkNode (Variant self) (Array self ++ xs) (Object_after_index_int self)
              ValueType.Array).
Proof.
  revert self. induction xs as [|x xs IH]; intros self Hne Hlen; [now destruct Hne|].
  cbn [fill_from List.length] in *.
  rewrite through_index_at_end by (try reflexivity; lia).
  cbn [bind].
  destruct xs as [|y xs].
  - reflexivity.
  - set (node1 := mkNode _ _ _ _).
    replace (S (List.length (Array self))) with (List.length (Array node1))
      by (unfold node1; cbn [Array]; rewrite length_app; cbn; lia).
    rewrite IH; [|discriminate|].
    + unfold node1. cbn [Variant Array Object_after_index_int Type_ ValueType.eqb Object].
      now rewrite <- app_assoc.
    + unfold node1. cbn [Array List.length] in *. rewrite length_app. cbn [List.length]. lia.
Qed.

(** X6, witness: two nodes into a default-constructed node. *)
Lemma X6_fill_builds_array_witness :
  fill_from 0 [Node_int 1; Node_string "x"] Node_default =
  Ret (Node_array [Node_int 1; Node_string "x"]).
Proof.
  apply (X6_fill_builds_array [Node_int 1; Node_string "x"] Node_default).
  - discriminate.
  - vm_compute. discriminate.
Defined.

(** X7: an index beyond the end.  When the index, converted to [size_t],
    is above the length of the array, the indexer appends one
    default-constructed element and then subscripts the vector outside its
    bounds.  A negative [int] converts to a [size_t] of 2^64 plus the index,
    so this is the case of every negative index. *)
Theorem X7_index_beyond_end (Index : Z) (op : Node -> Node) (self : Node) :
  (Z.of_nat (List.length (Array self)) < to_size_t Index ->
   through_index Index op self = UB /\
   Array (fst (index_int Index self)) = (Array self ++ [Node_default])%list) /\
  (INT_MIN <= Index < 0 -> to_size_t Index = SIZE_MAX + 1 + Index).
Proof.
  split.
  - intros H. unfold through_index. rewrite index_int_eq.
    destruct (Z.leb_spec (Z.of_nat (List.length (Array self))) (to_size_t Index)); [|lia].
    destruct (Z.ltb_spec (to_size_t Index) (Z.of_nat (List.length (Array self)) + 1)); [lia|].
    split; reflexivity.
  - intros H. unfold to_size_t, SIZE_MAX, INT_MIN in *.
    rewrite <- (Z.mod_add Index 1) by lia.
    rewrite Z.mod_small by lia. lia.
Qed.

(** X7, witness: the index -1 on a one-element array. *)
Lemma X7_index_beyond_end_witness :
  through_index (-1) (assign_int 7) (Node_array [Node_int 1]) = UB /\
  to_size_t (-1) = SIZE_MAX.
Proof.
  split.
  - apply (proj1 (X7_index_beyond_end (-1) (assign_int 7) (Node_array [Node_int 1]))).
    vm_compute. reflexivity.
  - apply (proj2 (X7_index_beyond_end (-1) (assign_int 7) (Node_array [Node_int 1]))).
    unfold INT_MIN. lia.
Defined.

(** ** Texts that hold no value *)

Lemma Parse_no_production (fuel : nat) (cell : captured) (Position : string) (self : Node) :
  quiet cell -> no_production (SkipSpace Position) = true ->
  Parse (S fuel) cell Position self = Ret (Error.None, SkipSpace Position, self).
Proof.
  intros Hq H. unfold no_production in H.
  repeat (apply andb_prop in H as [H ?]).
  repeat match goal with
         | H : negb _ = true |- _ => apply negb_true_iff in H
         end.
  rewrite Parse_tail. rewrite ParseString_skip by assumption. cbn [bind].
  unfold tail1. rewrite Check_quiet by auto.
  unfold ParseBool.
  repeat match goal with H : String.prefix _ _ = false |- _ => rewrite H; clear H end.
  cbn [orb bind].
  unfold tail2. rewrite Check_quiet by auto.
  unfold ParseNull.
  repeat match goal with H : String.prefix _ _ = false |- _ => rewrite H; clear H end.
  cbn [bind].
  rewrite tail3_skip by auto.
  rewrite tail4_skip by auto.
  now rewrite tail5_skip by auto.
Qed.

(** X8: a text that holds no value, in the first activation of [Parse] in
    the program and in the activations nested in it (the cell of [Check]
    holds no fault).  When, after the leading spaces, the text starts no
    string, no literal, no number, no object and no array (the empty text
    is one such), [Parse] returns the no-fault code, leaves the cursor
    after the spaces and leaves the node as it was; the stream extraction
    that starts the first activation throws nothing. *)
Theorem X8_no_production_is_no_fault (fuel : nat) (cell : captured) (Position : string)
        (self : Node) :
  quiet cell -> no_production (SkipSpace Position) = true ->
  Parse (S fuel) cell Position self = Ret (Error.None, SkipSpace Position, self) /\
  (cell = None -> extract (S fuel) Position self = Ret (Filled self)).
Proof.
  intros Hq H.
  pose proof (Parse_no_production fuel cell Position self Hq H) as HP.
  split; [exact HP|].
  intros ->. unfold extract, Parse_top. now rewrite HP.
Qed.

(** X8, witness: the empty text, and a text that starts like a literal. *)
Lemma X8_no_production_is_no_fault_witness :
  Parse 1 None "" Node_default = Ret (Error.None, "", Node_default) /\
  extract 1 " tru}" (Node_int 3) = Ret (Filled (Node_int 3)).
Proof.
  split.
  - apply (proj1 (X8_no_production_is_no_fault 0 None "" Node_default I eq_refl)).
  - apply (proj2 (X8_no_production_is_no_fault 0 None " tru}" (Node_int 3) I eq_refl)).
    reflexivity.
Defined.

(** ** The codes of the entry point *)

Lemma ExtractString_at_quote (P Str P' : string) :
  ExtractString P = Ret (Str, P') ->
  Ascii.eqb (peek P') QUOT = true /\ P = Str ++ P'.
Proof.
  revert Str P'. induction P as [|c P IH]; intros Str P'; cbn [ExtractString];
    [discriminate|].
  destruct (Ascii.eqb c QUOT) eqn:E.
  - intros [= <- <-]. now split.
  - destruct (ExtractString P) as [[s p]| |]; cbn [bind]; try discriminate.
    intros [= <- <-]. destruct (IH s p eq_refl) as [H1 H2].
    split; [exact H1|]. cbn [append]. now rewrite <- H2.
Qed.

Lemma ParseString_code (P : string) (self : Node) (r : parsed) :
  ParseString P self = Ret r -> calm (fst (fst r)).
Proof.
  unfold ParseString. destruct (Ascii.eqb (peek P) QUOT); [|intros [= <-]; now right].
  destruct (ExtractString (advance P)) as [[s p]| |] eqn:E; cbn [bind]; try discriminate.
  apply ExtractString_at_quote in E as [-> _]. cbn [negb].
  intros [= <-]. now left.
Qed.

Lemma ParseBool_code (P : string) (self : Node) (r : parsed) :
  ParseBool P self = Ret r -> calm (fst (fst r)).
Proof.
  unfold ParseBool. destruct (_ || _); intros [= <-]; [now left|now right].
Qed.

Lemma ParseNull_code (P : string) (self : Node) (r : parsed) :
  ParseNull P self = Ret r -> calm (fst (fst r)).
Proof.
  unfold ParseNull. destruct (String.prefix _ _); intros [= <-]; [now left|now right].
Qed.

Lemma ParseNumber_code (P : string) (self : Node) (r : parsed) :
  ParseNumber P self = Ret r -> calm (fst (fst r)) \/ fst (fst r) = Error.InvalidNumber.
Proof.
  rewrite ParseNumber_assembled.
  destruct (assembled P) as [[[P1|[Num P1]]|]| |]; cbn [bind]; try discriminate.
  - intros [= <-]. now right.
  - destruct (integral Num).
    + destruct (int_of_double Num); cbn [bind]; try discriminate.
      intros [= <-]. left. now left.
    + intros [= <-]. left. now left.
  - intros [= <-]. left. now right.
Qed.

Lemma loops_code (fuel : nat) :
  forall (e : Error.t) (P : string) (self : Node) (r : parsed), calm e ->
    (ObjectLoop fuel (Some e) P self = Ret r -> loop_code (fst (fst r)) = true) /\
    (ArrayLoop fuel (Some e) P self = Ret r -> loop_code (fst (fst r)) = true).
Proof.
  induction fuel as [|fuel IH]; intros e P self r He; [split; discriminate|].
  split.
  - rewrite ObjectLoop_S.
    destruct (Ascii.eqb (peek P) NUL); [now intros [= <-]|]. cbv zeta.
    destruct (Ascii.eqb (peek (SkipSpace P)) "}"); [now intros [= <-]|].
    destruct (Ascii.eqb (peek (SkipSpace P)) QUOT); [|apply (IH e _ _ _ He)].
    destruct (ExtractString _) as [[Name p]| |] eqn:E; cbn [bind]; try discriminate.
    apply ExtractString_at_quote in E as [-> _]. cbn [negb].
    destruct (negb (Ascii.eqb (peek (SkipSpace (advance p))) ":")); [now intros [= <-]|].
    destruct (Parse fuel (Some e) _ Node_default) as [[[Err p'] New]| |] eqn:EP;
      cbn [bind]; try discriminate.
    apply (nested_Parse_no_fault _ _ _ _ _ He) in EP. cbn [fst] in EP. subst Err.
    cbn [Error.eqb negb].
    destruct (Ascii.eqb (peek (SkipSpace p')) "}"); [now intros [= <-]|].
    destruct (negb (Ascii.eqb (peek (SkipSpace p')) ",")); [now intros [= <-]|].
    apply (IH e _ _ _ He).
  - rewrite ArrayLoop_S.
    destruct (Ascii.eqb (peek P) NUL); [now intros [= <-]|]. cbv zeta.
    destruct (_ && _)%bool; [now intros [= <-]|].
    destruct (Parse fuel (Some e) _ Node_default) as [[[Err p'] New]| |] eqn:EP;
      cbn [bind]; try discriminate.
    apply (nested_Parse_no_fault _ _ _ _ _ He) in EP. cbn [fst] in EP. subst Err.
    cbn [Error.eqb negb].
    destruct (Ascii.eqb (peek (SkipSpace p')) "]"); [now intros [= <-]|].
    destruct (negb (Ascii.eqb (peek (SkipSpace p')) ",")); [now intros [= <-]|].
    apply (IH e _ _ _ He).
Qed.

Lemma Check_calm (Err : Error.t) : calm Err -> Check None Err = false.
Proof. intros [->| ->]; reflexivity. Qed.

Lemma first_Parse_code (fuel : nat) (Position : string) (self : Node) (r : parsed) :
  Parse fuel None Position self = Ret r -> reported (fst (fst r)) = true.
Proof.
  destruct fuel as [|fuel]; [discriminate|].
  rewrite Parse_tail.
  destruct (ParseString _ _) as [[[e1 p1] s1]| |] eqn:E1; cbn [bind]; try discriminate.
  apply ParseString_code in E1. cbn [fst] in E1.
  unfold tail1. rewrite Check_calm by assumption.
  destruct (ParseBool _ _) as [[[e2 p2] s2]| |] eqn:E2; cbn [bind]; try discriminate.
  apply ParseBool_code in E2. cbn [fst] in E2.
  unfold tail2. rewrite Check_calm by assumption.
  destruct (ParseNull _ _) as [[[e3 p3] s3]| |] eqn:E3; cbn [bind]; try discriminate.
  apply ParseNull_code in E3. cbn [fst] in E3.
  unfold tail3. rewrite Check_calm by assumption.
  destruct (ParseNumber _ _) as [[[e4 p4] s4]| |] eqn:E4; cbn [bind]; try discriminate.
  apply ParseNumber_code in E4. cbn [fst] in E4.
  unfold tail4. destruct E4 as [E4| ->]; [|now intros [= <-]].
  rewrite Check_calm by assumption. cbn [nested].
  destruct (ParseObject_with _ _ _) as [[[e5 p5] s5]| |] eqn:E5; cbn [bind];
    try discriminate.
  assert (H5 : loop_code e5 = true).
  { unfold ParseObject_with in E5. destruct (Ascii.eqb (peek p4) "{").
    - now apply (proj1 (loops_code fuel e4 _ _ _ E4)) in E5.
    - now injection E5 as <- _ _. }
  unfold tail5. destruct (Check None e5) eqn:C5.
  { intros [= <-]. cbn [fst]. now destruct e5. }
  apply Check_own in C5. cbn [nested].
  destruct (ParseArray_with _ _ _) as [[[e6 p6] s6]| |] eqn:E6; cbn [bind];
    try discriminate.
  assert (H6 : loop_code e6 = true).
  { unfold ParseArray_with in E6. destruct (Ascii.eqb (peek p5) "[").
    - now apply (proj2 (loops_code fuel e5 _ _ _ C5)) in E6.
    - now injection E6 as <- _ _. }
  unfold tail6. destruct (Check None e6) eqn:C6.
  - intros [= <-]. cbn [fst]. now destruct e6.
  - now intros [= <-].
Qed.

(** X9: the codes of the entry point, when it is the first activation of
    [Parse] in the program.  Whatever the text and the node, that
    activation returns no code other than [None], [InvalidNumber],
    [MissedColon] and [MissedComma], and the stream extraction that starts
    it throws no code other than the last three; each of the three is
    thrown by it for some text.  [InvalidString], [MissedQuot],
    [MissedBracket], [MissedBrace] and [Undefined] never leave that
    activation. *)
Theorem X9_codes_of_the_entry_point :
  (forall fuel Str Val r,
     Parse_top fuel Str Val = Ret r -> reported (fst (fst r)) = true) /\
  (forall fuel Str Val E Val',
     extract fuel Str Val = Ret (Thrown E Val') ->
     E = Error.InvalidNumber \/ E = Error.MissedColon \/ E = Error.MissedComma) /\
  (forall fuel, extract (1 + fuel) "1." Node_default =
                Ret (Thrown Error.InvalidNumber Node_default)) /\
  (forall fuel, extract (2 + fuel) ("{" ++ quoted "a" ++ "1}") Node_default =
                Ret (Thrown Error.MissedColon Node_default)) /\
  (forall fuel, extract (3 + fuel) "[1 2]" Node_default =
                Ret (Thrown Error.MissedComma (Node_array []))).
Proof.
  split; [exact first_Parse_code|]. split; [|repeat split; run].
  intros fuel Str Val E Val'. unfold extract.
  destruct (Parse_top fuel Str Val) as [[[E0 p] v]| |] eqn:EP; cbn [bind]; try discriminate.
  apply first_Parse_code in EP. cbn [fst] in EP.
  destruct E0; try discriminate; cbn [Error.eqb negb]; intros [= <- _]; auto.
Qed.

(** X9, witness: the code returned for an object cut before its closing
    brace. *)
Lemma X9_codes_of_the_entry_point_witness :
  reported (fst (fst (Error.MissedComma, "", Node_default))) = true.
Proof.
  apply (proj1 X9_codes_of_the_entry_point 3%nat text_a_1_open Node_default).
  vm_compute. reflexivity.
Defined.

(** ** Texts with no closing quote *)

Lemma ExtractString_no_quote (s : string) :
  quote_free s = true -> ExtractString s = UB.
Proof.
  induction s as [|c s IH]; cbn [quote_free ExtractString]; [reflexivity|].
  intros H. apply andb_prop in H as [Hc Hs]. apply negb_true_iff in Hc.
  rewrite Hc, (IH Hs). reflexivity.
Qed.

(** X10: a string with no closing quote.  On an opening quote followed by
    a text that holds no quote, [ExtractString] walks over the terminator:
    [ParseString] reads outside the buffer, and so do [Parse] and the stream
    extraction on such a text after any spaces, and [Parse] on an object
    whose first key is such a text.  The code [MissedQuot] is not returned. *)
Theorem X10_unterminated_string (fuel : nat) (cell : captured) (ws s : string) (self : Node) :
  allspace ws = true -> quote_free s = true ->
  ParseString (String QUOT s) self = UB /\
  Parse (S fuel) cell (ws ++ String QUOT s) self = UB /\
  Parse_top (S (S fuel)) ("{" ++ ws ++ String QUOT s) self = UB /\
  extract (S fuel) (ws ++ String QUOT s) self = UB.
Proof.
  intros Hws Hs.
  assert (H1 : ParseString (String QUOT s) self = UB).
  { unfold ParseString. cbn [peek advance].
    change (Ascii.eqb QUOT QUOT) with true. cbv iota.
    now rewrite ExtractString_no_quote. }
  assert (H2 : forall cell, Parse (S fuel) cell (ws ++ String QUOT s) self = UB).
  { intros c. rewrite Parse_tail, SkipSpace_lead by (auto; reflexivity).
    now rewrite H1. }
  split; [exact H1|]. split; [apply H2|]. split.
  - unfold Parse_top. rewrite Parse_tail. cbn [append].
    change (SkipSpace (String "{" ?x)) with (String "{" x).
    rewrite ParseString_skip by reflexivity. cbn [bind].
    rewrite tail1_skip by (auto; reflexivity).
    rewrite tail2_skip by (auto; reflexivity).
    rewrite tail3_skip by (auto; reflexivity).
    unfold tail4. cbn [Check Error.eqb negb andb nested].
    unfold ParseObject_with. cbn [peek advance].
    change (Ascii.eqb "{" "{") with true. cbv iota.
    rewrite ObjectLoop_S.
    destruct (Ascii.eqb (peek (ws ++ String QUOT s)) NUL) eqn:EN.
    { rewrite peek_lead in EN by (auto; reflexivity). discriminate. }
    cbv zeta. rewrite SkipSpace_lead by (auto; reflexivity).
    cbn [peek advance].
    change (Ascii.eqb QUOT "}") with false. change (Ascii.eqb QUOT QUOT) with true.
    cbv iota. now rewrite ExtractString_no_quote.
  - unfold extract, Parse_top. now rewrite H2.
Qed.

(** X10, witness: the text of abc with an opening quote only. *)
Lemma X10_unterminated_string_witness :
  Parse 1 None text_abc_open Node_default = UB.
Proof.
  apply (proj1 (proj2 (X10_unterminated_string 0 None "" "abc" Node_default eq_refl eq_refl))).
Defined.

(** ** Numbers outside [int], and malformed numbers *)

Lemma int_result_above (z : Z) : INT_MAX < z -> int_result z = UB.
Proof.
  intros H. unfold int_result, in_int.
  replace (z <=? INT_MAX) with false by (symmetry; apply Z.leb_gt; lia).
  now rewrite andb_false_r.
Qed.

Lemma ExtractInt_overflow (d : Decimal.uint) (N : Z) (P : string) :
  0 <= N <= INT_MAX -> INT_MAX < digits_value d N ->
  ExtractInt_from N (NilEmpty.string_of_uint d ++ P) = UB.
Proof.
  revert N. induction d; intros N HN Hmax; cbn [NilEmpty.string_of_uint append digits_value] in *;
    [lia|..];
    cbn [ExtractInt_from];
    match goal with |- context [isdigit ?c] => change (isdigit c) with true; cbv iota end;
    match goal with |- context [digit_value ?c] =>
      let v := eval vm_compute in (digit_value c) in change (digit_value c) with v end;
    match goal with |- context [int_result ?z] =>
      destruct (Z_le_gt_dec z INT_MAX);
        [rewrite int_result_in by (unfold INT_MIN; lia); cbn [bind]; apply IHd; [lia|assumption]
        |rewrite int_result_above by lia; reflexivity]
    end.
Qed.

Lemma uint_head (d : Decimal.uint) :
  d <> Decimal.Nil ->
  exists c s, NilEmpty.string_of_uint d = String c s /\ isdigit c = true.
Proof.
  destruct d; intros H; [now destruct H|..]; cbn [NilEmpty.string_of_uint];
    eexists; eexists; (split; [reflexivity|reflexivity]).
Qed.

(** X11: a run of decimal digits whose value is above [INT_MAX]
    overflows the [int] accumulator of [ExtractInt], which is undefined;
    so are [ParseNumber] and [Parse] on such a run, with or without a sign
    in front. *)
Theorem X11_int_overflow (Neg : bool) (d : Decimal.uint) (P : string) (self : Node) :
  INT_MAX < digits_value d 0 ->
  ExtractInt (NilEmpty.string_of_uint d ++ P) = UB /\
  ParseNumber ((if Neg then "-" else "") ++ NilEmpty.string_of_uint d ++ P) self = UB /\
  (forall fuel cell, quiet cell ->
     Parse (S fuel) cell ((if Neg then "-" else "") ++ NilEmpty.string_of_uint d ++ P) self
     = UB).
Proof.
  intros H.
  assert (HE : ExtractInt (NilEmpty.string_of_uint d ++ P) = UB)
    by (apply ExtractInt_overflow; [unfold INT_MAX; lia|assumption]).
  assert (Hd : d <> Decimal.Nil) by (intros ->; cbn in H; unfold INT_MAX in H; lia).
  destruct (uint_head d Hd) as (c & s & Hcs & Hc).
  destruct (digit_facts c Hc) as (Hq & Ht & Hf & Hn & Hm & Hdc & Hsp).
  assert (HN : ParseNumber ((if Neg then "-" else "") ++ NilEmpty.string_of_uint d ++ P) self
               = UB).
  { unfold ParseNumber. destruct Neg; cbn [append peek advance].
    - change (Ascii.eqb "-" "-") with true. cbn [orb]. cbv iota.
      now rewrite HE.
    - rewrite Hcs in *. cbn [append peek] in *. rewrite Hm, Hdc. cbn [orb]. cbv iota.
      now rewrite HE. }
  split; [exact HE|]. split; [exact HN|].
  intros fuel cell Hq'. rewrite Parse_tail.
  assert (Hhead : exists c' s', (if Neg then "-" else "")%string ++ NilEmpty.string_of_uint d ++ P
                                = String c' s' /\
                                Ascii.eqb c' QUOT = false /\ Ascii.eqb c' "t" = false /\
                                Ascii.eqb c' "f" = false /\ Ascii.eqb c' "n" = false /\
                                isspace c' = false).
  { destruct Neg; cbn [append].
    - eexists; eexists; split; [reflexivity|]. repeat split.
    - rewrite Hcs. cbn [append]. eexists; eexists; split; [reflexivity|]. auto. }
  destruct Hhead as (c' & s' & Htext & Hq1 & Ht1 & Hf1 & Hn1 & Hs1).
  rewrite Htext in *.
  rewrite SkipSpace_stay by assumption.
  rewrite ParseString_skip by assumption. cbn [bind].
  rewrite tail1_skip by auto.
  rewrite tail2_skip by auto.
  unfold tail3. rewrite Check_quiet by auto.
  now rewrite HN.
Qed.

(** X11, witness: the text of the least [int]. *)
Lemma X11_int_overflow_witness :
  ParseNumber "-2147483648" Node_default = UB.
Proof.
  apply (proj1 (proj2 (X11_int_overflow true
           (Decimal.D2 (Decimal.D1 (Decimal.D4 (Decimal.D7 (Decimal.D4 (Decimal.D8
             (Decimal.D3 (Decimal.D6 (Decimal.D4 (Decimal.D8 Decimal.Nil))))))))))
           "" Node_default ltac:(vm_compute; reflexivity)))).
Defined.

Lemma ParseNumber_whole (Neg : bool) (d : Decimal.uint) (R : string) (self : Node) :
  d <> Decimal.Nil -> digits_value d 0 <= INT_MAX -> isdigit (peek R) = false ->
  ParseNumber (signed_digits Neg d ++ R) self =
    let Position := R in
    let Number := double_of_int (digits_value d 0) in
    let frac :=
      if Ascii.eqb (peek Position) "." then
        let Position := advance Position in
        if negb (is_digit_char (peek Position)) then inl Position
        else
          let '(D, Position) := ExtractDec Position in
          inr (dadd Number D, Position)
      else inr (Number, Position) in
    match frac with
    | inl Position => Ret (Error.InvalidNumber, Position, self)
    | inr (Number, Position) =>
        let* expo :=
          if Ascii.eqb (peek Position) "e" || Ascii.eqb (peek Position) "E" then
            let Position := advance Position in
            let ExpNeg := Ascii.eqb (peek Position) "-" in
            let Position := if ExpNeg then advance Position else Position in
            if negb (is_digit_char (peek Position)) then Ret (inl Position)
            else
              let* (Exponent, Position) := ExtractInt Position in
              let* Exponent := int_result (Exponent * (if ExpNeg then -1 else 1)) in
              Ret (inr (dmul Number (pow10 Exponent), Position))
          else Ret (inr (Number, Position)) in
        match expo with
        | inl Position => Ret (Error.InvalidNumber, Position, self)
        | inr (Number, Position) =>
            let Number := dmul Number (double_of_int (if Neg then -1 else 1)) in
            if deqb (round Number) Number then
              let self := set_Type ValueType.Variant self in
              let* Cast := int_of_double Number in
              Ret (Error.None, Position, set_Variant (v_int Cast) self)
            else
              let self := set_Type ValueType.Variant self in
              Ret (Error.None, Position,
                   set_Variant (v_float (float_of_double Number)) self)
        end
    end.
Proof.
  intros Hd Hmax HR.
  assert (HE : ExtractInt (NilEmpty.string_of_uint d ++ R) = Ret (digits_value d 0, R))
    by (apply ExtractInt_digits; [lia|assumption|assumption]).
  destruct (uint_head d Hd) as (c & s & Hcs & Hc).
  destruct (digit_facts c Hc) as (Hq & Ht & Hf & Hn & Hm & Hdc & Hsp).
  unfold signed_digits, ParseNumber. rewrite append_assoc.
  destruct Neg; cbn [append peek advance].
  - change (Ascii.eqb "-" "-") with true. cbn [orb]. cbv iota.
    rewrite HE. reflexivity.
  - rewrite Hcs in *. cbn [append peek] in *. rewrite Hm, Hdc. cbn [orb]. cbv iota.
    rewrite HE. reflexivity.
Qed.

(** X12: malformed numbers.  After a run of digits that fits [int], with or
    without a sign in front, a point that no digit follows, and an exponent
    marker (in either case, with or without a minus sign) that no digit
    follows, make [ParseNumber] return [InvalidNumber] with the cursor after
    the marker and the node as it was; a plus sign after the exponent marker
    is such a case.  The stream extraction that starts the first activation
    of [Parse] in the program throws [InvalidNumber] on the text with the
    point. *)
Theorem X12_malformed_number (Neg upper : bool) (d : Decimal.uint) (P : string) (self : Node) :
  d <> Decimal.Nil -> digits_value d 0 <= INT_MAX -> is_digit_char (peek P) = false ->
  ParseNumber (signed_digits Neg d ++ "." ++ P) self =
    Ret (Error.InvalidNumber, P, self) /\
  (Ascii.eqb (peek P) "-" = false ->
   ParseNumber (signed_digits Neg d ++ exponent_marker upper ++ P) self =
     Ret (Error.InvalidNumber, P, self)) /\
  ParseNumber (signed_digits Neg d ++ exponent_marker upper ++ "-" ++ P) self =
    Ret (Error.InvalidNumber, P, self) /\
  (forall fuel,
     extract (S fuel) (signed_digits Neg d ++ "." ++ P) self =
     Ret (Thrown Error.InvalidNumber self)).
Proof.
  intros Hd Hmax HP.
  assert (H1 : ParseNumber (signed_digits Neg d ++ "." ++ P) self =
               Ret (Error.InvalidNumber, P, self)).
  { rewrite ParseNumber_whole by (auto; reflexivity).
    cbn [append peek advance]. char_tests. cbv iota zeta. now rewrite HP. }
  split; [exact H1|]. split; [|split].
  - intros Hm. rewrite ParseNumber_whole by (auto; now destruct upper).
    destruct upper; cbn [exponent_marker append peek advance]; char_tests;
      cbn [orb]; cbv iota zeta; cbn [peek advance]; rewrite Hm; cbv iota;
      rewrite HP; reflexivity.
  - rewrite ParseNumber_whole by (auto; now destruct upper).
    destruct upper; cbn [exponent_marker append peek advance]; char_tests;
      cbn [orb]; cbv iota zeta; cbn [peek advance]; char_tests; cbv iota;
      cbn [peek advance]; rewrite HP; reflexivity.
  - intros fuel. unfold extract, Parse_top. rewrite Parse_tail.
    destruct (uint_head d Hd) as (c & s & Hcs & Hc).
    destruct (digit_facts c Hc) as (Hq & Ht & Hf & Hn & Hm & Hdc & Hsp).
    assert (Hhead : exists c' s', signed_digits Neg d ++ "." ++ P = String c' s' /\
                                  Ascii.eqb c' QUOT = false /\ Ascii.eqb c' "t" = false /\
                                  Ascii.eqb c' "f" = false /\ Ascii.eqb c' "n" = false /\
                                  isspace c' = false).
    { unfold signed_digits. destruct Neg; cbn [append].
      - eexists; eexists; split; [reflexivity|]. repeat split.
      - rewrite Hcs. cbn [append]. eexists; eexists; split; [reflexivity|]. auto. }
    destruct Hhead as (c' & s' & Htext & Hq1 & Ht1 & Hf1 & Hn1 & Hs1).
    rewrite Htext in *.
    rewrite SkipSpace_stay by assumption.
    rewrite ParseString_skip by assumption. cbn [bind].
    rewrite tail1_skip by (auto; exact I).
    rewrite tail2_skip by (auto; exact I).
    unfold tail3. cbn [Check Error.eqb negb andb].
    rewrite H1. reflexivity.
Qed.

(** X12, witness: a point before a letter, and an exponent with a plus
    sign. *)
Lemma X12_malformed_number_witness :
  ParseNumber "-12.x" Node_default = Ret (Error.InvalidNumber, "x", Node_default) /\
  ParseNumber "12e+5" Node_default = Ret (Error.InvalidNumber, "+5", Node_default).
Proof.
  split.
  - apply (proj1 (X12_malformed_number true false (Decimal.D1 (Decimal.D2 Decimal.Nil))
                    "x" Node_default ltac:(discriminate) ltac:(vm_compute; discriminate)
                    eq_refl)).
  - apply (proj1 (proj2 (X12_malformed_number false false (Decimal.D1 (Decimal.D2 Decimal.Nil))
                    "+5" Node_default ltac:(discriminate) ltac:(vm_compute; discriminate)
                    eq_refl)) eq_refl).
Defined.

(** ** A loop that never leaves *)

Lemma ObjectLoop_spins (fuel : nat) (cell : captured) (Position : string) (self : Node) :
  Ascii.eqb (peek Position) NUL = false ->
  spins (peek (SkipSpace Position)) = true ->
  ObjectLoop fuel cell Position self = OutOfFuel.
Proof.
  revert Position. induction fuel as [|fuel IH]; intros Position HN Hs; [reflexivity|].
  rewrite ObjectLoop_S, HN. cbv zeta.
  pose proof Hs as Hs'. unfold spins in Hs'.
  repeat (apply andb_prop in Hs' as [Hs' ?]).
  repeat match goal with
         | H : negb _ = true |- _ => apply negb_true_iff in H
         end.
  repeat match goal with H : Ascii.eqb _ _ = false |- _ => rewrite H end.
  apply IH; [assumption|now rewrite SkipSpace_idem].
Qed.

(** X13: a loop that never leaves.  Inside an object, when the cursor is
    not on the terminator and the first character after the spaces is
    neither the terminator, nor a closing brace, nor a quote, the loop of
    [ParseObject] goes round without moving the cursor, in whichever
    activation: whatever the fuel, the loop runs out of it.  So do [Parse]
    on the text of the object, in the first activation of [Parse] in the
    program and in the activations nested in it (the cell of [Check] holds
    no fault), and the stream extraction that starts the first
    activation. *)
Theorem X13_object_loop_never_returns (fuel : nat) (cell : captured) (Position : string)
        (self : Node) :
  Ascii.eqb (peek Position) NUL = false ->
  spins (peek (SkipSpace Position)) = true ->
  ObjectLoop fuel cell Position self = OutOfFuel /\
  (quiet cell -> Parse fuel cell ("{" ++ Position) self = OutOfFuel) /\
  extract fuel ("{" ++ Position) self = OutOfFuel.
Proof.
  intros HN Hs.
  assert (HP : forall cell, quiet cell -> Parse fuel cell ("{" ++ Position) self = OutOfFuel).
  { intros c Hq. destruct fuel as [|fuel]; [reflexivity|].
    rewrite Parse_tail. cbn [append].
    change (SkipSpace (String "{" ?x)) with (String "{" x).
    rewrite ParseString_skip by reflexivity. cbn [bind].
    rewrite tail1_skip by (auto; reflexivity).
    rewrite tail2_skip by (auto; reflexivity).
    rewrite tail3_skip by (auto; reflexivity).
    unfold tail4. rewrite Check_quiet by auto.
    unfold ParseObject_with. cbn [peek advance].
    change (Ascii.eqb "{" "{") with true. cbv iota.
    now rewrite ObjectLoop_spins. }
  split; [now apply ObjectLoop_spins|]. split; [apply HP|].
  unfold extract, Parse_top. now rewrite HP.
Qed.

(** X13, witness: an object that starts with a letter. *)
Lemma X13_object_loop_never_returns_witness :
  extract 1000 "{x}" Node_default = OutOfFuel.
Proof.
  apply (proj2 (proj2 (X13_object_loop_never_returns 1000 None "x}" Node_default
                         eq_refl eq_refl))).
Defined.

(** ** Slots with no value *)

Lemma peek_ws (ws : string) (c : ascii) (s : string) :
  allspace ws = true -> Ascii.eqb c NUL = false ->
  Ascii.eqb (peek (ws ++ String c s)) NUL = false.
Proof.
  destruct ws as [|w ws]; cbn [append peek allspace]; [auto|].
  intros H _. apply andb_prop in H as [H _]. now apply isspace_not_NUL.
Qed.

(** X14: slots with no value, in the first activation of [Parse] in the
    program and in the activations nested in it (the cell of [Check] holds
    no fault).  In an array that has an element already, a closing bracket
    where an element is expected (after a trailing comma) pushes a
    default-constructed element and closes the array; a comma where an
    element is expected pushes a default-constructed element and goes on
    with the next slot.  In an object, a closing brace where a key is
    expected (after a trailing comma, or at once) ends the object with no
    fault and leaves the cursor on the brace. *)
Theorem X14_array_slot_without_value (fuel : nat) (cell : captured) (ws rest : string)
        (self : Node) :
  quiet cell -> allspace ws = true ->
  (Array self <> [] ->
   ArrayLoop (2 + fuel) cell (ws ++ "]" ++ rest) self =
   Ret (Error.None, rest, pushed_default self)) /\
  ArrayLoop (2 + fuel) cell (ws ++ "," ++ rest) self =
    ArrayLoop (1 + fuel) cell rest (pushed_default self) /\
  ObjectLoop (1 + fuel) cell (ws ++ "}" ++ rest) self =
    Ret (Error.None, "}" ++ rest, set_Type ValueType.Object self).
Proof.
  intros Hq Hws. split; [|split].
  - intros Hne. cbn [Nat.add]. rewrite ArrayLoop_S.
    cbn [append]. rewrite peek_ws by (auto; reflexivity). cbv zeta.
    rewrite SkipSpace_lead by (auto; reflexivity).
    destruct (Array self) as [|x l] eqn:EA; [now destruct Hne|].
    cbn [List.length Nat.eqb andb].
    rewrite Parse_no_production by (auto; reflexivity).
    cbn [bind Error.eqb negb].
    change (SkipSpace (String "]" rest)) with (String "]" rest).
    cbn [peek advance]. change (Ascii.eqb "]" "]") with true. cbv iota.
    unfold pushed_default. destruct self. cbn in *. now subst.
  - cbn [Nat.add]. rewrite ArrayLoop_S.
    cbn [append]. rewrite peek_ws by (auto; reflexivity). cbv zeta.
    rewrite SkipSpace_lead by (auto; reflexivity).
    cbn [peek]. change (Ascii.eqb "," "]") with false. rewrite andb_false_r.
    rewrite Parse_no_production by (auto; reflexivity).
    cbn [bind Error.eqb negb].
    change (SkipSpace (String "," rest)) with (String "," rest).
    cbn [peek advance]. change (Ascii.eqb "," "]") with false.
    change (Ascii.eqb "," ",") with true. cbn [negb]. reflexivity.
  - cbn [Nat.add]. rewrite ObjectLoop_S.
    cbn [append]. rewrite peek_ws by (auto; reflexivity). cbv zeta.
    rewrite SkipSpace_lead by (auto; reflexivity).
    cbn [peek]. change (Ascii.eqb "}" "}") with true. reflexivity.
Qed.

(** X14, witness: the closing bracket after the comma of a one-element
    array. *)
Lemma X14_array_slot_without_value_witness :
  ArrayLoop 2 None " ]" (Node_array [Node_int 1]) =
  Ret (Error.None, "", Node_array [Node_int 1; Node_default]).
Proof.
  apply (proj1 (X14_array_slot_without_value 0 None " " "" (Node_array [Node_int 1])
                  I eq_refl)).
  discriminate.
Defined.

(** ** The cursor only moves forward *)

Lemma rest_of_refl (P : string) : rest_of P P.
Proof. now exists "". Qed.

Lemma rest_of_trans (P Q R : string) : rest_of P Q -> rest_of Q R -> rest_of P R.
Proof. intros [a ->] [b ->]. exists (a ++ b). now rewrite append_assoc. Qed.

Lemma rest_of_advance (P : string) : rest_of P (advance P).
Proof. destruct P as [|c P]; [now exists ""|now exists (String c "")]. Qed.

Lemma rest_of_advance_by (n : nat) (P : string) : rest_of P (advance_by n P).
Proof.
  unfold advance_by. induction n as [|n IH]; cbn [Nat.iter]; [apply rest_of_refl|].
  eapply rest_of_trans; [exact IH|apply rest_of_advance].
Qed.

Lemma rest_of_SkipSpace (P : string) : rest_of P (SkipSpace P).
Proof.
  induction P as [|c P IH]; cbn [SkipSpace]; [apply rest_of_refl|].
  destruct (isspace c); [|apply rest_of_refl].
  destruct IH as [a Ha]. exists (String c a). cbn [append]. now rewrite <- Ha.
Qed.

Lemma rest_of_ExtractString (P Str P' : string) :
  ExtractString P = Ret (Str, P') -> rest_of P P'.
Proof.
  revert Str P'. induction P as [|c P IH]; intros Str P'; cbn [ExtractString];
    [discriminate|].
  destruct (Ascii.eqb c QUOT).
  - intros [= <- <-]. apply rest_of_refl.
  - destruct (ExtractString P) as [[s p]| |]; cbn [bind]; try discriminate.
    intros [= <- <-]. destruct (IH s p eq_refl) as [a Ha].
    exists (String c a). cbn [append]. now rewrite <- Ha.
Qed.

Lemma rest_of_ExtractInt (P : string) (N N' : Z) (P' : string) :
  ExtractInt_from N P = Ret (N', P') -> rest_of P P'.
Proof.
  revert N. induction P as [|c P IH]; intros N; cbn [ExtractInt_from].
  - intros [= <- <-]. apply rest_of_refl.
  - destruct (isdigit c); [|intros [= <- <-]; apply rest_of_refl].
    destruct (int_result _) as [z| |]; cbn [bind]; try discriminate.
    intros H. destruct (IH _ H) as [a Ha].
    exists (String c a). cbn [append]. now rewrite <- Ha.
Qed.

Lemma rest_of_ExtractDec (P : string) (N F : double) :
  rest_of P (snd (ExtractDec_from N F P)).
Proof.
  revert N F. induction P as [|c P IH]; intros N F; cbn [ExtractDec_from].
  - apply rest_of_refl.
  - destruct (isdigit c); [|apply rest_of_refl].
    destruct (IH (dadd N (dmul (double_of_int (digit_value c)) F)) (dmul F d0_1)) as [a Ha].
    exists (String c a). cbn [append]. now rewrite <- Ha.
Qed.

Lemma ParseString_forward (P : string) (self : Node) : moves_forward P (ParseString P self).
Proof.
  intros r. unfold ParseString. destruct (Ascii.eqb (peek P) QUOT);
    [|intros [= <-]; apply rest_of_refl].
  destruct (ExtractString (advance P)) as [[s p]| |] eqn:E; cbn [bind]; try discriminate.
  apply rest_of_ExtractString in E.
  assert (H : rest_of P p) by (eapply rest_of_trans; [apply rest_of_advance|exact E]).
  destruct (negb _); intros [= <-]; cbn [fst snd]; [exact H|].
  eapply rest_of_trans; [exact H|apply rest_of_advance].
Qed.

Lemma ParseBool_forward (P : string) (self : Node) : moves_forward P (ParseBool P self).
Proof.
  intros r. unfold ParseBool. destruct (_ || _); intros [= <-]; cbn [fst snd];
    first [apply rest_of_refl|apply rest_of_advance_by].
Qed.

Lemma ParseNull_forward (P : string) (self : Node) : moves_forward P (ParseNull P self).
Proof.
  intros r. unfold ParseNull. destruct (String.prefix _ _); intros [= <-]; cbn [fst snd];
    [apply (rest_of_advance_by 4)|apply rest_of_refl].
Qed.

Lemma assembled_forward (P : string) :
  forall a, assembled P = Ret (Some a) ->
            rest_of P match a with inl P' => P' | inr (_, P') => P' end.
Proof.
  intros a. unfold assembled.
  destruct (_ || _); [|discriminate].
  set (P0 := if Ascii.eqb (peek P) "-" then advance P else P).
  assert (H0 : rest_of P P0) by (unfold P0; destruct (Ascii.eqb _ _);
      [apply rest_of_advance|apply rest_of_refl]).
  destruct (ExtractInt P0) as [[W P1]| |] eqn:E1; cbn [bind]; try discriminate.
  apply rest_of_ExtractInt in E1.
  assert (H1 : rest_of P P1) by (eapply rest_of_trans; eassumption).
  destruct (Ascii.eqb (peek P1) "." && _)%bool.
  { intros [= <-]. eapply rest_of_trans; [exact H1|apply rest_of_advance]. }
  set (NP := if Ascii.eqb (peek P1) "." then _ else _).
  assert (H2 : rest_of P (snd NP)).
  { unfold NP. destruct (Ascii.eqb (peek P1) "."); [|exact H1].
    unfold ExtractDec.
    pose proof (rest_of_ExtractDec (advance P1) d0_0 d0_1) as HD.
    destruct (ExtractDec_from d0_0 d0_1 (advance P1)) as [D P3]. cbn [snd] in *.
    eapply rest_of_trans; [exact H1|].
    eapply rest_of_trans; [apply rest_of_advance|exact HD]. }
  destruct NP as [Number P2]. cbn [snd] in H2.
  destruct (_ || _); [|intros [= <-]; exact H2].
  set (P3 := if Ascii.eqb (peek (advance P2)) "-" then advance (advance P2) else advance P2).
  assert (H3 : rest_of P P3).
  { eapply rest_of_trans; [exact H2|].
    unfold P3. destruct (Ascii.eqb (peek (advance P2)) "-"); [|apply rest_of_advance].
    eapply rest_of_trans; apply rest_of_advance. }
  destruct (negb _); [intros [= <-]; exact H3|].
  destruct (ExtractInt P3) as [[Ex P4]| |] eqn:E4; cbn [bind]; try discriminate.
  apply rest_of_ExtractInt in E4.
  destruct (int_result _); cbn [bind]; try discriminate.
  intros [= <-]. eapply rest_of_trans; eassumption.
Qed.

Lemma ParseNumber_forward (P : string) (self : Node) : moves_forward P (ParseNumber P self).
Proof.
  intros r. rewrite ParseNumber_assembled.
  destruct (assembled P) as [[a|]| |] eqn:E; cbn [bind]; try discriminate.
  - apply assembled_forward in E. destruct a as [P'|[Num P']].
    + now intros [= <-].
    + destruct (integral Num).
      * destruct (int_of_double Num); cbn [bind]; try discriminate. now intros [= <-].
      * now intros [= <-].
  - intros [= <-]. apply rest_of_refl.
Qed.

Lemma bind_forward (P : string) (m : outcome parsed) (k : parsed -> outcome parsed) :
  moves_forward P m ->
  (forall r, rest_of P (snd (fst r)) -> moves_forward P (k r)) ->
  moves_forward P (bind m k).
Proof.
  intros Hm Hk r. destruct m as [x| |]; cbn [bind]; try discriminate.
  apply Hk. now apply Hm.
Qed.

Lemma Ret_forward (P : string) (Err : Error.t) (P' : string) (self : Node) :
  rest_of P P' -> moves_forward P (Ret (Err, P', self)).
Proof. intros H r [= <-]. exact H. Qed.

Lemma moves_forward_from (P Q : string) (m : outcome parsed) :
  rest_of P Q -> moves_forward Q m -> moves_forward P m.
Proof. intros H Hm r Hr. eapply rest_of_trans; [exact H|now apply Hm]. Qed.

Section Forward.

Variable fuel : nat.
Hypothesis Parse_forward :
  forall cell P self, moves_forward P (Parse fuel cell P self).
Hypothesis ObjectLoop_forward :
  forall cell P self, moves_forward P (ObjectLoop fuel cell P self).
Hypothesis ArrayLoop_forward :
  forall cell P self, moves_forward P (ArrayLoop fuel cell P self).

Lemma tail6_forward (cell : captured) (P : string) (r : parsed) :
  rest_of P (snd (fst r)) -> moves_forward P (tail6 cell r).
Proof.
  destruct r as [[Err P'] self]. cbn [fst snd]. intros H. unfold tail6.
  destruct (Check cell Err); now apply Ret_forward.
Qed.

Lemma tail5_forward (cell : captured) (P : string) (r : parsed) :
  rest_of P (snd (fst r)) -> moves_forward P (tail5 fuel cell r).
Proof.
  destruct r as [[Err P'] self]. cbn [fst snd]. intros H. unfold tail5.
  destruct (Check cell Err); [now apply Ret_forward|].
  apply bind_forward; [|intros r'; apply tail6_forward].
  apply (moves_forward_from P P'); [exact H|].
  unfold ParseArray_with. destruct (Ascii.eqb (peek P') "[").
  - apply (moves_forward_from P' (advance P')); [apply rest_of_advance|].
    apply ArrayLoop_forward.
  - apply Ret_forward, rest_of_refl.
Qed.

Lemma tail4_forward (cell : captured) (P : string) (r : parsed) :
  rest_of P (snd (fst r)) -> moves_forward P (tail4 fuel cell r).
Proof.
  destruct r as [[Err P'] self]. cbn [fst snd]. intros H. unfold tail4.
  destruct (Check cell Err); [now apply Ret_forward|].
  apply bind_forward; [|intros r'; apply tail5_forward].
  apply (moves_forward_from P P'); [exact H|].
  unfold ParseObject_with. destruct (Ascii.eqb (peek P') "{").
  - apply (moves_forward_from P' (advance P')); [apply rest_of_advance|].
    apply ObjectLoop_forward.
  - apply Ret_forward, rest_of_refl.
Qed.

Lemma tail3_forward (cell : captured) (P : string) (r : parsed) :
  rest_of P (snd (fst r)) -> moves_forward P (tail3 fuel cell r).
Proof.
  destruct r as [[Err P'] self]. cbn [fst snd]. intros H. unfold tail3.
  destruct (Check cell Err); [now apply Ret_forward|].
  apply bind_forward; [|intros r'; apply tail4_forward].
  apply (moves_forward_from P P'); [exact H|apply ParseNumber_forward].
Qed.

Lemma tail2_forward (cell : captured) (P : string) (r : parsed) :
  rest_of P (snd (fst r)) -> moves_forward P (tail2 fuel cell r).
Proof.
  destruct r as [[Err P'] self]. cbn [fst snd]. intros H. unfold tail2.
  destruct (Check cell Err); [now apply Ret_forward|].
  apply bind_forward; [|intros r'; apply tail3_forward].
  apply (moves_forward_from P P'); [exact H|apply ParseNull_forward].
Qed.

Lemma tail1_forward (cell : captured) (P : string) (r : parsed) :
  rest_of P (snd (fst r)) -> moves_forward P (tail1 fuel cell r).
Proof.
  destruct r as [[Err P'] self]. cbn [fst snd]. intros H. unfold tail1.
  destruct (Check cell Err); [now apply Ret_forward|].
  apply bind_forward; [|intros r'; apply tail2_forward].
  apply (moves_forward_from P P'); [exact H|apply ParseBool_forward].
Qed.

Lemma Parse_step_forward (cell : captured) (P : string) (self : Node) :
  moves_forward P (Parse (S fuel) cell P self).
Proof.
  rewrite Parse_tail.
  apply bind_forward; [|intros r; apply tail1_forward].
  apply (moves_forward_from P (SkipSpace P)); [apply rest_of_SkipSpace|].
  apply ParseString_forward.
Qed.

Lemma ObjectLoop_step_forward (cell : captured) (P : string) (self : Node) :
  moves_forward P (ObjectLoop (S fuel) cell P self).
Proof.
  rewrite ObjectLoop_S.
  destruct (Ascii.eqb (peek P) NUL); [apply Ret_forward, rest_of_refl|]. cbv zeta.
  pose proof (rest_of_SkipSpace P) as H0.
  destruct (Ascii.eqb (peek (SkipSpace P)) "}"); [now apply Ret_forward|].
  destruct (Ascii.eqb (peek (SkipSpace P)) QUOT);
    [|apply (moves_forward_from P (SkipSpace P)); [exact H0|apply ObjectLoop_forward]].
  destruct (ExtractString _) as [[Name p]| |] eqn:E; cbn [bind]; try (intros r; discriminate).
  apply rest_of_ExtractString in E.
  assert (H1 : rest_of P p).
  { eapply rest_of_trans; [exact H0|].
    eapply rest_of_trans; [apply rest_of_advance|exact E]. }
  destruct (negb (Ascii.eqb (peek p) QUOT)); [now apply Ret_forward|].
  assert (H2 : rest_of P (SkipSpace (advance p))).
  { eapply rest_of_trans; [exact H1|].
    eapply rest_of_trans; [apply rest_of_advance|apply rest_of_SkipSpace]. }
  destruct (negb (Ascii.eqb (peek (SkipSpace (advance p))) ":")); [now apply Ret_forward|].
  assert (H3 : rest_of P (SkipSpace (advance (SkipSpace (advance p))))).
  { eapply rest_of_trans; [exact H2|].
    eapply rest_of_trans; [apply rest_of_advance|apply rest_of_SkipSpace]. }
  apply bind_forward.
  { apply (moves_forward_from P _ _ H3). apply Parse_forward. }
  intros [[Err p'] New]. cbn [fst snd]. intros H4.
  destruct (negb (Error.eqb Err Error.None)); [now apply Ret_forward|]. cbv zeta.
  assert (H5 : rest_of P (SkipSpace p'))
    by (eapply rest_of_trans; [exact H4|apply rest_of_SkipSpace]).
  assert (H6 : rest_of P (advance (SkipSpace p')))
    by (eapply rest_of_trans; [exact H5|apply rest_of_advance]).
  destruct (Ascii.eqb (peek (SkipSpace p')) "}"); [now apply Ret_forward|].
  destruct (negb (Ascii.eqb (peek (SkipSpace p')) ",")); [now apply Ret_forward|].
  apply (moves_forward_from P _ _ H6). apply ObjectLoop_forward.
Qed.

Lemma ArrayLoop_step_forward (cell : captured) (P : string) (self : Node) :
  moves_forward P (ArrayLoop (S fuel) cell P self).
Proof.
  rewrite ArrayLoop_S.
  destruct (Ascii.eqb (peek P) NUL); [apply Ret_forward, rest_of_refl|]. cbv zeta.
  pose proof (rest_of_SkipSpace P) as H0.
  destruct (_ && _)%bool; [now apply Ret_forward|].
  apply bind_forward.
  { apply (moves_forward_from P _ _ H0). apply Parse_forward. }
  intros [[Err p'] New]. cbn [fst snd]. intros H4.
  destruct (negb (Error.eqb Err Error.None)); [now apply Ret_forward|].
  assert (H5 : rest_of P (SkipSpace p'))
    by (eapply rest_of_trans; [exact H4|apply rest_of_SkipSpace]).
  assert (H6 : rest_of P (advance (SkipSpace p')))
    by (eapply rest_of_trans; [exact H5|apply rest_of_advance]).
  destruct (Ascii.eqb (peek (SkipSpace p')) "]"); [now apply Ret_forward|].
  destruct (negb (Ascii.eqb (peek (SkipSpace p')) ",")); [now apply Ret_forward|].
  apply (moves_forward_from P _ _ H6). apply ArrayLoop_forward.
Qed.

End Forward.

Lemma parser_moves_forward (fuel : nat) :
  (forall cell P self, moves_forward P (Parse fuel cell P self)) /\
  (forall cell P self, moves_forward P (ObjectLoop fuel cell P self)) /\
  (forall cell P self, moves_forward P (ArrayLoop fuel cell P self)).
Proof.
  induction fuel as [|fuel (IHP & IHO & IHA)].
  - repeat split; intros cell P self r; discriminate.
  - split; [|split]; intros cell P self.
    + now apply Parse_step_forward.
    + now apply ObjectLoop_step_forward.
    + now apply ArrayLoop_step_forward.
Qed.

(** X15: the cursor only moves forward.  Whenever [Parse] returns, with a
    fault or without, in whichever activation, the cursor it leaves is on a
    suffix of the text it was given: the text is what was read followed by
    what remains. *)
Theorem X15_cursor_moves_forward (fuel : nat) (cell : captured) (Position : string)
        (self : Node) (Err : Error.t) (Position' : string) (self' : Node) :
  Parse fuel cell Position self = Ret (Err, Position', self') ->
  exists read, Position = read ++ Position'.
Proof.
  intros H. exact (proj1 (parser_moves_forward fuel) cell Position self _ H).
Qed.

(** X15, witness: an array followed by more text. *)
Lemma X15_cursor_moves_forward_witness :
  exists read, "[1, 2] x" = read ++ " x".
Proof.
  apply (X15_cursor_moves_forward 4 None "[1, 2] x" Node_default Error.None " x"
           (Node_array [Node_int 1; Node_int 2])).
  vm_compute. reflexivity.
Defined.

(** ** Documents *)

Lemma through_key_const (Key : string) (V self : Node) :
  through_key Key (fun _ => V) self =
  mkNode (Variant self)
         (if ValueType.eqb (Type_ self) ValueType.Object then Array self else [])
         (map_assign Key V (Object self)) ValueType.Object.
Proof.
  rewrite through_key_eq. f_equal.
  unfold Object_after_index_key, map_subscript.
  destruct (map_find Key (Object self)); cbn [fst]; [reflexivity|].
  apply map_assign_twice.
Qed.

Lemma JSON_build_Root (kvs : list (string * Node)) (J : JSON) :
  kvs <> [] ->
  Root (JSON_build kvs J) =
  mkNode (Variant (Root J))
         (if ValueType.eqb (Type_ (Root J)) ValueType.Object then Array (Root J) else [])
         (assign_all kvs (Object (Root J))) ValueType.Object.
Proof.
  revert J. induction kvs as [|[k v] kvs IH]; intros J Hne; [now destruct Hne|].
  unfold JSON_build, assign_all. cbn [fold_left fst snd].
  destruct kvs as [|kv kvs].
  - cbn [fold_left JSON_through Root]. apply through_key_const.
  - fold (JSON_build (kv :: kvs) (JSON_through k (fun _ => v) J)).
    rewrite IH by discriminate.
    unfold JSON_through. cbn [Root]. rewrite through_key_const.
    cbn [Variant Array Object Type_ ValueType.eqb]. reflexivity.
Qed.

Lemma forallb_pairs_assign (g : string * Node -> bool) (Key : string) (V : Node)
      (m : Object_t) :
  forallb g m = true -> g (Key, V) = true -> forallb g (map_assign Key V m) = true.
Proof.
  intros Hm HV. induction m as [|[k v] m IH]; cbn [map_assign forallb] in *.
  - now rewrite HV.
  - apply andb_prop in Hm as [H1 H2].
    destruct (String.compare Key k) eqn:E; cbn [forallb].
    + apply String.compare_eq_iff in E. subst k. now rewrite HV, H2.
    + now rewrite HV, H1, H2.
    + now rewrite H1, IH.
Qed.

Lemma forallb_pairs_assign_all (g : string * Node -> bool) (kvs : list (string * Node))
      (m : Object_t) :
  forallb g m = true -> forallb g kvs = true -> forallb g (assign_all kvs m) = true.
Proof.
  revert m. induction kvs as [|[k v] kvs IH]; intros m Hm Hk; [exact Hm|].
  cbn [forallb] in Hk. apply andb_prop in Hk as [H1 H2].
  unfold assign_all. cbn [fold_left fst snd].
  apply IH; [now apply forallb_pairs_assign|exact H2].
Qed.

Lemma assign_all_not_nil (kvs : list (string * Node)) (m : Object_t) :
  kvs <> [] -> assign_all kvs m <> [].
Proof.
  destruct kvs as [|[k v] kvs]; intros Hne; [now destruct Hne|].
  intros E.
  assert (H : In k (keys (assign_all ((k, v) :: kvs) m)))
    by (apply KeyOrder.assign_all_keys; left; now left).
  rewrite E in H. exact H.
Qed.

Lemma built_printable (kvs : list (string * Node)) :
  kvs <> [] ->
  forallb (fun N => quote_free (fst N) && printable (snd N)) kvs = true ->
  printable (Root (JSON_build kvs JSON_default)) = true.
Proof.
  intros Hne Hp. rewrite JSON_build_Root by assumption.
  cbn [JSON_default Root Variant Array Object Type_ Node_default ValueType.eqb printable
       is_empty_string is_nil andb].
  rewrite (forallb_pairs_assign_all _ kvs [] eq_refl Hp), andb_true_r.
  apply andb_true_intro. split.
  - pose proof (assign_all_not_nil kvs [] Hne). now destruct (assign_all kvs []).
  - apply keys_increasing_ordered.
    apply KeyOrder.assign_all_ordered. constructor.
Qed.

(** X16: a document built through its key indexer, written and read.
    Take a default-constructed document and assign printable nodes under
    keys that hold no double quote, in any order and with repetitions.  Its
    root holds the members the same assignments give a map.  Writing the
    document to a stream and constructing a document from that stream,
    the construction starting the first activation of [Parse] in the
    program, yields the document itself; so does extracting the stream
    into a default-constructed document, when the extraction starts the
    first activation of [Parse] in the program. *)
Theorem X16_document_round_trip (kvs : list (string * Node)) (fuel : nat) :
  kvs <> [] ->
  forallb (fun N => quote_free (fst N) && printable (snd N)) kvs = true ->
  (need (Root (JSON_build kvs JSON_default)) <= fuel)%nat ->
  Object (Root (JSON_build kvs JSON_default)) = assign_all kvs [] /\
  JSON_from_stream fuel (JSON_print (JSON_build kvs JSON_default)) =
    Ret (Built (JSON_build kvs JSON_default)) /\
  JSON_extract fuel (JSON_print (JSON_build kvs JSON_default)) JSON_default =
    Ret (Filled (Root (JSON_build kvs JSON_default))).
Proof.
  intros Hne Hp Hfuel.
  pose proof (built_printable kvs Hne Hp) as Hpr.
  pose proof (round_trip _ fuel Hpr Hfuel) as HR.
  split; [now rewrite JSON_build_Root|].
  unfold JSON_from_stream, JSON_extract, JSON_print, extract.
  cbn [JSON_default Root]. rewrite HR. cbn [bind Error.eqb negb].
  split; [|reflexivity]. now destruct (JSON_build kvs JSON_default).
Qed.

(** X16, witness: two members assigned in decreasing key order. *)
Lemma X16_document_round_trip_witness :
  JSON_from_stream 5 (JSON_print (JSON_build [("b", Node_int 1); ("a", Node_string "x")]
                                             JSON_default)) =
  Ret (Built (mkJSON (mkNode (v_string "") []
                        [("a", Node_string "x"); ("b", Node_int 1)] ValueType.Object))).
Proof.
  apply (proj1 (proj2 (X16_document_round_trip [("b", Node_int 1); ("a", Node_string "x")] 5
                         ltac:(discriminate) ltac:(vm_compute; reflexivity)
                         ltac:(apply Nat.leb_le; vm_compute; reflexivity)))).
Defined.

(** ** Parsing into a node that holds something *)

Section Merge.

Variable Level size : nat.
Variable cell : captured.
Variable tail : string.
Hypothesis cell_quiet : quiet cell.

Lemma ObjectLoop_merges (todo : Object_t) :
  forallb (fun N => quote_free (fst N) && printable (snd N)) todo = true ->
  todo <> [] ->
  forall (Count : nat) (self : Node) (fuel : nat),
    (list_sum (List.map (fun N => S (need (snd N))) todo) <= fuel)%nat ->
    size = (Count + List.length todo)%nat ->
    ObjectLoop fuel cell
      (endl ++ members_text Level size Count todo ++ Tabs Level ++ "}" ++ tail) self =
    Ret (Error.None, tail, with_members todo self).
Proof.
  induction todo as [|[k v] l IH]; intros Hpr Hne Count self fuel Hfuel Hsize;
    [now destruct Hne|clear Hne].
  cbn [forallb fst snd] in Hpr. apply andb_prop in Hpr as [Hkv Hpl].
  apply andb_prop in Hkv as [Hk Hpv].
  pose proof (printable_comes_back v Hpv) as Hv.
  change (S (need v) + list_sum (List.map (fun N => S (need (snd N))) l) <= fuel)%nat in Hfuel.
  destruct fuel as [|fuel]; [lia|].
  set (sep := if negb (Nat.eqb (S Count) size) then "," else "").
  set (R := sep ++ endl ++ members_text Level size (S Count) l ++ Tabs Level ++ "}" ++ tail).
  assert (HT : endl ++ members_text Level size Count ((k, v) :: l) ++ Tabs Level ++ "}" ++ tail =
               (endl ++ Tabs (S Level)) ++
               String QUOT (k ++ String QUOT (": " ++ print (S Level) v ++ R))).
  { cbn [members_text]. unfold member_text. cbn [fst snd]. fold sep.
    unfold R. rewrite !append_assoc. cbn [append]. rewrite !append_assoc.
    cbn [append]. reflexivity. }
  rewrite HT.
  assert (HR : (l = [] /\ R = (endl ++ Tabs Level) ++ String "}" tail) \/
               (l <> [] /\ R = "," ++ endl ++ members_text Level size (S Count) l
                                 ++ Tabs Level ++ "}" ++ tail)).
  { unfold R, sep. destruct l as [|N' l'].
    - left. split; [reflexivity|]. cbn [List.length] in Hsize.
      replace (S Count =? size)%nat with true by (symmetry; apply Nat.eqb_eq; lia).
      cbn [negb members_text append]. now rewrite append_assoc.
    - right. split; [discriminate|]. cbn [List.length] in Hsize.
      replace (S Count =? size)%nat with false by (symmetry; apply Nat.eqb_neq; lia).
      reflexivity. }
  assert (HdR : delim R = true) by (destruct HR as [[_ ->]|[_ ->]]; reflexivity).
  rewrite ObjectLoop_S.
  change (Ascii.eqb (peek ((endl ++ Tabs (S Level)) ++ _)) NUL) with false. cbv iota zeta.
  rewrite SkipSpace_lead;
    [|apply (allspace_app endl); [reflexivity|apply allspace_Tabs]|reflexivity].
  cbn [peek advance].
  change (Ascii.eqb QUOT "}") with false. change (Ascii.eqb QUOT QUOT) with true.
  cbv iota.
  rewrite ExtractString_quote_free by assumption. cbn [bind peek advance].
  change (Ascii.eqb QUOT QUOT) with true. cbn [negb append].
  change (SkipSpace (String ":" ?x)) with (String ":" x). cbn [peek advance].
  change (Ascii.eqb ":" ":") with true. cbn [negb].
  rewrite Parse_SkipSpace.
  change (String " " (print (S Level) v ++ R)) with (" " ++ print (S Level) v ++ R).
  rewrite (Hv (S Level) fuel cell " " R cell_quiet ltac:(lia) eq_refl HdR).
  cbn [bind Error.eqb negb at_level_zero Nat.eqb append].
  destruct HR as [[-> HR]|[Hl' HR]]; rewrite HR.
  - rewrite SkipSpace_lead;
      [|apply (allspace_app endl); [reflexivity|apply allspace_Tabs]|reflexivity].
    cbn [peek advance]. change (Ascii.eqb "}" "}") with true. cbv iota.
    now destruct self.
  - cbn [append]. change (SkipSpace (String "," ?x)) with (String "," x).
    cbn [peek advance].
    change (Ascii.eqb "," "}") with false. change (Ascii.eqb "," ",") with true.
    cbn [negb].
    change (String LF ?x) with (endl ++ x).
    rewrite (IH Hpl Hl' (S Count) _ fuel ltac:(lia)
                ltac:(cbn [List.length] in Hsize; lia)).
    now destruct self.
Qed.

Lemma ArrayLoop_appends (todo : list Node) :
  forallb printable todo = true -> todo <> [] ->
  forall (Counter : nat) (self : Node) (fuel : nat) (ws : string),
    (list_sum (List.map (fun E => S (need E)) todo) <= fuel)%nat ->
    allspace ws = true ->
    size = (Counter + List.length todo)%nat ->
    ArrayLoop fuel cell (ws ++ elements_text Level size Counter todo ++ "]" ++ tail) self =
    Ret (Error.None, tail, with_elements todo self).
Proof.
  induction todo as [|E l IH]; intros Hpr Hne Counter self fuel ws Hfuel Hws Hsize;
    [now destruct Hne|clear Hne].
  cbn [forallb] in Hpr. apply andb_prop in Hpr as [HpE Hpl].
  pose proof (printable_comes_back E HpE) as HE.
  change (S (need E) + list_sum (List.map (fun E => S (need E)) l) <= fuel)%nat in Hfuel.
  destruct fuel as [|fuel]; [lia|].
  cbn [elements_text]. rewrite !append_assoc.
  set (sep := if Nat.eqb (S Counter) size then "" else ", ").
  set (R := sep ++ elements_text Level size (S Counter) l ++ "]" ++ tail).
  destruct (value_text_head ws Level E R HpE Hws) as (Hnul & c & s & Hskip & Hc).
  destruct (starter_facts c Hc) as (_ & _ & Hbr & _).
  assert (HR : (l = [] /\ R = "]" ++ tail) \/
               (l <> [] /\ R = ", " ++ elements_text Level size (S Counter) l
                                  ++ "]" ++ tail)).
  { unfold R, sep. destruct l as [|E' l'].
    - left. split; [reflexivity|]. cbn [List.length] in Hsize.
      replace (S Counter =? size)%nat with true by (symmetry; apply Nat.eqb_eq; lia).
      reflexivity.
    - right. split; [discriminate|]. cbn [List.length] in Hsize.
      replace (S Counter =? size)%nat with false by (symmetry; apply Nat.eqb_neq; lia).
      reflexivity. }
  assert (HdR : delim R = true) by (destruct HR as [[_ ->]|[_ ->]]; reflexivity).
  assert (HsR : isspace (peek R) = false) by (destruct HR as [[_ ->]|[_ ->]]; reflexivity).
  rewrite ArrayLoop_S, Hnul. cbv zeta. rewrite Hskip. cbn [peek]. rewrite Hbr, andb_false_r.
  rewrite <- Hskip, Parse_SkipSpace.
  rewrite (HE Level fuel cell ws R cell_quiet ltac:(lia) Hws (delim_after_level _ _ HdR)).
  cbn [bind Error.eqb negb].
  rewrite SkipSpace_after_level by assumption.
  destruct HR as [[-> HR]|[Hl' HR]].
  - rewrite HR. cbn [append peek advance]. change (Ascii.eqb "]" "]") with true. cbv iota.
    now destruct self.
  - rewrite HR. cbn [append peek advance].
    change (Ascii.eqb "," "]") with false. change (Ascii.eqb "," ",") with true.
    cbn [negb].
    change (String " " ?x) with (" " ++ x).
    rewrite (IH Hpl Hl' (S Counter) _ fuel " " ltac:(lia) eq_refl
                ltac:(cbn [List.length] in Hsize; lia)).
    destruct self. unfold with_elements. cbn. now rewrite <- app_assoc.
Qed.

End Merge.

Lemma object_text_merges (Obj : Object_t) (self : Node) (fuel : nat) :
  printable (mkNode (v_string "") [] Obj ValueType.Object) = true ->
  (need (mkNode (v_string "") [] Obj ValueType.Object) <= fuel)%nat ->
  Parse_top fuel (print 0 (mkNode (v_string "") [] Obj ValueType.Object)) self =
  Ret (Error.None, endl, with_members Obj self).
Proof.
  intros Hp Hfuel. cbn [printable is_empty_string is_nil andb] in Hp.
  apply andb_prop in Hp as [Hp Hall]. apply andb_prop in Hp as [Hne Hkeys].
  cbn [need] in Hfuel. destruct fuel as [|fuel]; [lia|].
  unfold Parse_top. rewrite Parse_tail, print_Object.
  cbn [Nat.eqb negb Tabs repeat string_of_list_ascii append].
  change (SkipSpace (String "{" ?x)) with (String "{" x).
  rewrite ParseString_skip by reflexivity. cbn [bind].
  rewrite tail1_skip by (auto; first [exact I|reflexivity]).
  rewrite tail2_skip by (auto; first [exact I|reflexivity]).
  rewrite tail3_skip by (auto; first [exact I|reflexivity]).
  unfold tail4. cbn [Check Error.eqb negb andb nested].
  unfold ParseObject_with. cbn [peek advance].
  change (Ascii.eqb "{" "{") with true. cbv iota.
  change (String LF ?x) with (endl ++ x).
  change (members_text 0 (List.length Obj) 0 Obj ++ String "}" (at_level_zero 0))
    with (members_text 0 (List.length Obj) 0 Obj ++ Tabs 0 ++ "}" ++ at_level_zero 0).
  rewrite (ObjectLoop_merges 0 (List.length Obj) (Some Error.Undefined) (at_level_zero 0)
             (or_intror eq_refl) Obj Hall ltac:(now destruct Obj) 0%nat self fuel
             ltac:(lia) eq_refl).
  cbn [bind]. rewrite tail5_delim by (auto; first [exact I|reflexivity]). reflexivity.
Qed.

Lemma array_text_appends (Arr : Array_t) (self : Node) (fuel : nat) :
  printable (Node_array Arr) = true ->
  (need (Node_array Arr) <= fuel)%nat ->
  Parse_top fuel (print 0 (Node_array Arr)) self =
  Ret (Error.None, endl, with_elements Arr self).
Proof.
  intros Hp Hfuel. unfold Node_array in *.
  cbn [printable is_empty_string is_nil andb] in Hp.
  apply andb_prop in Hp as [Hne Hall].
  cbn [need] in Hfuel. destruct fuel as [|fuel]; [lia|].
  unfold Parse_top. rewrite Parse_tail, print_Array.
  cbn [append].
  change (SkipSpace (String "[" ?x)) with (String "[" x).
  rewrite ParseString_skip by reflexivity. cbn [bind].
  rewrite tail1_skip by (auto; first [exact I|reflexivity]).
  rewrite tail2_skip by (auto; first [exact I|reflexivity]).
  rewrite tail3_skip by (auto; first [exact I|reflexivity]).
  rewrite tail4_skip by (auto; first [exact I|reflexivity]).
  unfold tail5. cbn [Check Error.eqb negb andb nested].
  unfold ParseArray_with. cbn [peek advance].
  change (Ascii.eqb "[" "[") with true. cbv iota.
  change (elements_text 0 (List.length Arr) 0 Arr ++ String "]" (at_level_zero 0))
    with ("" ++ elements_text 0 (List.length Arr) 0 Arr ++ "]" ++ at_level_zero 0).
  rewrite (ArrayLoop_appends 0 (List.length Arr) (Some Error.Undefined) (at_level_zero 0)
             (or_intror eq_refl) Arr Hall ltac:(now destruct Arr) 0%nat self fuel ""
             ltac:(lia) eq_refl eq_refl).
  cbn [bind]. rewrite tail6_calm by (auto; exact I). reflexivity.
Qed.


Lemma map_find_assign_all_other (Key : string) (kvs : list (string * Node)) (m : Object_t) :
  ~ In Key (List.map fst kvs) -> map_find Key (assign_all kvs m) = map_find Key m.
Proof.
  revert m. induction kvs as [|[k v] kvs IH]; intros m Hn; [reflexivity|].
  unfold assign_all. cbn [fold_left fst snd].
  cbn [List.map fst In] in Hn.
  fold (assign_all kvs (map_assign k v m)).
  rewrite IH by tauto. apply map_find_assign_other. intros ->. tauto.
Qed.

(** X17: parsing into a node that holds something, by the first activation
    of [Parse] in the program; what the node holds was put there without
    parsing.  The printed text of a printable object, parsed into any
    node, assigns its members to the members the node has: a member of
    the node under a key of the text is overwritten, every other member
    stays.  The printed text of a printable array, parsed into any node,
    pushes its elements after the elements the node has.  The scalar slot
    and the other container of the node are left as they were.  The
    extraction into a document that holds members, when it starts the
    first activation of [Parse] in the program, merges in the same way. *)
Theorem X17_parse_merges (self : Node) (fuel : nat) :
  (forall Obj,
     printable (mkNode (v_string "") [] Obj ValueType.Object) = true ->
     (need (mkNode (v_string "") [] Obj ValueType.Object) <= fuel)%nat ->
     Parse_top fuel (print 0 (mkNode (v_string "") [] Obj ValueType.Object)) self =
       Ret (Error.None, endl, with_members Obj self) /\
     JSON_extract fuel (JSON_print (mkJSON (mkNode (v_string "") [] Obj ValueType.Object)))
                  (mkJSON self) =
       Ret (Filled (with_members Obj self))) /\
  (forall Arr,
     printable (Node_array Arr) = true ->
     (need (Node_array Arr) <= fuel)%nat ->
     Parse_top fuel (print 0 (Node_array Arr)) self =
       Ret (Error.None, endl, with_elements Arr self)) /\
  (forall Obj Key,
     ~ In Key (keys Obj) ->
     map_find Key (Object (with_members Obj self)) = map_find Key (Object self)) /\
  (forall Obj,
     Variant (with_members Obj self) = Variant self /\
     Array (with_members Obj self) = Array self) /\
  (forall Arr,
     Variant (with_elements Arr self) = Variant self /\
     Object (with_elements Arr self) = Object self /\
     Array (with_elements Arr self) = (Array self ++ Arr)%list).
Proof.
  split; [|split; [|split; [|split]]].
  - intros Obj Hp Hfuel.
    pose proof (object_text_merges Obj self fuel Hp Hfuel) as H.
    split; [exact H|].
    unfold JSON_extract, JSON_print, extract. cbn [Root]. now rewrite H.
  - intros Arr. apply array_text_appends.
  - intros Obj Key Hn. destruct self. cbn [with_members set_Type set_Object Object].
    now apply map_find_assign_all_other.
  - intros Obj. now destruct self.
  - intros Arr. now destruct self.
Qed.

(** X17, witness: a one-member object parsed into a node that holds another
    member. *)
Lemma X17_parse_merges_witness :
  Parse_top 3 (print 0 (mkNode (v_string "") [] [("a", Node_int 2)] ValueType.Object))
            (mkNode (v_string "") [] [("b", Node_int 1)] ValueType.Object) =
  Ret (Error.None, endl, node_a_2_b_1).
Proof.
  apply (proj1 (proj1 (X17_parse_merges
                         (mkNode (v_string "") [] [("b", Node_int 1)] ValueType.Object) 3)
                      [("a", Node_int 2)] ltac:(vm_compute; reflexivity)
                      ltac:(apply Nat.leb_le; vm_compute; reflexivity))).
Defined.

(** ** Values written one after the other *)

(** X18: values written one after the other, in the first activation of
    [Parse] in the program and in the activations nested in it (the cell of
    [Check] holds no fault).  [Parse] tries its six productions in turn on
    the cursor as the one before left it, also after one of them has
    stored a value.  A quoted string directly followed by a bool literal
    parses as the bool, a bool literal directly followed by the null
    literal parses as null, and the null literal directly followed by the
    decimal text of an int parses as the int, when the character after the
    second value starts no production and continues no number: each time
    with no fault, the later value in place of the earlier one. *)
Theorem X18_adjacent_values (fuel : nat) (cell : captured) (rest : string) (self : Node) :
  quiet cell -> delim rest = true ->
  (forall s b, quote_free s = true ->
     Parse (S fuel) cell (quoted s ++ bool_text b ++ rest) self =
     Ret (Error.None, rest, with_scalar (v_bool b) self)) /\
  (forall b,
     Parse (S fuel) cell (bool_text b ++ "null" ++ rest) self =
     Ret (Error.None, rest, with_scalar v_nullptr self)) /\
  (forall z, small_int z = true ->
     Parse (S fuel) cell ("null" ++ Save_int z ++ rest) self =
     Ret (Error.None, rest, with_scalar (v_int z) self)).
Proof.
  intros Hq Hd. split; [|split].
  - intros s b Hs. rewrite Parse_tail.
    rewrite quoted_app. change (SkipSpace (String QUOT ?x)) with (String QUOT x).
    rewrite <- quoted_app. rewrite ParseString_quoted by assumption. cbn [bind].
    unfold tail1. rewrite Check_quiet by auto.
    unfold bool_text. rewrite ParseBool_literal. cbn [bind].
    rewrite tail2_delim by auto. now destruct self.
  - intros b. rewrite Parse_tail.
    assert (Hsk : SkipSpace (bool_text b ++ "null" ++ rest) = bool_text b ++ "null" ++ rest)
      by now destruct b.
    rewrite Hsk. rewrite ParseString_skip by now destruct b. cbn [bind].
    unfold tail1. rewrite Check_quiet by auto.
    unfold bool_text. rewrite ParseBool_literal. cbn [bind].
    unfold tail2. rewrite Check_quiet by auto.
    rewrite ParseNull_literal. cbn [bind].
    rewrite tail3_delim by auto. now destruct self.
  - intros z Hz. rewrite Parse_tail. cbn [append].
    change (SkipSpace (String "n" ?x)) with (String "n" x).
    rewrite ParseString_skip by reflexivity. cbn [bind].
    rewrite tail1_skip by (auto; reflexivity).
    unfold tail2. rewrite Check_quiet by auto.
    change (String "n" (String "u" (String "l" (String "l" ?x)))) with ("null" ++ x).
    rewrite ParseNull_literal. cbn [bind].
    unfold tail3. rewrite Check_quiet by auto.
    rewrite ParseNumber_Save_int by assumption. cbn [bind].
    rewrite tail4_delim by auto. now destruct self.
Qed.

(** X18, witness: a string directly followed by a bool literal. *)
Lemma X18_adjacent_values_witness :
  Parse 1 None (quoted "a" ++ bool_text true ++ ",") Node_default =
  Ret (Error.None, ",", Node_bool true).
Proof.
  apply (proj1 (X18_adjacent_values 0 None "," Node_default I eq_refl) "a" true eq_refl).
Defined.

(** ** Payloads the tag does not select *)

Lemma elements_text_active (Level size : nat) (l : list Node) :
  Forall (fun E => forall Level, print Level (active E) = print Level E) l ->
  forall Counter,
    elements_text Level size Counter (List.map active l) =
    elements_text Level size Counter l.
Proof.
  induction 1 as [|E l HE Hl IH]; intros Counter; cbn [List.map elements_text];
    [reflexivity|].
  now rewrite HE, IH.
Qed.

Lemma members_text_active (Level size : nat) (l : Object_t) :
  Forall (fun N => forall Level, print Level (active (snd N)) = print Level (snd N)) l ->
  forall Count,
    members_text Level size Count (List.map (fun N => (fst N, active (snd N))) l) =
    members_text Level size Count l.
Proof.
  induction 1 as [|N l HN Hl IH]; intros Count; cbn [List.map members_text];
    [reflexivity|].
  unfold member_text. cbn [fst snd]. now rewrite HN, IH.
Qed.

Lemma print_active (Val : Node) : forall Level, print Level (active Val) = print Level Val.
Proof.
  induction Val as [V Arr Obj Ty IHArr IHObj] using Node_ind. intros Level.
  destruct Ty; cbn [active].
  - now rewrite !print_Variant.
  - rewrite !print_Array, length_map. now rewrite elements_text_active.
  - rewrite !print_Object, length_map. now rewrite members_text_active.
Qed.

(** X19: the printer shows the payload the tag selects and no other, at
    every depth: a tree prints as the tree with its other payloads taken
    out.  When the latter is printable, parsing the printed text into a
    fresh node, by the first activation of [Parse] in the program, yields
    it, whatever text follows the final newline: the text after the value
    is not looked at, and the stream extraction that starts that
    activation throws nothing. *)
Theorem X19_print_shows_the_active_payload (Val : Node) :
  (forall Level, print Level (active Val) = print Level Val) /\
  (forall fuel rest,
     printable (active Val) = true -> (need (active Val) <= fuel)%nat ->
     Parse_top fuel (print 0 Val ++ rest) Node_default =
       Ret (Error.None, endl ++ rest, active Val) /\
     extract fuel (print 0 Val ++ rest) Node_default = Ret (Filled (active Val))).
Proof.
  split; [apply print_active|].
  intros fuel rest Hp Hfuel.
  pose proof (printable_comes_back (active Val) Hp 0%nat fuel None "" rest I Hfuel
                eq_refl eq_refl) as H.
  cbn [append at_level_zero Nat.eqb] in H. rewrite print_active in H.
  unfold extract, Parse_top. rewrite H. split; reflexivity.
Qed.

(** X19, witness: an array node after the assignment of an int, printed
    and followed by more text. *)
Lemma X19_print_shows_the_active_payload_witness :
  Parse_top 1 (print 0 (assign_int 5 (Node_array [Node_int 1])) ++ "junk") Node_default =
  Ret (Error.None, endl ++ "junk", Node_int 5).
Proof.
  apply (proj1 (proj2 (X19_print_shows_the_active_payload
                         (assign_int 5 (Node_array [Node_int 1]))) 1%nat "junk"
                      ltac:(vm_compute; reflexivity)
                      ltac:(apply Nat.leb_le; vm_compute; reflexivity))).
Defined.
